(** * whatsapp-zip-viewer: a shallow embedding of the parser, loader and splitter

    The development follows the TypeScript sources:
    - [src/utils/spilter.ts]          (module [Spilter]): the archive splitter;
    - the viewer component, [part_002] (module [Viewer]): the message parser
      and its media classifier;
    - [src/utils/MediaLoader.ts]      (module [Loader]): the lazy media loader;
    - [src/SplitZipPage.tsx]          (module [SplitZipPage]): the page that
      calls the splitter.

    JavaScript strings are sequences of UTF-16 code units, modelled as
    [list N]; the regular expressions of the sources are written in a small
    regular-expression syntax whose matcher is the backtracking matcher of
    ECMAScript restricted to the constructs the sources use. The loader,
    whose methods are asynchronous, is a state machine: one event is one
    call of a method or one continuation of a task. What depends on the
    machine the program runs on is a parameter: the conversion of local
    time to UTC ([UTC]) and the lower-case mapping of the code units
    above 127 ([Host]). *)

From Stdlib Require Import ZArith NArith Lia Ascii.
From stdpp Require Import gmap list strings fin_maps.

Set Default Proof Using "Type".

(* ===================================================================== *)
(** * Part I: definitions                                                 *)
(* ===================================================================== *)

(** ** JavaScript strings, regular expressions and dates *)
Module JS.

Abbreviation jsstring := (list N).

(** The code units of an ASCII literal. *)
Fixpoint str (s : string) : jsstring :=
  match s with
  | EmptyString => []
  | String a s' => N_of_ascii a :: str s'
  end.

Definition LF : N := 10%N.
Definition CR : N := 13%N.

Definition jsstring_eqb (a b : jsstring) : bool := bool_decide (a = b).

(** [\d] *)
Definition isDigit (c : N) : bool := ((48 <=? c) && (c <=? 57))%N.

(** [\s], which is also the set removed by [String.prototype.trim]:
    WhiteSpace and LineTerminator code units. *)
Definition isSpace (c : N) : bool :=
  (((9 <=? c) && (c <=? 13)) || (c =? 32) || (c =? 160) || (c =? 5760)
   || ((8192 <=? c) && (c <=? 8202)) || (c =? 8232) || (c =? 8233)
   || (c =? 8239) || (c =? 8287) || (c =? 12288) || (c =? 65279))%N.

(** [.] without the [s] flag: anything but a line terminator. *)
Definition isDot (c : N) : bool :=
  negb ((c =? 10) || (c =? 13) || (c =? 8232) || (c =? 8233))%N.

(** [[A-Za-z0-9]] *)
Definition isAlnum (c : N) : bool :=
  (((65 <=? c) && (c <=? 90)) || ((97 <=? c) && (c <=? 122)) || isDigit c)%N.

(** Canonicalize of a code unit under the [i] flag (no [u] flag): ASCII
    lower-case letters go to upper case; a code unit above 127 never
    canonicalizes to an ASCII one, so for the ASCII pattern characters of
    the sources only this ASCII folding is observable. *)
Definition canonicalize (c : N) : N :=
  if ((97 <=? c) && (c <=? 122))%N then (c - 32)%N else c.

Definition isChar (p : N) (c : N) : bool := (c =? p)%N.
Definition isCharI (p : N) (c : N) : bool :=
  ((c <? 128) && (canonicalize c =? canonicalize p))%N.
Definition isNot (p : N) (c : N) : bool := negb (c =? p)%N.

(** *** Regular expressions *)

Inductive regex : Type :=
| REps
| RClass (p : N -> bool)               (* one code unit of a class *)
| RSeq (a b : regex)
| RAlt (a b : regex)                   (* a|b, left first *)
| RGroup (i : nat) (a : regex)         (* capture group number i *)
| ROpt (a : regex)                     (* (?:a)? greedy *)
| RRepeat (lo hi : nat) (p : N -> bool) (* class{lo,hi} greedy *)
| RStar (p : N -> bool)                (* class* greedy *)
| REnd.                                (* $ *)

Definition RPlus (p : N -> bool) : regex := RSeq (RClass p) (RStar p).

Fixpoint RLit (s : jsstring) : regex :=
  match s with
  | [] => REps
  | c :: s' => RSeq (RClass (isChar c)) (RLit s')
  end.

Fixpoint RLitI (s : jsstring) : regex :=
  match s with
  | [] => REps
  | c :: s' => RSeq (RClass (isCharI c)) (RLitI s')
  end.

(** The captures of a match: slot [i] is group number [i]; [None] is
    [undefined]. Slot 0 (the whole match) is never read by the sources and
    stays [None]. *)
Abbreviation captures := (list (option jsstring)).

Section Matcher.
Context {A : Type}.

(** Greedy [class{lo,hi}]: as many as possible first, then fewer. *)
Fixpoint repeatGreedy (p : N -> bool) (lo hi : nat)
    (k : jsstring -> option A) (s : jsstring) : option A :=
  let stop := if decide (lo = 0%nat) then k s else None in
  match hi with
  | O => stop
  | S hi' =>
      match s with
      | c :: s' =>
          if p c then
            match repeatGreedy p (pred lo) hi' k s' with
            | Some x => Some x
            | None => stop
            end
          else stop
      | [] => stop
      end
  end.

(** Greedy [class*]. *)
Fixpoint starGreedy (p : N -> bool) (k : jsstring -> option A)
    (s : jsstring) : option A :=
  match s with
  | c :: s' =>
      if p c then
        match starGreedy p k s' with
        | Some x => Some x
        | None => k s
        end
      else k s
  | [] => k s
  end.

(** The backtracking matcher, in continuation-passing style: [k] is the
    rest of the pattern, applied to the rest of the input. *)
Fixpoint matchRe (r : regex) (s : jsstring) (caps : captures)
    (k : jsstring -> captures -> option A) : option A :=
  match r with
  | REps => k s caps
  | RClass p =>
      match s with
      | c :: s' => if p c then k s' caps else None
      | [] => None
      end
  | RSeq a b => matchRe a s caps (fun s' caps' => matchRe b s' caps' k)
  | RAlt a b =>
      match matchRe a s caps k with
      | Some x => Some x
      | None => matchRe b s caps k
      end
  | RGroup i a =>
      matchRe a s caps (fun s' caps' =>
        k s' (<[i := Some (take (length s - length s') s)]> caps'))
  | ROpt a =>
      match matchRe a s caps k with
      | Some x => Some x
      | None => k s caps
      end
  | RRepeat lo hi p => repeatGreedy p lo hi (fun s' => k s' caps) s
  | RStar p => starGreedy p (fun s' => k s' caps) s
  | REnd => match s with [] => k s caps | _ :: _ => None end
  end.
End Matcher.

(** [within P r]: every class of the pattern [r] lies within [P], so a
    match of [r] consumes only code units of [P]. *)
Fixpoint within (P : N -> bool) (r : regex) : Prop :=
  match r with
  | REps | REnd => True
  | RClass p | RRepeat _ _ p | RStar p => ∀ c, p c = true → P c = true
  | RSeq a b | RAlt a b => within P a ∧ within P b
  | RGroup _ a | ROpt a => within P a
  end.

(** A regular expression literal: [anchored] records a leading [^]. *)
Record RegExp := {
  anchored : bool;
  groups : nat;
  body : regex
}.

Definition execAt (n : nat) (r : regex) (s : jsstring) : option captures :=
  matchRe r s (replicate (S n) None) (fun _ caps => Some caps).

(** Leftmost match of an unanchored pattern. *)
Fixpoint execFrom (n : nat) (r : regex) (s : jsstring) : option captures :=
  match execAt n r s with
  | Some c => Some c
  | None => match s with [] => None | _ :: s' => execFrom n r s' end
  end.

(** [rx.exec(s)] (patterns without the [g]/[y] flags). *)
Definition exec (rx : RegExp) (s : jsstring) : option captures :=
  if anchored rx then execAt (groups rx) (body rx) s
  else execFrom (groups rx) (body rx) s.

(** [rx.test(s)] *)
Definition test (rx : RegExp) (s : jsstring) : bool :=
  match exec rx s with Some _ => true | None => false end.

(** [m[i]], [None] being [undefined]. *)
Definition group (m : captures) (i : nat) : option jsstring :=
  match m !! i with Some (Some g) => Some g | _ => None end.

(** [m[i]] for a group that took part in the match (the empty string stands
    for a group that did not; the sources read those with an explicit
    test, see [groupNum]). *)
Definition groupStr (m : captures) (i : nat) : jsstring :=
  default [] (group m i).

(** *** Strings *)

(** [Number(s)] for a string of decimal digits, the only strings the
    sources pass to it (captures of [\d] groups and their pieces). *)
Definition Number (s : jsstring) : Z :=
  fold_left (fun acc c => (10 * acc + (Z.of_N c - 48))%Z) s 0%Z.

Fixpoint dropWhile (p : N -> bool) (s : jsstring) : jsstring :=
  match s with
  | c :: s' => if p c then dropWhile p s' else s
  | [] => []
  end.

(** [s.trim()] *)
Definition trim (s : jsstring) : jsstring :=
  reverse (dropWhile isSpace (reverse (dropWhile isSpace s))).

(** [s.split(/\r?\n/)]: a line feed, with the carriage return before it
    when there is one, separates two lines; a lone carriage return stays
    in its line. *)
Fixpoint splitLines (s : jsstring) : list jsstring :=
  let cons_char c rest :=
    match rest with
    | l :: ls => (c :: l) :: ls
    | [] => [[c]]
    end in
  match s with
  | [] => [[]]
  | c :: s' =>
      if (c =? LF)%N then [] :: splitLines s'
      else
        match s' with
        | c' :: s'' =>
            if ((c =? CR) && (c' =? LF))%N then [] :: splitLines s''
            else cons_char c (splitLines s')
        | [] => cons_char c (splitLines s')
        end
  end.

(** [s.split(sep)] for a separator of one code unit. *)
Fixpoint splitOn (sep : N) (s : jsstring) : list jsstring :=
  match s with
  | [] => [[]]
  | c :: s' =>
      if (c =? sep)%N then [] :: splitOn sep s'
      else
        match splitOn sep s' with
        | l :: ls => (c :: l) :: ls
        | [] => [[c]]
        end
  end.

(** [a.join(sep)] *)
Fixpoint join (sep : jsstring) (l : list jsstring) : jsstring :=
  match l with
  | [] => []
  | x :: rest =>
      match rest with
      | [] => x
      | _ :: _ => x ++ sep ++ join sep rest
      end
  end.

(** [a.pop()] of a freshly split (hence non-empty) array. *)
Definition pop (l : list jsstring) : jsstring := default [] (last l).

Fixpoint startsWith (s sub : jsstring) : bool :=
  match sub, s with
  | [], _ => true
  | c :: sub', d :: s' => (c =? d)%N && startsWith s' sub'
  | _ :: _, [] => false
  end.

(** [s.includes(sub)] *)
Fixpoint includes (s sub : jsstring) : bool :=
  startsWith s sub ||
  match s with
  | [] => false
  | _ :: s' => includes s' sub
  end.

(** [s.endsWith(sub)] *)
Definition endsWith (s sub : jsstring) : bool :=
  startsWith (reverse s) (reverse sub).

(** [s.toLowerCase()]. On a string of ASCII code units it folds the
    letters A to Z, [lowerASCII]. On a string that holds a code unit
    above 127 it is the lower-case mapping of the Unicode tables of the
    host (U+212A KELVIN SIGN goes to [k], U+00C9 to U+00E9, a capital
    sigma to one of the two small ones by what surrounds it, ...), and
    the tables differ from one version of Unicode to the next:
    [lowerUnicode] is what the host gives on such strings, a parameter
    of everything that lower-cases a string. *)
Definition lowerASCII (s : jsstring) : jsstring :=
  map (fun c => if ((65 <=? c) && (c <=? 90))%N then (c + 32)%N else c) s.

Definition isASCII (s : jsstring) : bool :=
  forallb (fun c => (c <? 128)%N) s.

Class Host := lowerUnicode : jsstring -> jsstring.

Definition toLowerCase {host : Host} (s : jsstring) : jsstring :=
  if isASCII s then lowerASCII s else lowerUnicode s.

(** The host of the samples. Of the Unicode tables it has the one entry
    that sends a code unit above 127 to an ASCII letter, U+212A KELVIN
    SIGN to [k]; the samples hold no other code unit above 127. *)
Definition sampleHost : Host :=
  fun s => map (fun c => if (c =? 8490)%N then 107%N else c) (lowerASCII s).

(** [a.includes(x)] on an array of strings. *)
Definition arrayIncludes (a : list jsstring) (x : jsstring) : bool :=
  bool_decide (x ∈ a).

(** *** Dates *)

(** A [Date] object: its time value (milliseconds since the epoch, UTC) or
    the invalid date, whose time value is NaN. *)
Inductive Date : Type :=
| DateValue (t : Z)
| InvalidDate.

Local Open Scope Z_scope.

Definition msPerDay : Z := 86400000.
Definition msPerHour : Z := 3600000.
Definition msPerMinute : Z := 60000.
Definition msPerSecond : Z := 1000.

Definition DayFromYear (y : Z) : Z :=
  365 * (y - 1970) + (y - 1969) / 4 - (y - 1901) / 100 + (y - 1601) / 400.

Definition InLeapYear (y : Z) : bool :=
  if negb (y mod 4 =? 0) then false
  else if negb (y mod 100 =? 0) then true
  else (y mod 400 =? 0).

(** Days of the year before month [m] (0 = January). *)
Definition DaysBeforeMonth (leap : bool) (m : Z) : Z :=
  let l := if leap then 1 else 0 in
  match m with
  | 0 => 0
  | 1 => 31
  | 2 => 59 + l
  | 3 => 90 + l
  | 4 => 120 + l
  | 5 => 151 + l
  | 6 => 181 + l
  | 7 => 212 + l
  | 8 => 243 + l
  | 9 => 273 + l
  | 10 => 304 + l
  | _ => 334 + l
  end.

(** MakeDay, MakeTime, MakeDate and TimeClip of ECMAScript, on integers. *)
Definition MakeDay (year month date : Z) : Z :=
  let ym := year + month / 12 in
  let mn := month mod 12 in
  DayFromYear ym + DaysBeforeMonth (InLeapYear ym) mn + date - 1.

Definition MakeTime (hour min sec ms : Z) : Z :=
  hour * msPerHour + min * msPerMinute + sec * msPerSecond + ms.

Definition MakeDate (day time : Z) : Z := day * msPerDay + time.

Definition TimeClip (t : Z) : Date :=
  if Z.abs t <=? 8640000000000000 then DateValue t else InvalidDate.

Section LocalTime.
(** ECMAScript's [UTC(t)]: the host's conversion of a local time value
    to a UTC time value. It depends on the time zone of the machine the
    program runs on and is a parameter of everything that builds a date
    from calendar fields. *)
Variable UTC : Z -> Z.

(** [new Date(y, m, d, h, mi, s)] on integer arguments; a year from 0 to
    99 stands for 1900 + year. *)
Definition newDate (y m d h mi s : Z) : Date :=
  let yr := if (0 <=? y) && (y <=? 99) then 1900 + y else y in
  TimeClip (UTC (MakeDate (MakeDay yr m d) (MakeTime h mi s 0))).
End LocalTime.

(** [d instanceof Date && !Number.isNaN(d.getTime())] *)
Definition isValidDate (d : Date) : bool :=
  match d with DateValue _ => true | InvalidDate => false end.

End JS.

(** ** The archive splitter, [src/utils/spilter.ts] *)
Module Spilter.
Import JS.

Local Open Scope Z_scope.

(** Pattern-building shorthands: [chr "/"] is the code unit of an ASCII
    character, [RCat] a sequence, [D lo hi] is [\d{lo,hi}]. *)
Definition chr (a : ascii) : N := N_of_ascii a.
Definition RCat (l : list regex) : regex := foldr RSeq REps l.
Definition D (lo hi : nat) : regex := RRepeat lo hi isDigit.
Definition C (a : ascii) : regex := RClass (isChar (chr a)).

Definition DEFAULT_MEDIA_EXTS : list jsstring :=
  map str
    ["jpg"; "jpeg"; "png"; "gif"; "webp";
     "mp4"; "mov"; "avi"; "mkv";
     "ogg"; "opus"; "mp3"; "wav"; "m4a";
     "pdf"; "doc"; "docx"; "xls"; "xlsx"; "ppt"; "pptx";
     "heic"; "heif";
     "aac"]%string.

(** [/_chat\.txt$/i] and [/^WhatsApp Chat with .*\.txt$/i] *)
Definition DEFAULT_CHAT_CANDIDATES : list RegExp :=
  [ {| anchored := false; groups := 0;
       body := RCat [RLitI (str "_chat.txt"); REnd] |};
    {| anchored := true; groups := 0;
       body := RCat [RLitI (str "WhatsApp Chat with "); RStar isDot;
                     RLitI (str ".txt"); REnd] |} ].

(** A [JSZipObject]: its name, its directory flag, its stored modification
    date ([None]: no date), and what its deferred reader yields, as text
    ([async("string")]) and as bytes ([async("arraybuffer")]). *)
Record Entry := {
  name : jsstring;
  dir : bool;
  date : option Date;
  text : jsstring;
  data : list N
}.

Record SplitOptions := {
  start : Date;
  end_ : Date;
  includeChat : option bool;
  includeMedia : option bool;
  mediaExtensions : option (list jsstring);
  chatFilenameCandidates : option (list RegExp)
}.

(** What [out.file(name, content)] stores in the output archive. *)
Inductive Content : Type :=
| TextContent (s : jsstring)
| BinaryContent (b : list N).

(** [d.getTime()] compared with the bounds; NaN compares false. *)
Definition inRange (d start end_ : Date) : bool :=
  match d, start, end_ with
  | DateValue t, DateValue s, DateValue e => (s <=? t) && (t <=? e)
  | _, _, _ => false
  end.

(** [/\.([A-Za-z0-9]+)$/] *)
Definition extensionRe : RegExp :=
  {| anchored := false; groups := 1;
     body := RCat [C "."; RGroup 1 (RPlus isAlnum); REnd] |}.

Definition getExtension (name : jsstring) : option jsstring :=
  match exec extensionRe name with
  | Some m => Some (groupStr m 1)
  | None => None
  end.

Definition twoDigitYearToFull (y : jsstring) : Z :=
  let num := Number y in
  if 70 <=? num then 1900 + num else 2000 + num.

(** [y.length === 2 ? twoDigitYearToFull(y) : Number(y)] *)
Definition fullYear (y : jsstring) : Z :=
  if decide (length y = 2%nat) then twoDigitYearToFull y else Number y.

(** [s ? Number(s) : 0] on an optional capture. *)
Definition secondsOf (s : option jsstring) : Z :=
  match s with
  | Some (c :: r) => Number (c :: r)
  | _ => 0
  end.

(** The tail shared by most chat-line patterns:
    [,\s+(\d{1,2}):(\d{2})(?::(\d{2}))?] with groups 4, 5, 6. *)
Definition timeTail : list regex :=
  [C ","; RPlus isSpace; RGroup 4 (D 1 2); C ":"; RGroup 5 (D 2 2);
   ROpt (RCat [C ":"; RGroup 6 (D 2 2)])].

(** [/^[\[\d]/] *)
Definition lineStartRe : RegExp :=
  {| anchored := true; groups := 0;
     body := RClass (fun c => isChar (chr "[") c || isDigit c) |}.

(** [/^\[(\d{1,2})\/(\d{1,2})\/(\d{2,4})(?:,)?\s+(\d{1,2}):(\d{2})(?::(\d{2}))?\]/] *)
Definition bracketLineRe : RegExp :=
  {| anchored := true; groups := 6;
     body := RCat [C "["; RGroup 1 (D 1 2); C "/"; RGroup 2 (D 1 2); C "/";
                   RGroup 3 (D 2 4); ROpt (C ","); RPlus isSpace;
                   RGroup 4 (D 1 2); C ":"; RGroup 5 (D 2 2);
                   ROpt (RCat [C ":"; RGroup 6 (D 2 2)]); C "]"] |}.

(** [/^(\d{1,2})\/(\d{1,2})\/(\d{2,4}),\s+(\d{1,2}):(\d{2})(?::(\d{2}))?/] *)
Definition dashLineRe : RegExp :=
  {| anchored := true; groups := 6;
     body := RCat ([RGroup 1 (D 1 2); C "/"; RGroup 2 (D 1 2); C "/";
                    RGroup 3 (D 2 4)] ++ timeTail) |}.

(** [/^(\d{1,2})\/(\d{1,2})\/(\d{2,4}),\s+(\d{1,2}):(\d{2})\s*(AM|PM)/i] *)
Definition meridiemLineRe : RegExp :=
  {| anchored := true; groups := 6;
     body := RCat [RGroup 1 (D 1 2); C "/"; RGroup 2 (D 1 2); C "/";
                   RGroup 3 (D 2 4); C ","; RPlus isSpace;
                   RGroup 4 (D 1 2); C ":"; RGroup 5 (D 2 2);
                   RStar isSpace;
                   RGroup 6 (RAlt (RLitI (str "AM")) (RLitI (str "PM")))] |}.

(** [/^(\d{1,2})\.(\d{1,2})\.(\d{4}),\s+(\d{1,2}):(\d{2})(?::(\d{2}))?/] *)
Definition dotLineRe : RegExp :=
  {| anchored := true; groups := 6;
     body := RCat ([RGroup 1 (D 1 2); C "."; RGroup 2 (D 1 2); C ".";
                    RGroup 3 (D 4 4)] ++ timeTail) |}.

(** [/^(\d{4})-(\d{2})-(\d{2}),\s+(\d{1,2}):(\d{2})(?::(\d{2}))?/] *)
Definition isoHyphenLineRe : RegExp :=
  {| anchored := true; groups := 6;
     body := RCat ([RGroup 1 (D 4 4); C "-"; RGroup 2 (D 2 2); C "-";
                    RGroup 3 (D 2 2)] ++ timeTail) |}.

(** [/^(\d{4})\/(\d{2})\/(\d{2}),\s+(\d{1,2}):(\d{2})(?::(\d{2}))?/] *)
Definition isoSlashLineRe : RegExp :=
  {| anchored := true; groups := 6;
     body := RCat ([RGroup 1 (D 4 4); C "/"; RGroup 2 (D 2 2); C "/";
                    RGroup 3 (D 2 2)] ++ timeTail) |}.

(** [/PM/i.test(ap)] *)
Definition pmRe : RegExp :=
  {| anchored := false; groups := 0; body := RLitI (str "PM") |}.

(** [/(WhatsApp (Image|Video|Audio|Document))\s+(\d{4})-(\d{2})-(\d{2})\s+at\s+(\d{2})\.(\d{2})\.(\d{2})/i] *)
Definition whatsappNameRe : RegExp :=
  {| anchored := false; groups := 8;
     body := RCat [RGroup 1 (RCat [RLitI (str "WhatsApp ");
                     RGroup 2 (RAlt (RLitI (str "Image"))
                              (RAlt (RLitI (str "Video"))
                              (RAlt (RLitI (str "Audio"))
                                    (RLitI (str "Document")))))]);
                   RPlus isSpace;
                   RGroup 3 (D 4 4); C "-"; RGroup 4 (D 2 2); C "-";
                   RGroup 5 (D 2 2); RPlus isSpace; RLitI (str "at");
                   RPlus isSpace;
                   RGroup 6 (D 2 2); C "."; RGroup 7 (D 2 2); C ".";
                   RGroup 8 (D 2 2)] |}.

(** [[ _]] *)
Definition isSpaceOrUnderscore (c : N) : bool :=
  isChar (chr " ") c || isChar (chr "_") c.

(** [/(\d{4})-(\d{2})-(\d{2})[ _]at[ _]?(\d{2})\.(\d{2})\.(\d{2})/i] *)
Definition dateAtTimeRe : RegExp :=
  {| anchored := false; groups := 6;
     body := RCat [RGroup 1 (D 4 4); C "-"; RGroup 2 (D 2 2); C "-";
                   RGroup 3 (D 2 2); RClass isSpaceOrUnderscore;
                   RLitI (str "at"); RRepeat 0 1 isSpaceOrUnderscore;
                   RGroup 4 (D 2 2); C "."; RGroup 5 (D 2 2); C ".";
                   RGroup 6 (D 2 2)] |}.

(** [/(\d{4})-(\d{2})-(\d{2})[ _](\d{2})\.(\d{2})\.(\d{2})/i] *)
Definition dateTimeRe : RegExp :=
  {| anchored := false; groups := 6;
     body := RCat [RGroup 1 (D 4 4); C "-"; RGroup 2 (D 2 2); C "-";
                   RGroup 3 (D 2 2); RClass isSpaceOrUnderscore;
                   RGroup 4 (D 2 2); C "."; RGroup 5 (D 2 2); C ".";
                   RGroup 6 (D 2 2)] |}.

(** [/^(IMG|VID|PTT|AUD|DOC)-(\d{4})(\d{2})(\d{2})-WA\d+/i] *)
Definition deviceNameRe : RegExp :=
  {| anchored := true; groups := 4;
     body := RCat [RGroup 1 (RAlt (RLitI (str "IMG"))
                            (RAlt (RLitI (str "VID"))
                            (RAlt (RLitI (str "PTT"))
                            (RAlt (RLitI (str "AUD"))
                                  (RLitI (str "DOC"))))));
                   C "-"; RGroup 2 (D 4 4); RGroup 3 (D 2 2);
                   RGroup 4 (D 2 2); RLitI (str "-WA"); RPlus isDigit] |}.

(** [/(\d{4})-(\d{2})-(\d{2})/] *)
Definition dashedDateRe : RegExp :=
  {| anchored := false; groups := 3;
     body := RCat [RGroup 1 (D 4 4); C "-"; RGroup 2 (D 2 2); C "-";
                   RGroup 3 (D 2 2)] |}.

(** [/(\d{4})(\d{2})(\d{2})/] *)
Definition compactDateRe : RegExp :=
  {| anchored := false; groups := 3;
     body := RCat [RGroup 1 (D 4 4); RGroup 2 (D 2 2); RGroup 3 (D 2 2)] |}.

(** [/\.txt$/i] *)
Definition txtRe : RegExp :=
  {| anchored := false; groups := 0;
     body := RCat [RLitI (str ".txt"); REnd] |}.

Section Parsers.
Variable UTC : Z -> Z.
Context {host : Host}.

(** [isValidDate(d) ? d : null] *)
Definition validOrNull (d : Date) : option Date :=
  if isValidDate d then Some d else None.

(** The date of a match for the year [yyyy], whose groups [gm] and [gd]
    hold month and day, groups 4 and 5 hour and minute, and optional
    group 6 the seconds. *)
Definition dateOfGroups (m : captures) (yyyy : Z) (gm gd : nat) : option Date :=
  validOrNull
    (newDate UTC yyyy (Number (groupStr m gm) - 1) (Number (groupStr m gd))
       (Number (groupStr m 4)) (Number (groupStr m 5))
       (secondsOf (group m 6))).

Definition parseTimestampFromChatLine (line : jsstring) : option Date :=
  let l := trim line in
  if negb (test lineStartRe l) then None
  else
    match exec bracketLineRe l with
    | Some m => (* [ , d, mo, y, h, mi, s ] *)
        dateOfGroups m (fullYear (groupStr m 3)) 2 1
    | None =>
    match exec dashLineRe l with
    | Some m => (* [ , d, mo, y, h, mi, s ] *)
        dateOfGroups m (fullYear (groupStr m 3)) 2 1
    | None =>
    match exec meridiemLineRe l with
    | Some m => (* [ , mo, d, y, h, mi, ap ] *)
        let yyyy := fullYear (groupStr m 3) in
        let hour := Z.rem (Number (groupStr m 4)) 12 in
        let hour := if test pmRe (groupStr m 6) then hour + 12 else hour in
        validOrNull
          (newDate UTC yyyy (Number (groupStr m 1) - 1)
             (Number (groupStr m 2)) hour (Number (groupStr m 5)) 0)
    | None =>
    match exec dotLineRe l with
    | Some m => (* [ , d, mo, yyyy, h, mi, s ] *)
        dateOfGroups m (Number (groupStr m 3)) 2 1
    | None =>
    match exec isoHyphenLineRe l with
    | Some m => (* [ , yyyy, mo, d, h, mi, s ] *)
        dateOfGroups m (Number (groupStr m 1)) 2 3
    | None =>
    match exec isoSlashLineRe l with
    | Some m => (* [ , yyyy, mo, d, h, mi, s ] *)
        dateOfGroups m (Number (groupStr m 1)) 2 3
    | None => None
    end end end end end end.

(** One iteration of the loop of [filterChatByRange]; the state is
    [keepCurrentBlock] and [out]. *)
Definition filterLine (start end_ : Date)
    (st : bool * list jsstring) (line : jsstring) : bool * list jsstring :=
  let '(keepCurrentBlock, out) := st in
  match parseTimestampFromChatLine line with
  | Some ts =>
      let keep := inRange ts start end_ in
      (keep, if keep then out ++ [line] else out)
  | None =>
      (keepCurrentBlock, if keepCurrentBlock then out ++ [line] else out)
  end.

Definition filterChatByRange (chatText : jsstring) (start end_ : Date)
    : jsstring :=
  let lines := splitLines chatText in
  let '(_, out) := fold_left (filterLine start end_) lines (false, []) in
  join [LF] out.

(** [new Date(Number(yyyy), Number(mm) - 1, Number(dd), HH, MM, SS)]
    from groups [g .. g+5] of a match. *)
Definition dateTimeOfGroups (m : captures) (g : nat) : option Date :=
  validOrNull
    (newDate UTC (Number (groupStr m g)) (Number (groupStr m (g + 1)) - 1)
       (Number (groupStr m (g + 2))) (Number (groupStr m (g + 3)))
       (Number (groupStr m (g + 4))) (Number (groupStr m (g + 5)))).

(** [new Date(Number(yyyy), Number(mm) - 1, Number(dd), 0, 0, 0)] from
    groups [g .. g+2] of a match. *)
Definition dateOnlyOfGroups (m : captures) (g : nat) : option Date :=
  validOrNull
    (newDate UTC (Number (groupStr m g)) (Number (groupStr m (g + 1)) - 1)
       (Number (groupStr m (g + 2))) 0 0 0).

Definition parseTimestampFromMediaFilename (name : jsstring) : option Date :=
  let base := pop (splitOn (chr "/") name) in
  match exec whatsappNameRe base with
  | Some m => dateTimeOfGroups m 3
  | None =>
  match (match exec dateAtTimeRe base with
         | Some m => Some m
         | None => exec dateTimeRe base
         end) with
  | Some m => dateTimeOfGroups m 1
  | None =>
  match exec deviceNameRe base with
  | Some m => dateOnlyOfGroups m 2
  | None =>
  match exec dashedDateRe base with
  | Some m => dateOnlyOfGroups m 1
  | None =>
  match exec compactDateRe base with
  | Some m => dateOnlyOfGroups m 1
  | None => None
  end end end end end.

Definition findChatFile (zip : list Entry) (patterns : list RegExp)
    : option Entry :=
  match List.find (fun e => negb (dir e)
                     && existsb (fun rx => test rx (name e)) patterns) zip with
  | Some e => Some e
  | None =>
      List.find (fun e => negb (dir e) && test txtRe (name e)
                   && negb (includes (name e) (str "/"))) zip
  end.

(** [ext ? mediaSet.has(ext.toLowerCase()) : false] *)
Definition isMediaName (mediaSet : list jsstring) (n : jsstring) : bool :=
  match getExtension n with
  | Some (c :: ext) => arrayIncludes mediaSet (toLowerCase (c :: ext))
  | _ => false
  end.

(** [parseTimestampFromMediaFilename(e.name) ?? e.date ?? null] *)
Definition mediaTimestamp (e : Entry) : option Date :=
  match parseTimestampFromMediaFilename (name e) with
  | Some d => Some d
  | None => date e
  end.

(** One iteration of the media loop; the state is the output archive. *)
Definition copyMedia (start end_ : Date) (mediaSet : list jsstring)
    (chatEntry : option Entry) (out : gmap jsstring Content) (e : Entry)
    : gmap jsstring Content :=
  if dir e then out
  else if match chatEntry with
          | Some c => bool_decide (name e = name c)
          | None => false
          end then out
  else if negb (isMediaName mediaSet (name e)) then out
  else
    match mediaTimestamp e with
    | None => out
    | Some ts =>
        if inRange ts start end_
        then <[name e := BinaryContent (data e)]> out
        else out
    end.

(** The archive is given loaded (its entries in the order of
    [zip.files]); the result is the table of the files of the output
    archive, before it is compressed. The folder entries JSZip adds for
    the directories of a path are not represented. *)
Definition splitZipByTimeRangeAndMedia (zip : list Entry)
    (options : SplitOptions) : gmap jsstring Content :=
  let includeChat := default true (includeChat options) in
  let includeMedia := default true (includeMedia options) in
  let mediaExtensions := default DEFAULT_MEDIA_EXTS (mediaExtensions options) in
  let chatFilenameCandidates :=
    default DEFAULT_CHAT_CANDIDATES (chatFilenameCandidates options) in
  let chatEntry :=
    if includeChat then findChatFile zip chatFilenameCandidates else None in
  let out : gmap jsstring Content :=
    match chatEntry with
    | Some c =>
        if includeChat
        then <[name c := TextContent
                 (filterChatByRange (text c) (start options) (end_ options))]> ∅
        else ∅
    | None => ∅
    end in
  if includeMedia then
    let mediaSet := map toLowerCase mediaExtensions in
    fold_left (copyMedia (start options) (end_ options) mediaSet chatEntry)
      zip out
  else out.
End Parsers.

(** *** The blocks of a transcript (the reading of the specification)

    A block is a timestamp line with the lines that follow it up to the
    next timestamp line; [groupBlocks] cuts a list of lines into the lines
    before the first timestamp line and the blocks. *)
Definition block : Type := jsstring * list jsstring.

Definition blockLines (b : block) : list jsstring := b.1 :: b.2.

Fixpoint groupBlocks (UTC : Z -> Z) (lines : list jsstring)
    : list jsstring * list block :=
  match lines with
  | [] => ([], [])
  | l :: rest =>
      let '(pre, bs) := groupBlocks UTC rest in
      match parseTimestampFromChatLine UTC l with
      | Some _ => ([], (l, pre) :: bs)
      | None => (l :: pre, bs)
      end
  end.

(** A block is retained when the timestamp of its first line is in range. *)
Definition blockInRange (UTC : Z -> Z) (start end_ : Date) (b : block) : bool :=
  match parseTimestampFromChatLine UTC b.1 with
  | Some ts => inRange ts start end_
  | None => false
  end.

(** *** The tests of the media loop

    [selected]: the two tests of the loop an entry passes before it is
    copied, on its extension and on its timestamp. *)
Definition selected {host : Host} (UTC : Z -> Z) (start end_ : Date)
    (mediaSet : list jsstring) (e : Entry) : bool :=
  isMediaName mediaSet (name e)
  && match mediaTimestamp UTC e with
     | Some ts => inRange ts start end_
     | None => false
     end.

(** *** Where the files of the output come from

    [copied ... zip n c]: the media loop stores [c] under the name [n]
    for an entry of [zip] that is not a directory, does not bear the
    name of the chat file, and is selected. *)
Definition copied {host : Host} (UTC : Z -> Z) (start end_ : Date)
    (mediaSet : list jsstring) (chatEntry : option Entry)
    (zip : list Entry) (n : jsstring) (c : Content) : Prop :=
  ∃ e, e ∈ zip ∧ name e = n ∧ dir e = false
       ∧ (∀ ch, chatEntry = Some ch → name e ≠ name ch)
       ∧ selected UTC start end_ mediaSet e = true
       ∧ c = BinaryContent (data e).

(** The [chatEntry] and the [mediaSet] of a call, from its options. *)
Definition chatEntryOf (zip : list Entry) (options : SplitOptions)
    : option Entry :=
  if default true (includeChat options)
  then findChatFile zip
         (default DEFAULT_CHAT_CANDIDATES (chatFilenameCandidates options))
  else None.

Definition mediaSetOf {host : Host} (options : SplitOptions) : list jsstring :=
  map toLowerCase (default DEFAULT_MEDIA_EXTS (mediaExtensions options)).

(** The options of a split from [start] to [end_] with every default. *)
Definition defaultOptions (start end_ : Date) : SplitOptions :=
  {| start := start; end_ := end_; includeChat := None; includeMedia := None;
     mediaExtensions := None; chatFilenameCandidates := None |}.

(** *** Samples *)

(** A short transcript: a line before any timestamp, then blocks of
    2024-01-01, 2024-01-05 and 2024-01-10, two of them with continuation
    lines. *)
Definition sampleTranscript : jsstring :=
  join [LF]
    [str "Messages are end-to-end encrypted.";
     str "[01/01/2024, 10:00:00] Alice: happy new year";
     str "see you soon";
     str "[05/01/2024, 12:30:00] Bob: lunch?";
     str "at the usual place";
     [];
     str "[10/01/2024, 09:15:00] Alice: back to work"].

Definition sampleKept : jsstring :=
  join [LF]
    [str "[05/01/2024, 12:30:00] Bob: lunch?";
     str "at the usual place";
     []].

(** A small archive: the transcript and two images whose stored dates
    disagree with the dates in their names. *)
Definition sampleChat : Entry :=
  {| name := str "_chat.txt"; dir := false;
     date := Some (DateValue 1704900000000);
     text := sampleTranscript; data := [] |}.

Definition sampleImageIn : Entry :=
  {| name := str "IMG-20240105-WA0001.jpg"; dir := false;
     date := Some (DateValue 1707000000000);
     text := []; data := [255; 216; 255; 224]%N |}.

Definition sampleImageOut : Entry :=
  {| name := str "IMG-20240120-WA0002.jpg"; dir := false;
     date := Some (DateValue 1704500000000);
     text := []; data := [255; 216; 255; 225]%N |}.

Definition sampleZip : list Entry :=
  [sampleChat; sampleImageIn; sampleImageOut].

(** A bitmap, a photograph and a film without a date in their names,
    stored on 2024-01-05. *)
Definition sampleBitmap : Entry :=
  {| name := str "photo.bmp"; dir := false;
     date := Some (DateValue 1704412800000);
     text := []; data := [66; 77]%N |}.

Definition samplePhoto : Entry :=
  {| name := str "photo.jpg"; dir := false;
     date := Some (DateValue 1704412800000);
     text := []; data := [255; 216]%N |}.

Definition sampleFilm : Entry :=
  {| name := str "film.mkv"; dir := false;
     date := Some (DateValue 1704412800000);
     text := []; data := [26; 69; 223; 163]%N |}.

End Spilter.

(** ** The split page, [src/SplitZipPage.tsx] *)
Module SplitZipPage.
Import JS Spilter.

Local Open Scope Z_scope.

(** What [handleSplit] comes to: a status message, or the call of
    [splitZipByTimeRangeAndMedia] on the chosen archive with the options
    it has built. *)
Inductive Outcome : Type :=
| Status (message : jsstring)
| Split (zip : list Entry) (options : SplitOptions).

(** [startDate > endDate] on two dates; NaN compares false. *)
Definition gtDate (a b : Date) : bool :=
  match a, b with
  | DateValue x, DateValue y => y <? x
  | _, _ => false
  end.

(** [mediaExts.split(',').map(s => s.trim().toLowerCase()).filter(Boolean)] *)
Definition customExts {host : Host} (mediaExts : jsstring) : list jsstring :=
  List.filter (fun s => match s with [] => false | _ :: _ => true end)
    (map (fun s => toLowerCase (trim s)) (splitOn (chr ",") mediaExts)).

(** [handleSplit] up to the call of the splitter; its arguments are the
    state of the page: the chosen archive, the two dates, the two check
    boxes and the text of the extensions field. *)
Definition handleSplit {host : Host} (zipFile : option (list Entry))
    (start end_ : option Date) (includeChat includeMedia : bool)
    (mediaExts : jsstring) : Outcome :=
  match zipFile with
  | None => Status (str "Please select a ZIP file first")
  | Some zip =>
      match start, end_ with
      | Some startDate, Some endDate =>
          if negb (isValidDate startDate) || negb (isValidDate endDate)
          then Status (str "Invalid date/time format")
          else if gtDate startDate endDate
          then Status (str "Start time cannot be later than end time")
          else
            let customExts := customExts mediaExts in
            Split zip
              {| Spilter.start := startDate; Spilter.end_ := endDate;
                 Spilter.includeChat := Some includeChat;
                 Spilter.includeMedia := Some includeMedia;
                 mediaExtensions :=
                   match customExts with
                   | [] => None
                   | _ :: _ => Some customExts
                   end;
                 chatFilenameCandidates := None |}
      | _, _ => Status (str "Please choose start and end date/time")
      end
  end.

End SplitZipPage.

(** ** The message parser and media classifier, [WhatsAppZipViewer.tsx] *)
Module Viewer.
Import JS.

Local Open Scope Z_scope.

Definition chr (a : ascii) : N := N_of_ascii a.
Definition RCat (l : list regex) : regex := foldr RSeq REps l.
Definition D (lo hi : nat) : regex := RRepeat lo hi isDigit.
Definition C (a : ascii) : regex := RClass (isChar (chr a)).

Inductive MediaType : Type := image | sticker | document | audio | video.

Record WhatsAppMessage := {
  datetime : Date;
  sender : jsstring;
  message : jsstring
}.

(** U+200E LEFT-TO-RIGHT MARK, U+200F RIGHT-TO-LEFT MARK, U+FEFF BOM *)
Definition isMark (c : N) : bool :=
  ((c =? 8206) || (c =? 8207) || (c =? 65279))%N.

(** [stripLTR]: the leading run of these marks is removed. *)
Definition stripLTR (s : jsstring) : jsstring := dropWhile isMark s.

(** U+2013 EN DASH *)
Definition enDash : N := 8211%N.

(** [/^\[(\d{1,2}\/\d{1,2}\/\d{2,4})\s+(\d{1,2}:\d{2}(?::\d{2})?)\]\s+([^:]+):\s*(MSG)$/]
    where [MSG] stands for [.*], the rest of the line. *)
Definition bracketRe : RegExp :=
  {| anchored := true; groups := 4;
     body := RCat [C "[";
                   RGroup 1 (RCat [D 1 2; C "/"; D 1 2; C "/"; D 2 4]);
                   RPlus isSpace;
                   RGroup 2 (RCat [D 1 2; C ":"; D 2 2;
                                   ROpt (RCat [C ":"; D 2 2])]);
                   C "]"; RPlus isSpace;
                   RGroup 3 (RPlus (isNot (chr ":"))); C ":"; RStar isSpace;
                   RGroup 4 (RStar isDot); REnd] |}.

(** [/^(\d{1,2}\/\d{1,2}\/\d{2,4}),\s+(\d{1,2}:\d{2})(?:\s*(AM|PM))?\s*[-\u2013]\s*([^:]+):\s*(MSG)$/i]
    where [MSG] stands for [.*]; the class holds the hyphen and the en dash. *)
Definition dashRe : RegExp :=
  {| anchored := true; groups := 5;
     body := RCat [RGroup 1 (RCat [D 1 2; C "/"; D 1 2; C "/"; D 2 4]);
                   C ","; RPlus isSpace;
                   RGroup 2 (RCat [D 1 2; C ":"; D 2 2]);
                   ROpt (RCat [RStar isSpace;
                               RGroup 3 (RAlt (RLitI (str "AM"))
                                              (RLitI (str "PM")))]);
                   RStar isSpace;
                   RClass (fun c => isChar (chr "-") c || isChar enDash c);
                   RStar isSpace;
                   RGroup 4 (RPlus (isNot (chr ":"))); C ":"; RStar isSpace;
                   RGroup 5 (RStar isDot); REnd] |}.

(** [/PM/i] *)
Definition pmRe : RegExp :=
  {| anchored := false; groups := 0; body := RLitI (str "PM") |}.

Definition toFourDigitYear (y : jsstring) : Z :=
  if decide (length y = 2%nat)
  then (if Number y <? 50 then 2000 + Number y else 1900 + Number y)
  else Number y.

(** [a[i]] of an array of strings whose element [i] exists. *)
Definition item (a : list jsstring) (i : nat) : jsstring :=
  default [] (a !! i).

Section Parser.
Variable UTC : Z -> Z.

Definition parseDT (dateStr timeStr : jsstring) (ampm : option jsstring)
    : Date :=
  let dmy := splitOn (chr "/") dateStr in
  let yyyy := toFourDigitYear (item dmy 2) in
  let parts := splitOn (chr ":") timeStr in
  let hh := Number (item parts 0) in
  let mm := Number (item parts 1) in
  let ss := match parts !! 2%nat with
            | Some (c :: r) => Number (c :: r)
            | _ => 0
            end in
  let hh := match ampm with
            | Some (c :: r) =>
                let h := Z.rem hh 12 in
                if test pmRe (c :: r) then h + 12 else h
            | _ => hh
            end in
  newDate UTC yyyy (Number (item dmy 1) - 1) (Number (item dmy 0)) hh mm ss.

(** [if (current) result.push(current)] *)
Definition flush (result : list WhatsAppMessage)
    (current : option WhatsAppMessage) : list WhatsAppMessage :=
  match current with
  | Some c => result ++ [c]
  | None => result
  end.

(** [current.message += suffix], when a record is open. *)
Definition extend (current : option WhatsAppMessage)
    (suffix : jsstring -> jsstring) : option WhatsAppMessage :=
  match current with
  | Some c =>
      Some {| datetime := datetime c; sender := sender c;
              message := message c ++ suffix (message c) |}
  | None => None
  end.

(** One iteration of the loop of [parseWhatsAppText]; the state is
    [result] and [current]. *)
Definition parseLine (st : list WhatsAppMessage * option WhatsAppMessage)
    (raw : jsstring) : list WhatsAppMessage * option WhatsAppMessage :=
  let '(result, current) := st in
  match raw with
  | [] => (result, extend current (fun _ => [LF]))
  | _ :: _ =>
      let line := stripLTR raw in
      match exec bracketRe line with
      | Some m =>
          (flush result current,
           Some {| datetime := parseDT (groupStr m 1) (groupStr m 2) None;
                   sender := trim (groupStr m 3);
                   message := stripLTR (groupStr m 4) |})
      | None =>
          match exec dashRe line with
          | Some m =>
              (flush result current,
               Some {| datetime := parseDT (groupStr m 1) (groupStr m 2)
                                     (group m 3);
                       sender := trim (groupStr m 4);
                       message := stripLTR (groupStr m 5) |})
          | None =>
              (result,
               extend current (fun msg =>
                 match msg with
                 | [] => line
                 | _ :: _ => [LF] ++ line
                 end))
          end
      end
  end.

Definition parseWhatsAppText (text : jsstring) : list WhatsAppMessage :=
  let '(result, current) :=
    fold_left parseLine (splitLines text) ([], None) in
  flush result current.

(** The record a line opens when it is a timestamp line: the bracketed
    form is tried first, then the dashed form. *)
Definition startOfRecord (line : jsstring) : option WhatsAppMessage :=
  match exec bracketRe line with
  | Some m =>
      Some {| datetime := parseDT (groupStr m 1) (groupStr m 2) None;
              sender := trim (groupStr m 3);
              message := stripLTR (groupStr m 4) |}
  | None =>
      match exec dashRe line with
      | Some m =>
          Some {| datetime := parseDT (groupStr m 1) (groupStr m 2)
                                (group m 3);
                  sender := trim (groupStr m 4);
                  message := stripLTR (groupStr m 5) |}
      | None => None
      end
  end.
End Parser.

(** The strings of a list after its leading empty strings. *)
Fixpoint dropEmpty (l : list jsstring) : list jsstring :=
  match l with
  | [] :: rest => dropEmpty rest
  | _ => l
  end.

(** [filename.split('.').pop()?.toLowerCase()], then [extension || ''] *)
Definition extensionOf {host : Host} (filename : jsstring) : jsstring :=
  toLowerCase (pop (splitOn (chr ".") filename)).

Definition getMediaType {host : Host} (filename : jsstring) : MediaType :=
  let extension := extensionOf filename in
  if arrayIncludes
       (map str ["jpg"; "jpeg"; "png"; "gif"; "webp"; "bmp"; "heic"; "heif"]%string)
       extension
  then image
  else if arrayIncludes (map str ["webp"; "tgs"]%string) extension
          && includes filename (str "sticker")
  then sticker
  else if arrayIncludes
            (map str ["mp3"; "wav"; "ogg"; "m4a"; "aac"; "opus"]%string) extension
  then audio
  else if arrayIncludes
            (map str ["mp4"; "mov"; "avi"; "webm"; "3gp"]%string) extension
  then video
  else document.

(** [/\.txt$/i] *)
Definition txtRe : RegExp :=
  {| anchored := false; groups := 0;
     body := RCat [RLitI (str ".txt"); REnd] |}.

(** The [chatCandidate] of [handleZipUpload]: the first name whose last
    path segment is [_chat.txt], or else (also when that name is the
    empty string) the first name that ends with [.txt]. *)
Definition chatCandidate (allNames : list jsstring) : option jsstring :=
  match List.find (fun n => bool_decide (pop (splitOn (chr "/") n)
                                         = str "_chat.txt")) allNames with
  | Some (c :: n) => Some (c :: n)
  | _ => List.find (fun n => test txtRe n) allNames
  end.

(** [a >= b] and [a <= b] on two dates; NaN compares false. *)
Definition geDate (a b : Date) : bool :=
  match a, b with
  | DateValue x, DateValue y => y <=? x
  | _, _ => false
  end.

Definition leDate (a b : Date) : bool :=
  match a, b with
  | DateValue x, DateValue y => x <=? y
  | _, _ => false
  end.

(** The filter/search effect: what [setFiltered] receives for the
    search text and the two optional dates. *)
Definition filterMessages {host : Host} (search : jsstring) (startDate endDate : option Date)
    (messages : list WhatsAppMessage) : list WhatsAppMessage :=
  let filteredMsgs := messages in
  let filteredMsgs :=
    match search with
    | [] => filteredMsgs
    | _ :: _ =>
        List.filter (fun m =>
          includes (toLowerCase (message m)) (toLowerCase search)
          || includes (toLowerCase (sender m)) (toLowerCase search))
          filteredMsgs
    end in
  let filteredMsgs :=
    match startDate with
    | Some startDate =>
        List.filter (fun m => geDate (datetime m) startDate) filteredMsgs
    | None => filteredMsgs
    end in
  match endDate with
  | Some endDate =>
      List.filter (fun m => leDate (datetime m) endDate) filteredMsgs
  | None => filteredMsgs
  end.

(** [displayMessages]: the messages handed to the renderer. *)
Definition displayMessages {A} (filtered : list A) (visibleCount : nat)
    : list A :=
  if (1000 <? length filtered)%nat
  then take (Nat.min visibleCount 500) filtered
  else take visibleCount filtered.

End Viewer.

(** ** The lazy media loader, [src/utils/MediaLoader.ts] *)
Module Loader.
Import JS.

Local Open Scope Z_scope.

Definition chr (a : ascii) : N := N_of_ascii a.

(** A [JSZipObject] as the loader sees it. *)
Record ZipObject := {
  zipName : jsstring;
  zipDir : bool
}.

Record MediaEntry := {
  zipEntry : ZipObject;
  fullPath : jsstring
}.

Record LoadedMedia := {
  blobUrl : jsstring;
  filename : jsstring;
  type : Viewer.MediaType
}.

(** The extensions [buildMediaIndex] indexes. *)
Definition INDEXED_EXTS : list jsstring :=
  map str
    ["jpg"; "jpeg"; "png"; "gif"; "webp"; "bmp"; "heic"; "heif"; "tgs";
     "mp4"; "mov"; "avi"; "webm"; "3gp";
     "mp3"; "wav"; "ogg"; "m4a"; "aac"; "opus";
     "pdf"; "doc"; "docx"; "xls"; "xlsx"; "ppt"; "pptx"]%string.

Definition getMediaType {host : Host} (filename : jsstring) : Viewer.MediaType :=
  let extension := Viewer.extensionOf filename in
  if arrayIncludes
       (map str ["jpg"; "jpeg"; "png"; "gif"; "webp"; "bmp"; "heic"; "heif"]%string)
       extension
  then Viewer.image
  else if arrayIncludes (map str ["webp"; "tgs"]%string) extension
          && includes filename (str "sticker")
  then Viewer.sticker
  else if arrayIncludes
            (map str ["mp3"; "wav"; "ogg"; "m4a"; "aac"]%string) extension
  then Viewer.audio
  else if arrayIncludes
            (map str ["mp4"; "mov"; "avi"; "webm"; "3gp"]%string) extension
  then Viewer.video
  else Viewer.document.

(** The state of a promise made by [loadMedia]. *)
Inductive PromiseState : Type :=
| Pending
| Fulfilled (v : option LoadedMedia)    (* [None] is [null] *)
| Rejected.

(** A [task] closure: the filename and the [resolve] function (the number
    of the promise it settles) it captured. *)
Record Task := {
  taskFile : jsstring;
  taskPromise : nat
}.

(** How the [await this.doLoadMedia(filename)] of a started task stands:
    the entry is still being read, or [doLoadMedia] has settled with a
    value, with [null], or by throwing. *)
Inductive Stage : Type :=
| Extracting (e : MediaEntry)
| Loaded (m : LoadedMedia)
| NotFound
| Threw.

(** A [Map] with string keys, in insertion order. *)
Abbreviation jsMap V := (list (jsstring * V)).

Fixpoint mapGet {V} (m : jsMap V) (k : jsstring) : option V :=
  match m with
  | [] => None
  | (k', v) :: m' => if decide (k' = k) then Some v else mapGet m' k
  end.

(** [if (!m.has(k)) m.set(k, []); m.get(k).push(x)] *)
Fixpoint mapPush {V} (m : jsMap (list V)) (k : jsstring) (x : V)
    : jsMap (list V) :=
  match m with
  | [] => [(k, [x])]
  | (k', v) :: m' =>
      if decide (k' = k) then (k', v ++ [x]) :: m'
      else (k', v) :: mapPush m' k x
  end.

Record MediaLoader := {
  mediaIndex : jsMap (list MediaEntry);
  loadedBlobs : gmap jsstring LoadedMedia;
  loadingPromises : gmap jsstring nat;
  concurrencyLimit : Z;
  activeTasks : Z;
  taskQueue : list Task;
  (** the run-time around the object: every promise [loadMedia] has made,
      and the started tasks that have not run their [finally] yet *)
  promises : list PromiseState;
  running : gmap nat (jsstring * Stage)
}.

Definition newMediaLoader (limit : Z) : MediaLoader :=
  {| mediaIndex := []; loadedBlobs := ∅; loadingPromises := ∅;
     concurrencyLimit := limit; activeTasks := 0; taskQueue := [];
     promises := []; running := ∅ |}.

(** [export const mediaLoader = new MediaLoader()] *)
Definition mediaLoader : MediaLoader := newMediaLoader 5.

Definition set_mediaIndex (x : jsMap (list MediaEntry)) (s : MediaLoader) :=
  {| mediaIndex := x; loadedBlobs := loadedBlobs s;
     loadingPromises := loadingPromises s;
     concurrencyLimit := concurrencyLimit s; activeTasks := activeTasks s;
     taskQueue := taskQueue s; promises := promises s; running := running s |}.
Definition set_loadedBlobs (x : gmap jsstring LoadedMedia) (s : MediaLoader) :=
  {| mediaIndex := mediaIndex s; loadedBlobs := x;
     loadingPromises := loadingPromises s;
     concurrencyLimit := concurrencyLimit s; activeTasks := activeTasks s;
     taskQueue := taskQueue s; promises := promises s; running := running s |}.
Definition set_loadingPromises (x : gmap jsstring nat) (s : MediaLoader) :=
  {| mediaIndex := mediaIndex s; loadedBlobs := loadedBlobs s;
     loadingPromises := x;
     concurrencyLimit := concurrencyLimit s; activeTasks := activeTasks s;
     taskQueue := taskQueue s; promises := promises s; running := running s |}.
Definition set_activeTasks (x : Z) (s : MediaLoader) :=
  {| mediaIndex := mediaIndex s; loadedBlobs := loadedBlobs s;
     loadingPromises := loadingPromises s;
     concurrencyLimit := concurrencyLimit s; activeTasks := x;
     taskQueue := taskQueue s; promises := promises s; running := running s |}.
Definition set_taskQueue (x : list Task) (s : MediaLoader) :=
  {| mediaIndex := mediaIndex s; loadedBlobs := loadedBlobs s;
     loadingPromises := loadingPromises s;
     concurrencyLimit := concurrencyLimit s; activeTasks := activeTasks s;
     taskQueue := x; promises := promises s; running := running s |}.
Definition set_promises (x : list PromiseState) (s : MediaLoader) :=
  {| mediaIndex := mediaIndex s; loadedBlobs := loadedBlobs s;
     loadingPromises := loadingPromises s;
     concurrencyLimit := concurrencyLimit s; activeTasks := activeTasks s;
     taskQueue := taskQueue s; promises := x; running := running s |}.
Definition set_running (x : gmap nat (jsstring * Stage)) (s : MediaLoader) :=
  {| mediaIndex := mediaIndex s; loadedBlobs := loadedBlobs s;
     loadingPromises := loadingPromises s;
     concurrencyLimit := concurrencyLimit s; activeTasks := activeTasks s;
     taskQueue := taskQueue s; promises := promises s; running := x |}.

(** One iteration of the loop of [buildMediaIndex]. *)
Definition indexEntry {host : Host} (idx : jsMap (list MediaEntry))
    (fe : jsstring * ZipObject) : jsMap (list MediaEntry) :=
  let '(filename, zipEntry) := fe in
  if negb (zipDir zipEntry) && negb (endsWith filename (str ".txt"))
     && negb (endsWith filename (str ".py")) then
    let extension := Viewer.extensionOf filename in
    let isMediaFile := arrayIncludes INDEXED_EXTS extension in
    if isMediaFile then
      let justFilename :=
        match pop (splitOn (chr "/") filename) with
        | [] => filename
        | c :: r => c :: r
        end in
      let me := {| zipEntry := zipEntry; fullPath := filename |} in
      let idx := mapPush idx justFilename me in
      let nameWithoutExt := Viewer.item (splitOn (chr ".") justFilename) 0 in
      if decide (nameWithoutExt = justFilename) then idx
      else mapPush idx nameWithoutExt me
    else idx
  else idx.

Definition buildMediaIndex {host : Host} (fileEntries : list (jsstring * ZipObject))
    (s : MediaLoader) : MediaLoader :=
  set_mediaIndex (fold_left indexEntry fileEntries []) s.

(** The first key of the index that contains the base of the requested
    name or whose base the requested name contains. *)
Definition fuzzyFind (idx : jsMap (list MediaEntry)) (filename : jsstring)
    : option (list MediaEntry) :=
  snd <$> List.find (fun kv =>
            includes kv.1 (Viewer.item (splitOn (chr ".") filename) 0)
            || includes filename (Viewer.item (splitOn (chr ".") kv.1) 0)) idx.

(** [entries[0]] handed to [extractBlobFromEntry]: without a first entry
    the read of [mediaEntry.zipEntry] throws. *)
Definition extractFirst (entries : list MediaEntry) : Stage :=
  match entries with
  | e :: _ => Extracting e
  | [] => Threw
  end.

(** [doLoadMedia(filename)] up to its first suspension. *)
Definition doLoadMedia (idx : jsMap (list MediaEntry)) (filename : jsstring)
    : Stage :=
  match mapGet idx filename with
  | Some (e :: es) => extractFirst (e :: es)
  | _ =>
      match fuzzyFind idx filename with
      | Some entries => extractFirst entries
      | None => NotFound
      end
  end.

(** A [task()] call up to its [await]: [this.activeTasks++] and the call
    of [doLoadMedia]. *)
Definition startTask (t : Task) (s : MediaLoader) : MediaLoader :=
  let s := set_activeTasks (activeTasks s + 1) s in
  set_running
    (<[taskPromise t := (taskFile t, doLoadMedia (mediaIndex s) (taskFile t))]>
       (running s)) s.

Definition processNextTask (s : MediaLoader) : MediaLoader :=
  match taskQueue s with
  | nextTask :: rest =>
      if activeTasks s <? concurrencyLimit s
      then startTask nextTask (set_taskQueue rest s)
      else s
  | [] => s
  end.

(** What a call of [loadMedia] gives its caller: the cached value, or the
    promise with the given number. *)
Inductive Returned : Type :=
| Value (m : LoadedMedia)
| Promise (p : nat).

Definition loadMedia (filename : jsstring) (s : MediaLoader)
    : Returned * MediaLoader :=
  match loadedBlobs s !! filename with
  | Some m => (Value m, s)
  | None =>
      match loadingPromises s !! filename with
      | Some p => (Promise p, s)
      | None =>
          let p := length (promises s) in
          let s := set_promises (promises s ++ [Pending]) s in
          let task := {| taskFile := filename; taskPromise := p |} in
          let s :=
            if activeTasks s <? concurrencyLimit s
            then startTask task s
            else set_taskQueue (taskQueue s ++ [task]) s in
          (Promise p,
           set_loadingPromises (<[filename := p]> (loadingPromises s)) s)
      end
  end.

(** [resolve(v)]: settles the promise if it is still pending. *)
Definition resolve (p : nat) (v : option LoadedMedia) (s : MediaLoader)
    : MediaLoader :=
  match promises s !! p with
  | Some Pending => set_promises (<[p := Fulfilled v]> (promises s)) s
  | _ => s
  end.

(** The read of the entry of task [p] completes: with [Some url] the rest
    of [extractBlobFromEntry] runs and caches the resource, with [None]
    the read (or the making of the blob) throws. *)
Definition settle {host : Host} (p : nat) (outcome : option jsstring) (s : MediaLoader)
    : MediaLoader :=
  match running s !! p with
  | Some (file, Extracting _) =>
      match outcome with
      | Some url =>
          let m := {| blobUrl := url; filename := file;
                      type := getMediaType file |} in
          set_running (<[p := (file, Loaded m)]> (running s))
            (set_loadedBlobs (<[file := m]> (loadedBlobs s)) s)
      | None => set_running (<[p := (file, Threw)]> (running s)) s
      end
  | _ => s
  end.

(** The rest of [task()] after its [await]: [resolve], then the [finally]
    block. *)
Definition resume (p : nat) (s : MediaLoader) : MediaLoader :=
  match running s !! p with
  | None => s
  | Some (file, Extracting _) => s
  | Some (file, stage) =>
      let v := match stage with Loaded m => Some m | _ => None end in
      let s := resolve p v s in
      let s := set_activeTasks (activeTasks s - 1) s in
      let s := set_loadingPromises (delete file (loadingPromises s)) s in
      let s := set_running (delete p (running s)) s in
      processNextTask s
  end.

Definition revokeMedia (filename : jsstring) (s : MediaLoader) : MediaLoader :=
  match loadedBlobs s !! filename with
  | Some _ => set_loadedBlobs (delete filename (loadedBlobs s)) s
  | None => s
  end.

Definition cleanup (s : MediaLoader) : MediaLoader :=
  set_loadingPromises ∅ (set_loadedBlobs ∅ s).

(** What can happen to the loader, one turn of the event loop at a time:
    the calls of its public methods, and the continuations of its tasks. *)
Inductive Event : Type :=
| BuildMediaIndex (fileEntries : list (jsstring * ZipObject))
| LoadMedia (filename : jsstring)
| Settle (p : nat) (outcome : option jsstring)
| Resume (p : nat)
| RevokeMedia (filename : jsstring)
| Cleanup.

Definition step {host : Host} (s : MediaLoader) (e : Event) : MediaLoader :=
  match e with
  | BuildMediaIndex fe => buildMediaIndex fe s
  | LoadMedia f => (loadMedia f s).2
  | Settle p o => settle p o s
  | Resume p => resume p s
  | RevokeMedia f => revokeMedia f s
  | Cleanup => cleanup s
  end.

Definition run {host : Host} (s : MediaLoader) (tr : list Event) : MediaLoader :=
  fold_left step tr s.

(** The tasks in flight: started and not finished, or waiting in the
    queue. *)
Definition runningFiles (s : MediaLoader) : list jsstring :=
  (fun kv => kv.2.1) <$> map_to_list (running s).

Definition inFlight (s : MediaLoader) : list jsstring :=
  runningFiles s ++ (taskFile <$> taskQueue s).

Definition isCleanup (e : Event) : bool :=
  match e with Cleanup => true | _ => false end.

(** [calm s tr]: in the trace [tr] from the state [s], [cleanup] is
    called only while no task is in flight. *)
Fixpoint calm {host : Host} (s : MediaLoader) (tr : list Event) : bool :=
  match tr with
  | [] => true
  | e :: tr' =>
      (negb (isCleanup e) || bool_decide (inFlight s = []))
      && calm (step s e) tr'
  end.

(** [hasMedia(filename)] *)
Definition hasMedia (filename : jsstring) (s : MediaLoader) : bool :=
  match mapGet (mediaIndex s) filename with Some _ => true | None => false end.

(** [getAvailableMedia()]: the keys of the index, in insertion order. *)
Definition getAvailableMedia (s : MediaLoader) : list jsstring :=
  fst <$> mediaIndex s.

(** *** What the index holds

    The keys an archive entry is registered under: none when it is a
    directory, a [.txt] or [.py] file or has no indexed extension; else
    its last path segment ([justFilename]) and, when different, what
    precedes the first dot of that segment ([nameWithoutExt]). *)
Definition indexable {host : Host} (fe : jsstring * ZipObject) : bool :=
  negb (zipDir fe.2) && negb (endsWith fe.1 (str ".txt"))
  && negb (endsWith fe.1 (str ".py"))
  && arrayIncludes INDEXED_EXTS (Viewer.extensionOf fe.1).

Definition justFilename (filename : jsstring) : jsstring :=
  match pop (splitOn (chr "/") filename) with
  | [] => filename
  | c :: r => c :: r
  end.

Definition nameWithoutExt (filename : jsstring) : jsstring :=
  Viewer.item (splitOn (chr ".") (justFilename filename)) 0.

Definition keysOf {host : Host} (fe : jsstring * ZipObject) : list jsstring :=
  if indexable fe then
    if decide (nameWithoutExt fe.1 = justFilename fe.1)
    then [justFilename fe.1]
    else [justFilename fe.1; nameWithoutExt fe.1]
  else [].

(** The entries registered under the key [k], in the order of the
    archive. *)
Definition entriesFor {host : Host} (k : jsstring) (fileEntries : list (jsstring * ZipObject))
    : list MediaEntry :=
  omap (fun fe => if bool_decide (k ∈ keysOf fe)
                  then Some {| zipEntry := fe.2; fullPath := fe.1 |}
                  else None) fileEntries.

(** The test of the fuzzy search of [doLoadMedia] on a key. *)
Definition resembles (filename key : jsstring) : bool :=
  includes key (Viewer.item (splitOn (chr ".") filename) 0)
  || includes filename (Viewer.item (splitOn (chr ".") key) 0).

(** *** Samples *)

Definition sampleFiles : list jsstring :=
  map str ["a.jpg"; "b.jpg"; "c.jpg"; "d.jpg"; "e.jpg"; "f.jpg"; "g.jpg"]%string.

(** The archive entries of the sample files, as [buildMediaIndex] gets
    them. *)
Definition sampleEntries : list (jsstring * ZipObject) :=
  map (fun f => (f, {| zipName := f; zipDir := false |})) sampleFiles.

(** The index is built, then every sample file is requested once. *)
Definition sampleRequests : list Event :=
  BuildMediaIndex sampleEntries :: map LoadMedia sampleFiles.

(** *** Invariants

    [consistent limit s] holds of every state the loader reaches from
    [newMediaLoader limit]: the counter counts the started tasks, stays
    under the ceiling, and the tasks in flight are distinct and own
    pending promises. *)
Record consistent (limit : Z) (s : MediaLoader) : Prop := {
  cs_limit : concurrencyLimit s = limit;
  cs_active : activeTasks s = Z.of_nat (size (running s));
  cs_bound : activeTasks s <= Z.max 0 limit;
  cs_queue_nodup : NoDup (taskPromise <$> taskQueue s);
  cs_queue_fresh : ∀ t, t ∈ taskQueue s → running s !! taskPromise t = None;
  cs_pending : ∀ p, is_Some (running s !! p) ∨ p ∈ taskPromise <$> taskQueue s →
                    promises s !! p = Some Pending;
  cs_no_reject : Rejected ∉ promises s
}.

(** [coherent s] holds as long as [cleanup] is not called while a task
    is in flight: the in-flight map lists exactly the tasks in flight,
    and no task that is queued or extracting has its resource in the
    cache. *)
Record coherent (s : MediaLoader) : Prop := {
  co_map : ∀ f p,
    loadingPromises s !! f = Some p
    ↔ (∃ st, running s !! p = Some (f, st))
      ∨ {| taskFile := f; taskPromise := p |} ∈ taskQueue s;
  co_cache : ∀ f,
    f ∈ taskFile <$> taskQueue s
    ∨ (∃ p e, running s !! p = Some (f, Extracting e)) →
    loadedBlobs s !! f = None
}.

(** [sound s] holds of every state the loader reaches, [cleanup]
    included: no slot is idle while a task waits, the index has no empty
    list, and what the cache, the settled tasks and the fulfilled
    promises hold was made for the name it is filed under. *)
Definition madeFor {host : Host} (f : jsstring) (m : LoadedMedia) : Prop :=
  filename m = f ∧ type m = getMediaType f.

Record sound {host : Host} (s : MediaLoader) : Prop := {
  so_busy : taskQueue s = [] ∨ concurrencyLimit s <= activeTasks s;
  so_index : Forall (fun kv : jsstring * list MediaEntry => kv.2 ≠ [])
               (mediaIndex s);
  so_cache : map_Forall madeFor (loadedBlobs s);
  so_running : map_Forall (fun (_ : nat) (fs : jsstring * Stage) =>
                  match fs.2 with
                  | Loaded m => madeFor fs.1 m
                  | _ => True
                  end) (running s);
  so_promises : Forall (fun ps => match ps with
                                  | Fulfilled (Some m) => madeFor (filename m) m
                                  | _ => True
                                  end) (promises s)
}.

End Loader.

(** ** The words of the specification

    What the specification states in its own terms, to be compared with
    the program: the set it gives as the default recognised extensions,
    by kind, and the condition under which a media file is retained. *)
Module SpecText.
Import JS.

Local Open Scope Z_scope.

Definition IMAGE_EXTS : list jsstring :=
  map str ["jpg"; "jpeg"; "png"; "gif"; "webp"; "bmp"; "heic"; "heif"; "tgs"]%string.
Definition VIDEO_EXTS : list jsstring :=
  map str ["mp4"; "mov"; "avi"; "webm"; "3gp"; "mkv"]%string.
Definition AUDIO_EXTS : list jsstring :=
  map str ["mp3"; "wav"; "ogg"; "m4a"; "aac"; "opus"]%string.
Definition DOCUMENT_EXTS : list jsstring :=
  map str ["pdf"; "doc"; "docx"; "xls"; "xlsx"; "ppt"; "pptx"]%string.

Definition MEDIA_EXTS : list jsstring :=
  IMAGE_EXTS ++ VIDEO_EXTS ++ AUDIO_EXTS ++ DOCUMENT_EXTS.

(** Two lists hold the same extensions. *)
Definition sameSet (a b : list jsstring) : Prop := ∀ x, x ∈ a ↔ x ∈ b.

(** *** The media condition, in the words of the specification

    The specification names the kinds of dates a name can hold and the
    order in which they are tried; the formats are those of the names
    WhatsApp and the devices give. The date of a name is read here from
    the left, character by character, without the pattern matcher of the
    program: [digits k] takes [k] digits, [char] one character of a
    class, [word] a word whatever the case of its ASCII letters, [oneOf]
    the first of some words, [spaces] a non-empty run of white space, and
    [anywhere] looks for the first place in a name where a reading
    succeeds. *)
Definition digits (k : nat) (s : jsstring) : option (jsstring * jsstring) :=
  if (k <=? length s)%nat && forallb isDigit (take k s)
  then Some (take k s, drop k s) else None.

Definition char (p : N -> bool) (s : jsstring) : option jsstring :=
  match s with
  | c :: r => if p c then Some r else None
  | [] => None
  end.

Definition word (w s : jsstring) : option jsstring :=
  if startsWith (lowerASCII s) (lowerASCII w)
  then Some (drop (length w) s) else None.

Fixpoint oneOf (ws : list jsstring) (s : jsstring) : option jsstring :=
  match ws with
  | [] => None
  | w :: ws' =>
      match word w s with
      | Some r => Some r
      | None => oneOf ws' s
      end
  end.

Definition spaces (s : jsstring) : option jsstring :=
  match s with
  | c :: r => if isSpace c then Some (dropWhile isSpace r) else None
  | [] => None
  end.

Definition optional (p : N -> bool) (s : jsstring) : jsstring :=
  match s with
  | c :: r => if p c then r else s
  | [] => []
  end.

Fixpoint anywhere {A} (f : jsstring -> option A) (s : jsstring) : option A :=
  match f s with
  | Some x => Some x
  | None =>
      match s with
      | [] => None
      | _ :: s' => anywhere f s'
      end
  end.

(** The calendar fields read from a name; a reading without a time of
    day gives midnight. *)
Record Fields := {
  year : Z; month : Z; day : Z;
  hours : Z; minutes : Z; seconds : Z
}.

Definition dash : N -> bool := isChar (Spilter.chr "-").
Definition dot : N -> bool := isChar (Spilter.chr ".").
Definition blank : N -> bool :=
  fun c => isChar (Spilter.chr " ") c || isChar (Spilter.chr "_") c.

(** [2024-01-05] *)
Definition dashedDate (s : jsstring) : option (Z * Z * Z * jsstring) :=
  '(y, s) ← digits 4 s; s ← char dash s;
  '(m, s) ← digits 2 s; s ← char dash s;
  '(d, s) ← digits 2 s;
  Some (Number y, Number m, Number d, s).

(** [20240105] *)
Definition compactDate (s : jsstring) : option (Z * Z * Z * jsstring) :=
  '(y, s) ← digits 4 s; '(m, s) ← digits 2 s; '(d, s) ← digits 2 s;
  Some (Number y, Number m, Number d, s).

(** [10.11.12] *)
Definition dottedTime (s : jsstring) : option (Z * Z * Z) :=
  '(h, s) ← digits 2 s; s ← char dot s;
  '(mi, s) ← digits 2 s; s ← char dot s;
  '(sec, _) ← digits 2 s;
  Some (Number h, Number mi, Number sec).

(** The device name with date and time:
    [WhatsApp Image 2024-01-05 at 10.11.12]. *)
Definition deviceDateTime (s : jsstring) : option Fields :=
  s ← word (str "WhatsApp ") s;
  s ← oneOf (map str ["Image"; "Video"; "Audio"; "Document"]%string) s;
  s ← spaces s;
  '(y, m, d, s) ← dashedDate s;
  s ← spaces s; s ← word (str "at") s; s ← spaces s;
  '(h, mi, sec) ← dottedTime s;
  Some {| year := y; month := m; day := d;
          hours := h; minutes := mi; seconds := sec |}.

(** A date and a time: [2024-01-05 at 10.11.12], with blanks or
    underscores, the one after [at] optional. *)
Definition dateAtTime (s : jsstring) : option Fields :=
  '(y, m, d, s) ← dashedDate s;
  s ← char blank s; s ← word (str "at") s;
  '(h, mi, sec) ← dottedTime (optional blank s);
  Some {| year := y; month := m; day := d;
          hours := h; minutes := mi; seconds := sec |}.

(** A date and a time: [2024-01-05_10.11.12]. *)
Definition dateTime (s : jsstring) : option Fields :=
  '(y, m, d, s) ← dashedDate s;
  s ← char blank s;
  '(h, mi, sec) ← dottedTime s;
  Some {| year := y; month := m; day := d;
          hours := h; minutes := mi; seconds := sec |}.

(** The device prefix with a date, at the start of the name:
    [IMG-20240105-WA0001]. *)
Definition devicePrefix (s : jsstring) : option Fields :=
  s ← oneOf (map str ["IMG"; "VID"; "PTT"; "AUD"; "DOC"]%string) s;
  s ← char dash s;
  '(y, m, d, s) ← compactDate s;
  s ← word (str "-WA") s; _ ← char isDigit s;
  Some {| year := y; month := m; day := d;
          hours := 0; minutes := 0; seconds := 0 |}.

Definition dateOnly (date : jsstring -> option (Z * Z * Z * jsstring))
    (s : jsstring) : option Fields :=
  '(y, m, d, _) ← date s;
  Some {| year := y; month := m; day := d;
          hours := 0; minutes := 0; seconds := 0 |}.

(** What follows the last slash of a name. *)
Fixpoint lastSegment (n : jsstring) : jsstring :=
  match n with
  | [] => []
  | c :: r =>
      if bool_decide (Spilter.chr "/" ∈ r) then lastSegment r
      else if (c =? Spilter.chr "/")%N then r else n
  end.

(** The readings in the order of the specification: the first reading
    that succeeds somewhere in the last segment of the name gives the
    fields (the later readings are not tried), the device prefix being
    looked for at the start only. *)
Definition fieldsOfName (n : jsstring) : option Fields :=
  let base := lastSegment n in
  match anywhere deviceDateTime base with
  | Some f => Some f
  | None =>
  match anywhere dateAtTime base with
  | Some f => Some f
  | None =>
  match anywhere dateTime base with
  | Some f => Some f
  | None =>
  match devicePrefix base with
  | Some f => Some f
  | None =>
  match anywhere (dateOnly dashedDate) base with
  | Some f => Some f
  | None => anywhere (dateOnly compactDate) base
  end end end end end.

(** The instant of the fields in the local time of the host, when it is
    a valid date. *)
Definition instant (UTC : Z -> Z) (f : Fields) : option Date :=
  Spilter.validOrNull
    (newDate UTC (year f) (month f - 1) (day f)
       (hours f) (minutes f) (seconds f)).

(** The timestamp of an entry: the date of its name when its name has
    one, else its stored date. A name whose fields give no valid date
    has no date. *)
Definition dateOfName (UTC : Z -> Z) (n : jsstring) : option Date :=
  fieldsOfName n ≫= instant UTC.

Definition timestampOf (UTC : Z -> Z) (e : Spilter.Entry) : option Date :=
  match dateOfName UTC (Spilter.name e) with
  | Some d => Some d
  | None => Spilter.date e
  end.

(** (a) the extension of the name, what follows its last dot when that
    is a non-empty run of ASCII letters and digits, is in the set, the
    case of letters apart. *)
Definition extensionIn {host : Host} (exts : list jsstring) (n : jsstring)
    : Prop :=
  ∃ pre ext, n = pre ++ Spilter.chr "." :: ext ∧ ext ≠ []
             ∧ forallb isAlnum ext = true
             ∧ toLowerCase ext ∈ map toLowerCase exts.

(** (b) the entry has a timestamp, and it lies between the two bounds,
    bounds included. *)
Definition datedWithin (UTC : Z -> Z) (start end_ : Date) (e : Spilter.Entry)
    : Prop :=
  ∃ t s e', timestampOf UTC e = Some (DateValue t)
            ∧ start = DateValue s ∧ end_ = DateValue e'
            ∧ (s <= t <= e')%Z.

End SpecText.

(* ===================================================================== *)
(** * Part II: properties                                                 *)
(* ===================================================================== *)

Import JS.

Local Open Scope Z_scope.

(** Decidable closed goals are settled by evaluation. *)
Ltac by_compute := apply (bool_decide_unpack _); vm_compute; exact I.

(** ** Two-digit years *)

Lemma Number_two_digits (a b : N) :
  Number [a; b] = 10 * (Z.of_N a - 48) + (Z.of_N b - 48).
Proof. unfold Number. simpl. lia. Qed.

Lemma isDigit_range (c : N) :
  isDigit c = true → 48 <= Z.of_N c <= 57.
Proof.
  unfold isDigit. intros H. apply andb_prop in H as [H1 H2].
  apply N.leb_le in H1, H2. lia.
Qed.

(** C4. A two-digit year string [y] has a value [n = Number(y)] between 0
    and 99; the message parser maps it to [2000 + n] when [n < 50] and to
    [1900 + n] otherwise (so "99" gives 1999 and "05" gives 2005), and the
    splitter maps it to [1900 + n] when [n >= 70] and to [2000 + n]
    otherwise. *)
Theorem two_digit_year_pivots (y : jsstring) (a b : N) :
  y = [a; b] → isDigit a = true → isDigit b = true →
  let n := Number y in
  0 <= n <= 99
  ∧ Viewer.toFourDigitYear y = (if n <? 50 then 2000 + n else 1900 + n)
  ∧ Spilter.twoDigitYearToFull y = (if 70 <=? n then 1900 + n else 2000 + n)
  ∧ Spilter.fullYear y = Spilter.twoDigitYearToFull y
  ∧ Viewer.toFourDigitYear (str "99") = 1999
  ∧ Viewer.toFourDigitYear (str "05") = 2005.
Proof.
  intros -> Ha Hb n.
  apply isDigit_range in Ha, Hb.
  assert (Hn : n = 10 * (Z.of_N a - 48) + (Z.of_N b - 48))
    by apply Number_two_digits.
  split; [lia|].
  repeat split; reflexivity.
Qed.

Lemma two_digit_year_pivots_witness :
  Viewer.toFourDigitYear (str "49") = 2049
  ∧ Viewer.toFourDigitYear (str "50") = 1950
  ∧ Spilter.twoDigitYearToFull (str "69") = 2069
  ∧ Spilter.twoDigitYearToFull (str "70") = 1970.
Proof.
  pose proof (two_digit_year_pivots (str "49") 52%N 57%N
                eq_refl eq_refl eq_refl) as (_ & H49 & _).
  pose proof (two_digit_year_pivots (str "50") 53%N 48%N
                eq_refl eq_refl eq_refl) as (_ & H50 & _).
  pose proof (two_digit_year_pivots (str "69") 54%N 57%N
                eq_refl eq_refl eq_refl) as (_ & _ & H69 & _).
  pose proof (two_digit_year_pivots (str "70") 55%N 48%N
                eq_refl eq_refl eq_refl) as (_ & _ & H70 & _).
  exact (conj H49 (conj H50 (conj H69 H70))).
Defined.

(** ** Lower case

    On the strings the program compares after lower-casing them (the
    extensions of names, runs of ASCII letters and digits) the host plays
    no part. *)

Lemma isCharI_lower (p c : N) :
  (p < 128)%N →
  isCharI p c = true
  ↔ lowerASCII [c] = lowerASCII [p].
Proof.
  intros Hp. unfold isCharI, canonicalize, lowerASCII. cbn [map].
  rewrite andb_true_iff, N.ltb_lt, N.eqb_eq.
  destruct (N.leb_spec 97 c), (N.leb_spec c 122), (N.leb_spec 97 p),
    (N.leb_spec p 122), (N.leb_spec 65 c), (N.leb_spec c 90),
    (N.leb_spec 65 p), (N.leb_spec p 90); cbn [andb];
    (split; [intros [? ?]; f_equal; lia | intros [= ?]; lia]).
Qed.

Lemma isAlnum_lower (s : jsstring) :
  forallb isAlnum (lowerASCII s) = forallb isAlnum s.
Proof.
  induction s as [|c s IH]; [reflexivity|].
  cbn [lowerASCII map forallb]. fold (lowerASCII s). rewrite IH. f_equal.
  destruct ((65 <=? c) && (c <=? 90))%N eqn:E; [|reflexivity].
  apply andb_prop in E as [E1 E2]. apply N.leb_le in E1, E2.
  unfold isAlnum. transitivity true; [|symmetry].
  - rewrite (proj2 (N.leb_le 97 (c + 32))), (proj2 (N.leb_le (c + 32) 122))
      by lia.
    cbn [andb]. rewrite orb_true_r. reflexivity.
  - rewrite (proj2 (N.leb_le 65 c)), (proj2 (N.leb_le c 90)) by lia.
    reflexivity.
Qed.

Lemma isAlnum_isASCII (s : jsstring) :
  forallb isAlnum s = true → isASCII s = true.
Proof.
  unfold isASCII. rewrite !forallb_forall. intros H c Hc.
  specialize (H c Hc). apply N.ltb_lt. unfold isAlnum, isDigit in H.
  repeat (apply orb_prop in H as [H|H]);
    apply andb_prop in H as [_ H]; apply N.leb_le in H; lia.
Qed.

Lemma toLowerCase_ASCII {host : Host} (s : jsstring) :
  isASCII s = true → toLowerCase s = lowerASCII s.
Proof. unfold toLowerCase. intros ->. reflexivity. Qed.

Lemma toLowerCase_alnum {host : Host} (s : jsstring) :
  forallb isAlnum s = true → toLowerCase s = lowerASCII s.
Proof. intros H. apply toLowerCase_ASCII, isAlnum_isASCII, H. Qed.

Lemma toLowerCase_str {host : Host} (a : string) :
  isASCII (str a) = true → toLowerCase (str a) = lowerASCII (str a).
Proof. apply toLowerCase_ASCII. Qed.

(** ** The recognised extensions *)

Lemma sameSet_by_inclusions (a b : list jsstring) :
  Forall (λ x, x ∈ b) a → Forall (λ x, x ∈ a) b → SpecText.sameSet a b.
Proof.
  intros Hab Hba x. rewrite Forall_forall in Hab, Hba. split; auto.
Qed.

Lemma not_sameSet_by_member (a b : list jsstring) (x : jsstring) :
  x ∈ b → x ∉ a → ¬ SpecText.sameSet a b.
Proof. intros Hb Ha H. apply Ha, H, Hb. Qed.

(** The lists of the code against the list of the specification: the
    index builder has every extension but [mkv]; the default list of the
    splitter every extension but [bmp], [tgs], [webm] and [3gp]. *)
Lemma extension_lists_of_code :
  SpecText.sameSet Loader.INDEXED_EXTS
    (filter (λ x, x ≠ str "mkv") SpecText.MEDIA_EXTS)
  ∧ SpecText.sameSet Spilter.DEFAULT_MEDIA_EXTS
      (filter (λ x, x ∉ map str ["bmp"; "tgs"; "webm"; "3gp"]%string)
         SpecText.MEDIA_EXTS).
Proof.
  split; apply sameSet_by_inclusions; by_compute.
Qed.

Section Recognised.
Context {host : Host}.

(** C8, a defect of the code. The specification lists [bmp] among the
    recognised images, the index builder and both classifiers of the
    viewer handle it, and the split page promises every supported kind
    when its extensions field is left empty; but the default list of the
    splitter has no [bmp] (nor [tgs], [webm], [3gp]): with the default
    options the splitter drops [photo.bmp], stored on 2024-01-05, from
    the range 2024-01-03 to 2024-01-08, and keeps [photo.jpg], stored
    the same day. The other way round the index builder has no [mkv],
    which the specification and the splitter list: [film.mkv], copied by
    the splitter, is not indexed by the viewer. So neither list is the
    list of the specification. *)
Theorem default_extensions_miss_bmp :
  (str "bmp" ∈ SpecText.MEDIA_EXTS
   ∧ str "bmp" ∈ Loader.INDEXED_EXTS
   ∧ Viewer.getMediaType (str "photo.bmp") = Viewer.image
   ∧ Loader.getMediaType (str "photo.bmp") = Viewer.image
   ∧ (str "bmp" ∉ Spilter.DEFAULT_MEDIA_EXTS))
  ∧ (∀ UTC,
       let out :=
         Spilter.splitZipByTimeRangeAndMedia UTC
           [Spilter.sampleBitmap; Spilter.samplePhoto; Spilter.sampleFilm]
           (Spilter.defaultOptions (DateValue 1704240000000)
                                   (DateValue 1704672000000)) in
       out !! str "photo.bmp" = None
       ∧ out !! str "photo.jpg"
         = Some (Spilter.BinaryContent (Spilter.data Spilter.samplePhoto))
       ∧ out !! str "film.mkv"
         = Some (Spilter.BinaryContent (Spilter.data Spilter.sampleFilm)))
  ∧ (str "mkv" ∈ SpecText.MEDIA_EXTS
     ∧ str "mkv" ∈ Spilter.DEFAULT_MEDIA_EXTS
     ∧ (str "mkv" ∉ Loader.INDEXED_EXTS)
     ∧ Loader.hasMedia (str "film.mkv")
         (Loader.buildMediaIndex
            [(str "film.mkv",
              {| Loader.zipName := str "film.mkv"; Loader.zipDir := false |})]
            Loader.mediaLoader) = false)
  ∧ ¬ SpecText.sameSet Spilter.DEFAULT_MEDIA_EXTS SpecText.MEDIA_EXTS
  ∧ ¬ SpecText.sameSet Loader.INDEXED_EXTS SpecText.MEDIA_EXTS.
Proof.
  split; [|split; [|split; [|split]]].
  - split; [by_compute|]. split; [by_compute|].
    split; [vm_compute; reflexivity|]. split; [vm_compute; reflexivity|].
    by_compute.
  - intros UTC out. subst out.
    split; [|split]; vm_compute; reflexivity.
  - split; [by_compute|]. split; [by_compute|]. split; [by_compute|].
    vm_compute. reflexivity.
  - apply (not_sameSet_by_member _ _ (str "bmp")); by_compute.
  - apply (not_sameSet_by_member _ _ (str "mkv")); by_compute.
Qed.

(** ** The media kind *)

Lemma getMediaType_webp_image (filename : jsstring) :
  Viewer.extensionOf filename = str "webp" →
  Loader.getMediaType filename = Viewer.image
  ∧ Viewer.getMediaType filename = Viewer.image.
Proof.
  intros H. unfold Loader.getMediaType, Viewer.getMediaType. rewrite H.
  split; reflexivity.
Qed.

Lemma getMediaType_tgs_sticker (filename : jsstring) :
  Viewer.extensionOf filename = str "tgs" →
  includes filename (str "sticker") = true →
  Loader.getMediaType filename = Viewer.sticker
  ∧ Viewer.getMediaType filename = Viewer.sticker.
Proof.
  intros H Hs. unfold Loader.getMediaType, Viewer.getMediaType.
  rewrite H, Hs. split; reflexivity.
Qed.

(** C9. The classification of [sticker.webp], whose extension is [webp]
    and whose name contains [sticker], is [image] in the loader and in the
    viewer: the image test, which lists [webp], comes first. A [tgs] name
    with [sticker] in it is classified [sticker]. *)
Theorem getMediaType_sticker_webp :
  Viewer.extensionOf (str "sticker.webp") = str "webp"
  ∧ includes (str "sticker.webp") (str "sticker") = true
  ∧ Loader.getMediaType (str "sticker.webp") = Viewer.image
  ∧ Viewer.getMediaType (str "sticker.webp") = Viewer.image
  ∧ Loader.getMediaType (str "sticker.tgs") = Viewer.sticker
  ∧ Viewer.getMediaType (str "sticker.tgs") = Viewer.sticker.
Proof. repeat split; vm_compute; reflexivity. Qed.
End Recognised.

(** ** The matcher

    A match does not depend on what the rest of the pattern returns, only
    on whether it succeeds: a pattern that matches before a continuation
    matches before any continuation that succeeds at least as often. *)
Section MatcherFacts.
Context {A B : Type}.

Lemma repeatGreedy_mono p lo hi (k : jsstring → option A)
    (k' : jsstring → option B) s :
  (∀ s', is_Some (k s') → is_Some (k' s')) →
  is_Some (repeatGreedy p lo hi k s) → is_Some (repeatGreedy p lo hi k' s).
Proof.
  intros Hk. revert lo s.
  induction hi as [|hi IH]; intros lo s; simpl.
  - destruct (decide (lo = 0%nat)); [apply Hk | intros [? [=]]].
  - destruct s as [|c s'].
    + destruct (decide (lo = 0%nat)); [apply Hk | intros [? [=]]].
    + destruct (p c).
      * specialize (IH (pred lo) s').
        destruct (repeatGreedy p (pred lo) hi k s') eqn:E.
        -- intros _. destruct IH as [y ->]; eauto.
        -- destruct (repeatGreedy p (pred lo) hi k' s'); [eauto|].
           destruct (decide (lo = 0%nat)); [apply Hk | intros [? [=]]].
      * destruct (decide (lo = 0%nat)); [apply Hk | intros [? [=]]].
Qed.

Lemma starGreedy_mono p (k : jsstring → option A)
    (k' : jsstring → option B) s :
  (∀ s', is_Some (k s') → is_Some (k' s')) →
  is_Some (starGreedy p k s) → is_Some (starGreedy p k' s).
Proof.
  intros Hk. induction s as [|c s' IH]; simpl; [apply Hk|].
  destruct (p c); [|apply Hk].
  destruct (starGreedy p k s') eqn:E.
  - intros _. destruct IH as [y ->]; eauto.
  - destruct (starGreedy p k' s'); [eauto | apply Hk].
Qed.

Lemma matchRe_mono r : ∀ s caps (k : jsstring → captures → option A)
    (k' : jsstring → captures → option B),
  (∀ s' c', is_Some (k s' c') → is_Some (k' s' c')) →
  is_Some (matchRe r s caps k) → is_Some (matchRe r s caps k').
Proof.
  induction r as [|p|a IHa b IHb|a IHa b IHb|i a IHa|a IHa|lo hi p|p|];
    intros s caps k k' Hk; simpl.
  - apply Hk.
  - destruct s as [|c s']; [intros [? [=]]|].
    destruct (p c); [apply Hk | intros [? [=]]].
  - apply IHa. intros s' c'. apply IHb, Hk.
  - specialize (IHa s caps k k' Hk). specialize (IHb s caps k k' Hk).
    destruct (matchRe a s caps k).
    + intros _. destruct IHa as [y ->]; eauto.
    + destruct (matchRe a s caps k'); eauto.
  - apply IHa. intros s' c'. apply Hk.
  - specialize (IHa s caps k k' Hk).
    destruct (matchRe a s caps k).
    + intros _. destruct IHa as [y ->]; eauto.
    + destruct (matchRe a s caps k'); [eauto | apply Hk].
  - apply repeatGreedy_mono. intros s'. apply Hk.
  - apply starGreedy_mono. intros s'. apply Hk.
  - destruct s; [apply Hk | intros [? [=]]].
Qed.

(** Two sequences with the same head: the second matches wherever the
    first does, if its tail does. *)
Lemma matchRe_seq_mono a b b' s caps (k : jsstring → captures → option A)
    (k' : jsstring → captures → option B) :
  (∀ s' c', is_Some (matchRe b s' c' k) → is_Some (matchRe b' s' c' k')) →
  is_Some (matchRe (RSeq a b) s caps k) →
  is_Some (matchRe (RSeq a b') s caps k').
Proof. intros H. simpl. apply matchRe_mono, H. Qed.
End MatcherFacts.

(** ** The chat-line patterns of the splitter *)

(** Every line the AM/PM pattern matches is matched by the dashed pattern
    tried before it. *)
Lemma meridiem_shadowed (l : jsstring) :
  is_Some (exec Spilter.meridiemLineRe l) → is_Some (exec Spilter.dashLineRe l).
Proof.
  unfold exec, Spilter.meridiemLineRe, Spilter.dashLineRe, execAt.
  cbn [anchored groups body Spilter.RCat Spilter.timeTail foldr app].
  do 10 (apply matchRe_seq_mono; intros ? ?).
  intros _. simpl.
  match goal with |- is_Some (match ?x with _ => _ end) => destruct x end;
    eauto.
Qed.

Section ChatLinePatterns.
Import Spilter.

Lemma matchRe_class_fail {A} p b c r caps (k : jsstring → captures → option A) :
  p c = false → matchRe (RSeq (RClass p) b) (c :: r) caps k = None.
Proof. intros H. simpl. rewrite H. reflexivity. Qed.

Lemma matchRe_group_repeat_fail {A} i lo hi p b c r caps
    (k : jsstring → captures → option A) :
  p c = false →
  matchRe (RSeq (RGroup i (RRepeat (S lo) hi p)) b) (c :: r) caps k = None.
Proof. intros H. simpl. destruct hi; simpl; rewrite ?H; reflexivity. Qed.

(** *** Hosts

    What a date built from calendar fields is in any host follows from
    what it is in a host whose local time is UTC. *)
Lemma newDate_any_host (UTC : Z → Z) (y m d h mi s t : Z) :
  newDate (λ x, x) y m d h mi s = DateValue t →
  newDate UTC y m d h mi s = TimeClip (UTC t).
Proof.
  unfold newDate, TimeClip.
  destruct (Z.abs _ <=? _); [|discriminate].
  intros [= <-]. reflexivity.
Qed.

Lemma validOrNull_any_host (UTC : Z → Z) (y m d h mi s t : Z) :
  validOrNull (newDate (λ x, x) y m d h mi s) = Some (DateValue t) →
  validOrNull (newDate UTC y m d h mi s) = validOrNull (TimeClip (UTC t)).
Proof.
  destruct (newDate (λ x, x) y m d h mi s) as [t'|] eqn:E; [|discriminate].
  intros [= <-]. rewrite (newDate_any_host UTC _ _ _ _ _ _ _ E). reflexivity.
Qed.

Lemma parseTimestampFromChatLine_any_host (UTC : Z → Z) (line : jsstring) (t : Z) :
  parseTimestampFromChatLine (λ x, x) line = Some (DateValue t) →
  parseTimestampFromChatLine UTC line = validOrNull (TimeClip (UTC t)).
Proof.
  unfold parseTimestampFromChatLine, dateOfGroups. cbv zeta.
  destruct (negb _); [discriminate|].
  repeat (match goal with
          | |- context [match exec ?r ?l with _ => _ end] =>
              destruct (exec r l)
          end; [apply validOrNull_any_host|]).
  discriminate.
Qed.

Lemma parseTimestampFromChatLine_not_start (UTC : Z → Z) (line : jsstring) :
  test lineStartRe (trim line) = false →
  parseTimestampFromChatLine UTC line = None.
Proof.
  intros H. unfold parseTimestampFromChatLine. cbv zeta. rewrite H.
  reflexivity.
Qed.

Lemma dash_match_starts_with_digit (l : jsstring) :
  is_Some (exec dashLineRe l) → ∃ c r, l = c :: r ∧ isDigit c = true.
Proof.
  destruct l as [|c r]; [intros [? [=]]|].
  destruct (isDigit c) eqn:E; [eauto|].
  unfold exec, dashLineRe, execAt.
  cbn [anchored groups body RCat timeTail foldr app]. unfold D.
  rewrite matchRe_group_repeat_fail by exact E. intros [? [=]].
Qed.

Lemma digit_line_not_bracketed (c : N) (r : jsstring) :
  isDigit c = true →
  test lineStartRe (c :: r) = true ∧ exec bracketLineRe (c :: r) = None.
Proof.
  intros E. split.
  - unfold test, exec, lineStartRe, execAt. simpl. rewrite E.
    rewrite orb_true_r. reflexivity.
  - unfold exec, bracketLineRe, execAt.
    cbn [anchored groups body RCat foldr app]. unfold C at 1.
    apply matchRe_class_fail. unfold isChar.
    apply isDigit_range in E.
    destruct (N.eqb_spec c (chr "[")) as [->|]; [|reflexivity].
    change (Z.of_N (chr "[")) with 91 in E. lia.
Qed.

(** On every line the AM/PM pattern matches, the parser returns what the
    dashed pattern reads: day first, the hour as written, the marker
    ignored. *)
Lemma meridiem_branch_unreachable (UTC : Z → Z) (line : jsstring) :
  is_Some (exec meridiemLineRe (trim line)) →
  ∃ m, exec dashLineRe (trim line) = Some m
       ∧ parseTimestampFromChatLine UTC line
         = dateOfGroups UTC m (fullYear (groupStr m 3)) 2 1.
Proof.
  intros H. apply meridiem_shadowed in H.
  destruct (dash_match_starts_with_digit _ H) as (c & r & Hl & Hc).
  destruct H as [m Hm]. exists m. split; [exact Hm|].
  unfold parseTimestampFromChatLine. cbv zeta.
  rewrite Hl in Hm |- *.
  destruct (digit_line_not_bracketed c r Hc) as [-> ->].
  simpl negb. cbv iota. rewrite Hm. reflexivity.
Qed.

(** C10. On the dashed AM/PM line [1/5/2024, 3:30 PM - Bob: hi] the AM/PM
    pattern would match and read 3 and PM, but the parser returns the
    date the dashed pattern reads, at 03:30: the marker is not recognised
    and no 12 is added. In a UTC host that is 2024-05-01T03:30, where the
    AM/PM branch would give 15:30. *)
Theorem chat_line_meridiem_ignored :
  (∀ UTC, parseTimestampFromChatLine UTC (str "1/5/2024, 3:30 PM - Bob: hi")
          = validOrNull (newDate UTC 2024 4 1 3 30 0))
  ∧ (∃ m, exec meridiemLineRe (str "1/5/2024, 3:30 PM - Bob: hi") = Some m
          ∧ groupStr m 4 = str "3" ∧ groupStr m 6 = str "PM")
  ∧ parseTimestampFromChatLine (λ t, t) (str "1/5/2024, 3:30 PM - Bob: hi")
    = Some (DateValue 1714534200000)
  ∧ newDate (λ t, t) 2024 4 1 15 30 0 = DateValue 1714577400000
  ∧ newDate (λ t, t) 2024 0 5 15 30 0 = DateValue 1704468600000.
Proof.
  split.
  { intros UTC.
    rewrite (newDate_any_host UTC 2024 4 1 3 30 0 1714534200000)
      by (vm_compute; reflexivity).
    apply parseTimestampFromChatLine_any_host. vm_compute. reflexivity. }
  split; [eexists; split; [vm_compute; reflexivity|]; split; reflexivity|].
  repeat split; vm_compute; reflexivity.
Qed.
End ChatLinePatterns.

(** ** The chat filter of the splitter *)
Section ChatFilter.
Import Spilter.

Lemma groupBlocks_partition (UTC : Z → Z) (lines : list jsstring) :
  lines = (groupBlocks UTC lines).1
          ++ concat (blockLines <$> (groupBlocks UTC lines).2)
  ∧ Forall (λ l, parseTimestampFromChatLine UTC l = None)
      (groupBlocks UTC lines).1
  ∧ Forall (λ b, is_Some (parseTimestampFromChatLine UTC b.1)
                 ∧ Forall (λ l, parseTimestampFromChatLine UTC l = None) b.2)
      (groupBlocks UTC lines).2.
Proof.
  induction lines as [|l rest (IH1 & IH2 & IH3)]; simpl.
  - repeat split; constructor.
  - destruct (groupBlocks UTC rest) as [pre bs]. simpl in *.
    destruct (parseTimestampFromChatLine UTC l) eqn:E; simpl.
    + split; [unfold blockLines; simpl; f_equal; exact IH1|].
      split; [constructor|].
      constructor; [|exact IH3]. simpl. split; [rewrite E; eauto | exact IH2].
    + split; [f_equal; exact IH1|].
      split; [constructor; assumption | exact IH3].
  Qed.

Lemma filterLine_fold (UTC : Z → Z) (start end_ : Date) (lines : list jsstring) :
  ∀ keep out,
    (fold_left (filterLine UTC start end_) lines (keep, out)).2
    = out ++ (if keep then (groupBlocks UTC lines).1 else [])
          ++ concat (blockLines <$>
               List.filter (blockInRange UTC start end_)
                 (groupBlocks UTC lines).2).
Proof.
  induction lines as [|l rest IH]; intros keep out.
  - simpl. destruct keep; simpl; rewrite app_nil_r; reflexivity.
  - cbn [fold_left groupBlocks].
    remember (filterLine UTC start end_ (keep, out) l) as st eqn:Hst.
    unfold filterLine in Hst.
    destruct (groupBlocks UTC rest) as [pre bs] eqn:G.
    destruct (parseTimestampFromChatLine UTC l) as [ts|] eqn:E;
      subst st; rewrite IH, ?G; cbn [fst snd List.filter].
    + unfold blockInRange at 2. cbn [fst]. rewrite E.
      destruct (inRange ts start end_); cbn [fmap list_fmap concat blockLines fst snd].
      * rewrite <- !app_assoc. destruct keep; reflexivity.
      * destruct keep; reflexivity.
    + destruct keep; [rewrite <- !app_assoc|]; reflexivity.
Qed.

Lemma filterChatByRange_blocks (UTC : Z → Z) (chatText : jsstring)
    (start end_ : Date) :
  filterChatByRange UTC chatText start end_
  = join [LF] (concat (blockLines <$>
      List.filter (blockInRange UTC start end_)
        (groupBlocks UTC (splitLines chatText)).2)).
Proof.
  unfold filterChatByRange.
  pose proof (filterLine_fold UTC start end_ (splitLines chatText) false [])
    as H.
  destruct (fold_left _ _ _) as [k out]. simpl in H. rewrite H. reflexivity.
Qed.

Lemma inRange_inclusive (t s e : Z) :
  inRange (DateValue t) (DateValue s) (DateValue e) = true ↔ s <= t <= e.
Proof.
  simpl. rewrite andb_true_iff, !Z.leb_le. reflexivity.
Qed.

(** The sample transcript in a host whose conversion to UTC keeps dates
    valid and is increasing. *)
Lemma sample_filtered (UTC : Z → Z) :
  (∀ t, Z.abs t <= 8000000000000000 → Z.abs (UTC t) <= 8640000000000000) →
  (∀ a b, a < b → UTC a < UTC b) →
  filterChatByRange UTC sampleTranscript
    (newDate UTC 2024 0 3 0 0 0) (newDate UTC 2024 0 8 0 0 0)
  = sampleKept.
Proof.
  intros Hb Hm.
  assert (Hclip : ∀ t, Z.abs t <= 8000000000000000 →
                       TimeClip (UTC t) = DateValue (UTC t)).
  { intros t Ht. unfold TimeClip.
    destruct (Z.leb_spec (Z.abs (UTC t)) 8640000000000000);
      [reflexivity | specialize (Hb t Ht); lia]. }
  assert (Hs : newDate UTC 2024 0 3 0 0 0 = DateValue (UTC 1704240000000)).
  { rewrite (newDate_any_host UTC _ _ _ _ _ _ 1704240000000)
      by (vm_compute; reflexivity).
    apply Hclip. vm_compute. discriminate. }
  assert (He : newDate UTC 2024 0 8 0 0 0 = DateValue (UTC 1704672000000)).
  { rewrite (newDate_any_host UTC _ _ _ _ _ _ 1704672000000)
      by (vm_compute; reflexivity).
    apply Hclip. vm_compute. discriminate. }
  assert (H1 : parseTimestampFromChatLine UTC
                 (str "[01/01/2024, 10:00:00] Alice: happy new year")
               = Some (DateValue (UTC 1704103200000))).
  { rewrite (parseTimestampFromChatLine_any_host UTC _ 1704103200000)
      by (vm_compute; reflexivity).
    rewrite Hclip by (vm_compute; discriminate). reflexivity. }
  assert (H5 : parseTimestampFromChatLine UTC
                 (str "[05/01/2024, 12:30:00] Bob: lunch?")
               = Some (DateValue (UTC 1704457800000))).
  { rewrite (parseTimestampFromChatLine_any_host UTC _ 1704457800000)
      by (vm_compute; reflexivity).
    rewrite Hclip by (vm_compute; discriminate). reflexivity. }
  assert (H10 : parseTimestampFromChatLine UTC
                  (str "[10/01/2024, 09:15:00] Alice: back to work")
                = Some (DateValue (UTC 1704878100000))).
  { rewrite (parseTimestampFromChatLine_any_host UTC _ 1704878100000)
      by (vm_compute; reflexivity).
    rewrite Hclip by (vm_compute; discriminate). reflexivity. }
  assert (R1 : inRange (DateValue (UTC 1704103200000))
                 (DateValue (UTC 1704240000000))
                 (DateValue (UTC 1704672000000)) = false).
  { apply not_true_is_false. rewrite inRange_inclusive.
    pose proof (Hm 1704103200000 1704240000000 eq_refl). lia. }
  assert (R5 : inRange (DateValue (UTC 1704457800000))
                 (DateValue (UTC 1704240000000))
                 (DateValue (UTC 1704672000000)) = true).
  { rewrite inRange_inclusive.
    pose proof (Hm 1704240000000 1704457800000 eq_refl).
    pose proof (Hm 1704457800000 1704672000000 eq_refl). lia. }
  assert (R10 : inRange (DateValue (UTC 1704878100000))
                  (DateValue (UTC 1704240000000))
                  (DateValue (UTC 1704672000000)) = false).
  { apply not_true_is_false. rewrite inRange_inclusive.
    pose proof (Hm 1704672000000 1704878100000 eq_refl). lia. }
  rewrite Hs, He. unfold filterChatByRange.
  replace (splitLines sampleTranscript) with
    [str "Messages are end-to-end encrypted.";
     str "[01/01/2024, 10:00:00] Alice: happy new year";
     str "see you soon";
     str "[05/01/2024, 12:30:00] Bob: lunch?";
     str "at the usual place";
     [];
     str "[10/01/2024, 09:15:00] Alice: back to work"]
    by (vm_compute; reflexivity).
  cbn [fold_left]. unfold filterLine.
  rewrite (parseTimestampFromChatLine_not_start UTC
             (str "Messages are end-to-end encrypted."))
    by (vm_compute; reflexivity).
  rewrite H1, R1.
  rewrite (parseTimestampFromChatLine_not_start UTC (str "see you soon"))
    by (vm_compute; reflexivity).
  rewrite H5, R5.
  rewrite (parseTimestampFromChatLine_not_start UTC (str "at the usual place"))
    by (vm_compute; reflexivity).
  rewrite (parseTimestampFromChatLine_not_start UTC [])
    by (vm_compute; reflexivity).
  rewrite H10, R10.
  vm_compute. reflexivity.
Qed.

(** C1. The lines of a transcript are the lines before the first
    timestamp line followed by its blocks (a timestamp line and the lines
    after it up to the next timestamp line); the chat filter returns, in
    their order and joined by line feeds, the lines of exactly the blocks
    whose timestamp [t] has [start <= t <= end], and nothing else. For
    the sample transcript with blocks of 2024-01-01, 2024-01-05 and
    2024-01-10 and the range from 2024-01-03 to 2024-01-08 that is the
    block of 2024-01-05 alone. *)
Theorem filterChatByRange_keeps_blocks_in_range :
  (∀ UTC chatText start end_,
     let lines := splitLines chatText in
     let pre := (groupBlocks UTC lines).1 in
     let bs := (groupBlocks UTC lines).2 in
     lines = pre ++ concat (blockLines <$> bs)
     ∧ Forall (λ l, parseTimestampFromChatLine UTC l = None) pre
     ∧ Forall (λ b, is_Some (parseTimestampFromChatLine UTC b.1)
                    ∧ Forall (λ l, parseTimestampFromChatLine UTC l = None) b.2)
         bs
     ∧ filterChatByRange UTC chatText start end_
       = join [LF] (concat (blockLines <$>
           List.filter
             (λ b, match parseTimestampFromChatLine UTC b.1 with
                   | Some ts => inRange ts start end_
                   | None => false
                   end) bs)))
  ∧ (∀ t s e, inRange (DateValue t) (DateValue s) (DateValue e) = true
              ↔ s <= t <= e)
  ∧ (∀ UTC,
       (∀ t, Z.abs t <= 8000000000000000 → Z.abs (UTC t) <= 8640000000000000) →
       (∀ a b, a < b → UTC a < UTC b) →
       filterChatByRange UTC sampleTranscript
         (newDate UTC 2024 0 3 0 0 0) (newDate UTC 2024 0 8 0 0 0)
       = sampleKept).
Proof.
  split; [|split; [exact inRange_inclusive | exact sample_filtered]].
  intros UTC chatText start end_ lines pre bs.
  destruct (groupBlocks_partition UTC lines) as (H1 & H2 & H3).
  repeat split; try assumption.
  apply filterChatByRange_blocks.
Qed.

Lemma filterChatByRange_keeps_blocks_in_range_witness :
  filterChatByRange (λ t, t) sampleTranscript
    (DateValue 1704240000000) (DateValue 1704672000000)
  = sampleKept.
Proof.
  destruct filterChatByRange_keeps_blocks_in_range as (_ & _ & H).
  apply (H (λ t, t)).
  - intros t Ht. lia.
  - intros a b Hab. exact Hab.
Defined.
End ChatFilter.

(** ** The media filter of the splitter *)
Section MediaFilter.
Import Spilter.
Context {host : Host}.

Lemma parseTimestampFromMediaFilename_any_host (UTC : Z → Z)
    (n : jsstring) (t : Z) :
  parseTimestampFromMediaFilename (λ x, x) n = Some (DateValue t) →
  parseTimestampFromMediaFilename UTC n = validOrNull (TimeClip (UTC t)).
Proof.
  unfold parseTimestampFromMediaFilename, dateTimeOfGroups, dateOnlyOfGroups.
  cbv zeta.
  destruct (exec whatsappNameRe _); [apply validOrNull_any_host|].
  destruct (match exec dateAtTimeRe _ with Some m => Some m | None => _ end);
    [apply validOrNull_any_host|].
  destruct (exec deviceNameRe _); [apply validOrNull_any_host|].
  destruct (exec dashedDateRe _); [apply validOrNull_any_host|].
  destruct (exec compactDateRe _); [apply validOrNull_any_host|].
  discriminate.
Qed.

Section Loop.
Variables (UTC : Z → Z) (start end_ : Date) (mediaSet : list jsstring)
          (chatEntry : option Entry).

Local Abbreviation copy := (copyMedia UTC start end_ mediaSet chatEntry).

Lemma copyMedia_lookup_ne out e n :
  n ≠ name e → copy out e !! n = out !! n.
Proof.
  intros Hne. unfold copyMedia.
  repeat case_match; try reflexivity; apply lookup_insert_ne; congruence.
Qed.

Lemma copyMedia_lookup_self out e :
  dir e = false →
  (∀ c, chatEntry = Some c → name e ≠ name c) →
  copy out e !! name e
  = if selected UTC start end_ mediaSet e
    then Some (BinaryContent (data e)) else out !! name e.
Proof.
  intros Hdir Hchat. unfold copyMedia, selected. rewrite Hdir.
  destruct chatEntry as [c|].
  - rewrite bool_decide_eq_false_2 by (apply Hchat; reflexivity).
    destruct (isMediaName mediaSet (name e)); simpl; [|reflexivity].
    destruct (mediaTimestamp UTC e) as [ts|]; [|reflexivity].
    destruct (inRange ts start end_); [apply lookup_insert_eq | reflexivity].
  - destruct (isMediaName mediaSet (name e)); simpl; [|reflexivity].
    destruct (mediaTimestamp UTC e) as [ts|]; [|reflexivity].
    destruct (inRange ts start end_); [apply lookup_insert_eq | reflexivity].
Qed.

Lemma copyMedia_fold_notin zip : ∀ out n,
  n ∉ name <$> zip → fold_left copy zip out !! n = out !! n.
Proof.
  induction zip as [|a rest IH]; intros out n Hn; [reflexivity|].
  simpl in *. apply not_elem_of_cons in Hn as [Hna Hn].
  rewrite IH by exact Hn. apply copyMedia_lookup_ne. exact Hna.
Qed.

Lemma copyMedia_fold_in zip : ∀ out e,
  NoDup (name <$> zip) → e ∈ zip →
  dir e = false →
  (∀ c, chatEntry = Some c → name e ≠ name c) →
  fold_left copy zip out !! name e
  = if selected UTC start end_ mediaSet e
    then Some (BinaryContent (data e)) else out !! name e.
Proof.
  induction zip as [|a rest IH]; intros out e Hnd He Hdir Hchat.
  - inversion He.
  - simpl in *. apply NoDup_cons in Hnd as [Ha Hnd].
    apply elem_of_cons in He as [->|He].
    + rewrite copyMedia_fold_notin by exact Ha.
      apply copyMedia_lookup_self; assumption.
    + rewrite IH by assumption.
      rewrite copyMedia_lookup_ne; [reflexivity|].
      intros Heq. apply Ha. rewrite <- Heq.
      apply list_elem_of_fmap. eauto.
Qed.
End Loop.

Lemma findChatFile_name (zip : list Entry) (patterns : list RegExp) (c : Entry) :
  findChatFile zip patterns = Some c →
  existsb (λ rx, test rx (name c)) patterns = true
  ∨ test txtRe (name c) = true.
Proof.
  unfold findChatFile.
  destruct (List.find _ zip) as [c'|] eqn:E.
  - intros [= <-]. apply List.find_some in E as [_ E].
    apply andb_prop in E as [_ E]. left. exact E.
  - intros E'. apply List.find_some in E' as [_ E'].
    apply andb_prop in E' as [E' _]. apply andb_prop in E' as [_ E'].
    right. exact E'.
Qed.

(** Whether the media pass retains an entry that is neither a directory
    nor the transcript. *)
Lemma split_media_lookup (UTC : Z → Z) (zip : list Entry)
    (options : SplitOptions) (e : Entry) :
  NoDup (name <$> zip) → e ∈ zip →
  includeMedia options ≠ Some false →
  dir e = false →
  (∀ c, findChatFile zip
          (default DEFAULT_CHAT_CANDIDATES (chatFilenameCandidates options))
        = Some c →
        name e ≠ name c) →
  splitZipByTimeRangeAndMedia UTC zip options !! name e
  = if selected UTC (start options) (end_ options)
         (map toLowerCase
            (default DEFAULT_MEDIA_EXTS (mediaExtensions options))) e
    then Some (BinaryContent (data e)) else None.
Proof.
  intros Hnd He Hinc Hdir Hchat.
  unfold splitZipByTimeRangeAndMedia. cbv zeta.
  replace (default true (includeMedia options)) with true
    by (destruct (includeMedia options) as [[]|]; [reflexivity|congruence|reflexivity]).
  rewrite (copyMedia_fold_in UTC (start options) (end_ options) _ _ zip);
    [|assumption|assumption|assumption|];
    [|destruct (default true (includeChat options));
      [exact Hchat | intros c [=]]].
  destruct (selected _ _ _ _ e); [reflexivity|].
  destruct (default true (includeChat options)); [|apply lookup_empty].
  destruct (findChatFile zip _) as [c|] eqn:Ec; [|apply lookup_empty].
  apply lookup_insert_None. split; [apply lookup_empty|].
  intros Heq. apply (Hchat c eq_refl). symmetry. exact Heq.
Qed.

(** The two sample names under the range from 2024-01-03 to 2024-01-08,
    in a host whose conversion to UTC keeps dates valid and is
    increasing. *)
Lemma sample_media (UTC : Z → Z) (zip : list Entry) (e1 e2 : Entry) :
  (∀ t, Z.abs t <= 8000000000000000 → Z.abs (UTC t) <= 8640000000000000) →
  (∀ a b, a < b → UTC a < UTC b) →
  NoDup (name <$> zip) → e1 ∈ zip → e2 ∈ zip →
  dir e1 = false → dir e2 = false →
  name e1 = str "IMG-20240105-WA0001.jpg" →
  name e2 = str "IMG-20240120-WA0002.jpg" →
  let out := splitZipByTimeRangeAndMedia UTC zip
               (defaultOptions (newDate UTC 2024 0 3 0 0 0)
                               (newDate UTC 2024 0 8 0 0 0)) in
  out !! name e1 = Some (BinaryContent (data e1)) ∧ out !! name e2 = None.
Proof.
  intros Hb Hm Hnd He1 He2 Hd1 Hd2 Hn1 Hn2 out. subst out.
  assert (Hclip : ∀ t, Z.abs t <= 8000000000000000 →
                       TimeClip (UTC t) = DateValue (UTC t)).
  { intros t Ht. unfold TimeClip.
    destruct (Z.leb_spec (Z.abs (UTC t)) 8640000000000000);
      [reflexivity | specialize (Hb t Ht); lia]. }
  assert (Hs : newDate UTC 2024 0 3 0 0 0 = DateValue (UTC 1704240000000)).
  { rewrite (newDate_any_host UTC _ _ _ _ _ _ 1704240000000)
      by (vm_compute; reflexivity).
    apply Hclip. vm_compute. discriminate. }
  assert (He : newDate UTC 2024 0 8 0 0 0 = DateValue (UTC 1704672000000)).
  { rewrite (newDate_any_host UTC _ _ _ _ _ _ 1704672000000)
      by (vm_compute; reflexivity).
    apply Hclip. vm_compute. discriminate. }
  assert (Hnochat : ∀ e n, name e = n →
            existsb (λ rx, test rx n) DEFAULT_CHAT_CANDIDATES = false →
            test txtRe n = false →
            ∀ c, findChatFile zip DEFAULT_CHAT_CANDIDATES = Some c →
                 name e ≠ name c).
  { intros e n Hn Hx Ht c Hc Heq. apply findChatFile_name in Hc.
    rewrite <- Heq, Hn, Hx, Ht in Hc. destruct Hc; discriminate. }
  split.
  - rewrite split_media_lookup; try assumption; try discriminate.
    + unfold selected, mediaTimestamp. cbn [defaultOptions start end_ mediaExtensions default].
      rewrite Hn1.
      replace (isMediaName _ _) with true by (vm_compute; reflexivity).
      rewrite (parseTimestampFromMediaFilename_any_host UTC _ 1704412800000)
        by (vm_compute; reflexivity).
      rewrite Hclip by (vm_compute; discriminate).
      cbn [validOrNull isValidDate andb]. rewrite Hs, He.
      replace (inRange _ _ _) with true; [reflexivity|].
      symmetry. apply inRange_inclusive.
      pose proof (Hm 1704240000000 1704412800000 eq_refl).
      pose proof (Hm 1704412800000 1704672000000 eq_refl). lia.
    + apply (Hnochat e1 _ Hn1); vm_compute; reflexivity.
  - rewrite split_media_lookup; try assumption; try discriminate.
    + unfold selected, mediaTimestamp. cbn [defaultOptions start end_ mediaExtensions default].
      rewrite Hn2.
      replace (isMediaName _ _) with true by (vm_compute; reflexivity).
      rewrite (parseTimestampFromMediaFilename_any_host UTC _ 1705708800000)
        by (vm_compute; reflexivity).
      rewrite Hclip by (vm_compute; discriminate).
      cbn [validOrNull isValidDate andb]. rewrite Hs, He.
      replace (inRange _ _ _) with false; [reflexivity|].
      symmetry. apply not_true_is_false. rewrite inRange_inclusive.
      pose proof (Hm 1704672000000 1705708800000 eq_refl). lia.
    + apply (Hnochat e2 _ Hn2); vm_compute; reflexivity.
Qed.

End MediaFilter.

(** ** Multi-line messages *)
Section MultiLine.
Import Viewer.

Lemma join_cons (sep x : jsstring) (rest : list jsstring) :
  join sep (x :: rest) = x ++ concat ((λ l, sep ++ l) <$> rest).
Proof.
  revert x. induction rest as [|y rest IH]; intros x.
  - simpl. rewrite app_nil_r. reflexivity.
  - change (join sep (x :: y :: rest)) with (x ++ sep ++ join sep (y :: rest)).
    rewrite IH. simpl. rewrite <- !app_assoc. reflexivity.
Qed.

Section Lines.
Variable UTC : Z → Z.

(** A line that opens a record and a line that continues one. *)
Lemma parseLine_start result current raw r :
  startOfRecord UTC (stripLTR raw) = Some r →
  parseLine UTC (result, current) raw = (flush result current, Some r).
Proof.
  unfold startOfRecord, parseLine.
  destruct raw as [|c raw']; [vm_compute; discriminate|].
  cbv zeta.
  destruct (exec bracketRe _); [intros [= <-]; reflexivity|].
  destruct (exec dashRe _); [intros [= <-]; reflexivity | discriminate].
Qed.

Lemma parseLine_continue result c raw :
  raw ≠ [] →
  startOfRecord UTC (stripLTR raw) = None →
  parseLine UTC (result, Some c) raw
  = (result,
     Some {| datetime := datetime c; sender := sender c;
             message := message c
                        ++ match message c with
                           | [] => stripLTR raw
                           | _ :: _ => [LF] ++ stripLTR raw
                           end |}).
Proof.
  unfold startOfRecord, parseLine.
  destruct raw as [|ch raw']; [congruence|]. intros _.
  cbv zeta.
  destruct (exec bracketRe _); [discriminate|].
  destruct (exec dashRe _); [discriminate|]. reflexivity.
Qed.

Lemma continuation_fold (conts : list jsstring) : ∀ result c,
  Forall (λ l, l ≠ [] ∧ startOfRecord UTC (stripLTR l) = None) conts →
  fold_left (parseLine UTC) conts (result, Some c)
  = (result,
     Some {| datetime := datetime c; sender := sender c;
             message := join [LF]
                          (dropEmpty (message c :: (stripLTR <$> conts))) |}).
Proof.
  induction conts as [|l rest IH]; intros result c Hc.
  - destruct c as [d s m]. simpl. destruct m; reflexivity.
  - apply Forall_cons in Hc as [[Hne Hns] Hrest].
    cbn [fold_left]. rewrite parseLine_continue by assumption.
    rewrite IH by exact Hrest. cbn [datetime sender message].
    do 3 f_equal.
    destruct (message c) as [|ch m] eqn:Em.
    + simpl. reflexivity.
    + cbn [dropEmpty fmap list_fmap app].
      rewrite !join_cons. cbn [fmap list_fmap concat app].
      f_equal. rewrite <- app_assoc. reflexivity.
Qed.
End Lines.

(** C3, as stated, fails. The timestamp line [[1/1/2024 10:00] A: ] has an
    empty message segment: the continuation [hello] is appended without
    a line break and the text is [hello], not a line break followed by
    [hello]. A continuation that starts with U+200E is appended without
    that mark. *)
Lemma multiline_text_counterexample :
  let UTC := λ t : Z, t in
  (let first := str "[1/1/2024 10:00] A: " in
   let conts := [str "hello"] in
   ∃ r0, startOfRecord UTC (stripLTR first) = Some r0
         ∧ Forall (λ l, l ≠ [] ∧ startOfRecord UTC (stripLTR l) = None) conts
         ∧ splitLines (join [LF] (first :: conts)) = first :: conts
         ∧ message <$> parseWhatsAppText UTC (join [LF] (first :: conts))
           = [str "hello"]
         ∧ str "hello" ≠ join [LF] (message r0 :: conts))
  ∧ (let first := str "[1/1/2024 10:00] A: hi" in
     let conts := [8206%N :: str "there"] in
     ∃ r0, startOfRecord UTC (stripLTR first) = Some r0
           ∧ Forall (λ l, l ≠ [] ∧ startOfRecord UTC (stripLTR l) = None) conts
           ∧ splitLines (join [LF] (first :: conts)) = first :: conts
           ∧ message <$> parseWhatsAppText UTC (join [LF] (first :: conts))
             = [str "hi" ++ [LF] ++ str "there"]
           ∧ str "hi" ++ [LF] ++ str "there"
             ≠ join [LF] (message r0 :: conts)).
Proof.
  split; cbv zeta; eexists; (split; [vm_compute; reflexivity|]);
    (split; [repeat constructor; vm_compute; congruence|]);
    (split; [vm_compute; reflexivity|]);
    (split; [vm_compute; reflexivity|]); vm_compute; discriminate.
Qed.

(** C3, amended. When the lines of the text are a timestamp line followed
    by non-empty lines that are not timestamp lines, the parser yields
    one record, with the date and sender of the first line; its text is
    the message segment of the first line and the continuation lines,
    each without its leading direction marks, joined by line breaks after
    the leading empty ones are dropped. When the segment is not empty and
    no continuation starts with a mark, that is the segment and the
    lines joined by line breaks. *)
Theorem parse_multiline_record (UTC : Z → Z) (text first : jsstring)
    (conts : list jsstring) (r0 : WhatsAppMessage) :
  splitLines text = first :: conts →
  startOfRecord UTC (stripLTR first) = Some r0 →
  Forall (λ l, l ≠ [] ∧ startOfRecord UTC (stripLTR l) = None) conts →
  parseWhatsAppText UTC text
  = [ {| datetime := datetime r0; sender := sender r0;
         message := join [LF]
                      (dropEmpty (message r0 :: (stripLTR <$> conts))) |} ]
  ∧ (message r0 ≠ [] → Forall (λ l, stripLTR l = l) conts →
     message <$> parseWhatsAppText UTC text
     = [join [LF] (message r0 :: conts)]).
Proof.
  intros Hlines Hfirst Hconts.
  assert (Hparse : parseWhatsAppText UTC text
    = [ {| datetime := datetime r0; sender := sender r0;
           message := join [LF]
                        (dropEmpty (message r0 :: (stripLTR <$> conts))) |} ]).
  { unfold parseWhatsAppText. rewrite Hlines. cbn [fold_left].
    rewrite (parseLine_start UTC _ _ _ _ Hfirst).
    rewrite continuation_fold by exact Hconts. reflexivity. }
  split; [exact Hparse|].
  intros Hne Hmarks. rewrite Hparse. cbn [fmap list_fmap message].
  do 2 f_equal.
  replace (stripLTR <$> conts) with conts.
  - destruct (message r0); [congruence | reflexivity].
  - clear -Hmarks. induction Hmarks as [|l rest Hl _ IH]; [reflexivity|].
    cbn [fmap list_fmap]. rewrite Hl. f_equal. exact IH.
Qed.

Lemma parse_multiline_record_witness :
  parseWhatsAppText (λ t, t)
    (str "[1/1/2024 10:00] A: one" ++ [LF] ++ str "two" ++ [LF] ++ str "three")
  = [ {| datetime := DateValue 1704103200000; sender := str "A";
         message := str "one" ++ [LF] ++ str "two" ++ [LF] ++ str "three" |} ].
Proof.
  refine (proj1 (parse_multiline_record (λ t, t) _
            (str "[1/1/2024 10:00] A: one") [str "two"; str "three"]
            {| datetime := DateValue 1704103200000; sender := str "A";
               message := str "one" |} _ _ _)).
  - vm_compute. reflexivity.
  - vm_compute. reflexivity.
  - repeat constructor; vm_compute; congruence.
Defined.
End MultiLine.

(** ** The loader *)
Section LoaderFacts.
Import Loader.
Context {host : Host}.

Lemma consistent_new (limit : Z) : consistent limit (newMediaLoader limit).
Proof.
  split; simpl.
  - reflexivity.
  - reflexivity.
  - lia.
  - constructor.
  - intros t Ht. inversion Ht.
  - intros p [[x Hx]|Hp]; [rewrite lookup_empty in Hx; discriminate | inversion Hp].
  - intros H. inversion H.
Qed.

Lemma coherent_new (limit : Z) : coherent (newMediaLoader limit).
Proof.
  split; simpl.
  - intros f p. rewrite lookup_empty. split; [discriminate|].
    intros [[st H]|H]; [rewrite lookup_empty in H; discriminate | inversion H].
  - intros f _. apply lookup_empty.
Qed.

(** Starting a task that is not in flight, under the ceiling. *)
Lemma startTask_consistent (limit : Z) (s : MediaLoader) (t : Task) :
  consistent limit s →
  running s !! taskPromise t = None →
  taskPromise t ∉ taskPromise <$> taskQueue s →
  promises s !! taskPromise t = Some Pending →
  activeTasks s < concurrencyLimit s →
  consistent limit (startTask t s).
Proof.
  intros [Hl Ha Hb Hnd Hfr Hp Hrej] Hrun Hq Hpend Hlt.
  unfold startTask. split; cbn.
  - exact Hl.
  - rewrite map_size_insert_None by exact Hrun. lia.
  - lia.
  - exact Hnd.
  - intros t' Ht'. rewrite lookup_insert_ne; [apply Hfr, Ht'|].
    intros Heq. apply Hq. rewrite Heq. apply list_elem_of_fmap. eauto.
  - intros p [Hx|Hx].
    + destruct (decide (taskPromise t = p)) as [<-|Hne]; [exact Hpend|].
      rewrite lookup_insert_ne in Hx by exact Hne. apply Hp. left. exact Hx.
    + apply Hp. right. exact Hx.
  - exact Hrej.
Qed.

Lemma processNextTask_consistent (limit : Z) (s : MediaLoader) :
  consistent limit s → consistent limit (processNextTask s).
Proof.
  intros Hs. unfold processNextTask.
  destruct (taskQueue s) as [|t rest] eqn:Eq; [exact Hs|].
  destruct (Z.ltb_spec (activeTasks s) (concurrencyLimit s)) as [Hlt|]; [|exact Hs].
  destruct Hs as [Hl Ha Hb Hnd Hfr Hp Hrej].
  rewrite Eq in Hnd, Hfr, Hp. cbn in Hnd. apply NoDup_cons in Hnd as [Ht Hnd].
  apply startTask_consistent; cbn.
  - split; cbn; try assumption.
    + intros t' Ht'. apply Hfr. right. exact Ht'.
    + intros p [Hx|Hx]; apply Hp; [left; exact Hx | right; cbn; right; exact Hx].
  - apply Hfr. left.
  - exact Ht.
  - apply Hp. right. cbn. left.
  - exact Hlt.
Qed.

Lemma consistent_ext (limit : Z) (s s' : MediaLoader) :
  concurrencyLimit s' = concurrencyLimit s →
  activeTasks s' = activeTasks s →
  taskQueue s' = taskQueue s →
  promises s' = promises s →
  running s' = running s →
  consistent limit s → consistent limit s'.
Proof.
  intros E1 E2 E3 E4 E5 [Hl Ha Hb Hnd Hfr Hp Hrej].
  split; rewrite ?E1, ?E2, ?E3, ?E4, ?E5; assumption.
Qed.

Lemma fresh_promise (limit : Z) (s : MediaLoader) :
  consistent limit s →
  running s !! length (promises s) = None
  ∧ length (promises s) ∉ taskPromise <$> taskQueue s.
Proof.
  intros Hs. split.
  - destruct (running s !! length (promises s)) eqn:E; [|reflexivity].
    assert (H : promises s !! length (promises s) = Some Pending)
      by (apply (cs_pending _ _ Hs); left; eauto).
    apply lookup_lt_Some in H. lia.
  - intros Hin.
    assert (H : promises s !! length (promises s) = Some Pending)
      by (apply (cs_pending _ _ Hs); right; exact Hin).
    apply lookup_lt_Some in H. lia.
Qed.

Lemma new_promise_consistent (limit : Z) (s : MediaLoader) :
  consistent limit s →
  consistent limit (set_promises (promises s ++ [Pending]) s).
Proof.
  intros [Hl Ha Hb Hnd Hfr Hp Hrej]. split; cbn; try assumption.
  - intros p Hx. apply lookup_app_l_Some, Hp, Hx.
  - intros Hin. apply elem_of_app in Hin as [Hin|Hin]; [exact (Hrej Hin)|].
    apply list_elem_of_singleton in Hin. discriminate.
Qed.

Lemma loadMedia_consistent (limit : Z) (s : MediaLoader) (f : jsstring) :
  consistent limit s → consistent limit (loadMedia f s).2.
Proof.
  intros Hs. unfold loadMedia.
  destruct (loadedBlobs s !! f); [exact Hs|].
  destruct (loadingPromises s !! f); [exact Hs|].
  cbv zeta. cbn [snd].
  destruct (fresh_promise limit s Hs) as [Hrun Hq].
  pose proof (new_promise_consistent limit s Hs) as Hs1.
  set (s1 := set_promises (promises s ++ [Pending]) s) in *.
  set (t := {| taskFile := f; taskPromise := length (promises s) |}).
  eapply (consistent_ext limit
            (if activeTasks s1 <? concurrencyLimit s1
             then startTask t s1 else set_taskQueue (taskQueue s1 ++ [t]) s1));
    try reflexivity.
  destruct (Z.ltb_spec (activeTasks s1) (concurrencyLimit s1)) as [Hlt|Hge].
  - apply startTask_consistent; try assumption.
    cbn. apply list_lookup_middle. reflexivity.
  - destruct Hs1 as [Hl Ha Hb Hnd Hfr Hp Hrej]. split; cbn; try assumption.
    + rewrite fmap_app. apply NoDup_app. split; [exact Hnd|]. split.
      * intros x Hx Hx'. apply list_elem_of_singleton in Hx'. subst x.
        exact (Hq Hx).
      * cbn. apply NoDup_singleton.
    + intros t' Ht'. apply elem_of_app in Ht' as [Ht'|Ht'].
      * apply Hfr, Ht'.
      * apply list_elem_of_singleton in Ht'. subst t'. exact Hrun.
    + intros p [Hx|Hx].
      * apply Hp. left. exact Hx.
      * rewrite fmap_app in Hx. apply elem_of_app in Hx as [Hx|Hx].
        -- apply Hp. right. exact Hx.
        -- apply list_elem_of_singleton in Hx. subst p. cbn.
           apply list_lookup_middle. reflexivity.
Qed.

Lemma settle_consistent (limit : Z) (s : MediaLoader) (p : nat)
    (o : option jsstring) :
  consistent limit s → consistent limit (settle p o s).
Proof.
  intros Hs. unfold settle.
  destruct (running s !! p) as [[file stage]|] eqn:Er; [|exact Hs].
  destruct stage; try exact Hs.
  assert (Hgen : ∀ st s', concurrencyLimit s' = concurrencyLimit s →
            activeTasks s' = activeTasks s → taskQueue s' = taskQueue s →
            promises s' = promises s →
            running s' = <[p := (file, st)]> (running s) →
            consistent limit s').
  { intros st s' E1 E2 E3 E4 E5.
    destruct Hs as [Hl Ha Hb Hnd Hfr Hp Hrej].
    split; rewrite ?E1, ?E2, ?E3, ?E4, ?E5; try assumption.
    - rewrite map_size_insert_Some by eauto. exact Ha.
    - intros t Ht. rewrite lookup_insert_ne; [apply Hfr, Ht|].
      intros Heq. specialize (Hfr t Ht). rewrite <- Heq in Hfr. congruence.
    - intros p' [Hx|Hx]; [|apply Hp; right; exact Hx].
      apply Hp. left. destruct (decide (p = p')) as [<-|Hne]; [eauto|].
      rewrite lookup_insert_ne in Hx by exact Hne. exact Hx. }
  destruct o as [url|]; eapply Hgen; reflexivity.
Qed.

Lemma resume_consistent (limit : Z) (s : MediaLoader) (p : nat) :
  consistent limit s → consistent limit (resume p s).
Proof.
  intros Hs. unfold resume.
  destruct (running s !! p) as [[file stage]|] eqn:Er; [|exact Hs].
  assert (Hgo : ∀ v,
    consistent limit
      (processNextTask
         (set_running (delete p (running (resolve p v s)))
            (set_loadingPromises
               (delete file (loadingPromises (resolve p v s)))
               (set_activeTasks (activeTasks (resolve p v s) - 1)
                  (resolve p v s)))))).
  { intros v. apply processNextTask_consistent.
    pose proof (cs_pending _ _ Hs p (or_introl (ex_intro _ _ Er))) as Hpend.
    unfold resolve. rewrite Hpend.
    destruct Hs as [Hl Ha Hb Hnd Hfr Hp Hrej]. split; cbn; try assumption.
    - rewrite map_size_delete_Some by eauto.
      assert (size (running s) ≠ 0%nat).
      { intros H0. apply map_size_empty_inv in H0. rewrite H0 in Er.
        rewrite lookup_empty in Er. discriminate. }
      lia.
    - lia.
    - intros t Ht. apply lookup_delete_None. right. apply Hfr, Ht.
    - intros p' Hx.
      assert (Hne : p ≠ p').
      { intros <-. destruct Hx as [[x Hx]|Hx].
        - rewrite lookup_delete_eq in Hx. discriminate.
        - apply list_elem_of_fmap in Hx as (t & -> & Ht).
          specialize (Hfr t Ht). congruence. }
      rewrite list_lookup_insert_ne by exact Hne. apply Hp.
      destruct Hx as [[x Hx]|Hx]; [left|right; exact Hx].
      rewrite lookup_delete_ne in Hx by exact Hne. eauto.
    - intros Hin. apply list_elem_of_lookup in Hin as [i Hi].
      apply list_lookup_insert_Some in Hi as [(_ & [=] & _)|[_ Hi]].
      apply Hrej. eapply list_elem_of_lookup_2, Hi. }
  destruct stage; [exact Hs | apply Hgo ..].
Qed.

Lemma step_consistent (limit : Z) (s : MediaLoader) (e : Event) :
  consistent limit s → consistent limit (step s e).
Proof.
  intros Hs. destruct e as [fe|f|p o|p|f|]; cbn [step].
  - eapply consistent_ext; [..|exact Hs]; reflexivity.
  - apply loadMedia_consistent, Hs.
  - apply settle_consistent, Hs.
  - apply resume_consistent, Hs.
  - unfold revokeMedia. destruct (loadedBlobs s !! f); [|exact Hs].
    eapply consistent_ext; [..|exact Hs]; reflexivity.
  - eapply consistent_ext; [..|exact Hs]; reflexivity.
Qed.

Lemma run_consistent (limit : Z) (tr : list Event) : ∀ s,
  consistent limit s → consistent limit (run s tr).
Proof.
  induction tr as [|e tr IH]; intros s Hs; [exact Hs|].
  apply IH, step_consistent, Hs.
Qed.

(** *** Without [cleanup]: the in-flight map and the tasks agree *)

Lemma coherent_ext (s s' : MediaLoader) :
  loadingPromises s' = loadingPromises s →
  loadedBlobs s' = loadedBlobs s →
  taskQueue s' = taskQueue s →
  running s' = running s →
  coherent s → coherent s'.
Proof.
  intros E1 E2 E3 E4 [Hm Hc]. split; rewrite ?E1, ?E2, ?E3, ?E4; assumption.
Qed.

Lemma startTask_fields (t : Task) (s : MediaLoader) :
  loadingPromises (startTask t s) = loadingPromises s
  ∧ loadedBlobs (startTask t s) = loadedBlobs s
  ∧ taskQueue (startTask t s) = taskQueue s
  ∧ promises (startTask t s) = promises s
  ∧ concurrencyLimit (startTask t s) = concurrencyLimit s
  ∧ activeTasks (startTask t s) = activeTasks s + 1
  ∧ running (startTask t s)
    = <[taskPromise t := (taskFile t, doLoadMedia (mediaIndex s) (taskFile t))]>
        (running s).
Proof. repeat split. Qed.

(** A queued task is started: it moves from the queue to the started
    tasks. *)
Lemma dequeue_coherent (limit : Z) (s s' : MediaLoader) (t : Task)
    (rest : list Task) (st : Stage) :
  consistent limit s → coherent s →
  taskQueue s = t :: rest →
  loadingPromises s' = loadingPromises s →
  loadedBlobs s' = loadedBlobs s →
  taskQueue s' = rest →
  running s' = <[taskPromise t := (taskFile t, st)]> (running s) →
  coherent s'.
Proof.
  intros Hs [Hm Hc] Eq E1 E2 E3 E4.
  pose proof (cs_queue_nodup _ _ Hs) as Hnd.
  pose proof (cs_queue_fresh _ _ Hs) as Hfr.
  rewrite Eq in Hnd, Hfr. cbn in Hnd. apply NoDup_cons in Hnd as [Ht Hnd].
  assert (Hrt : running s !! taskPromise t = None) by (apply Hfr; left).
  split; rewrite ?E1, ?E2, ?E3, ?E4.
  - intros f p. rewrite Hm, Eq. split.
    + intros [[st' Hr]|Hq].
      * left. exists st'. rewrite lookup_insert_ne; [exact Hr|].
        intros Heq. rewrite Heq in Hrt. congruence.
      * apply elem_of_cons in Hq as [Hq|Hq]; [|right; exact Hq].
        left. exists st. subst t. cbn. apply lookup_insert_eq.
    + intros [[st' Hr]|Hq]; [|right; right; exact Hq].
      apply lookup_insert_Some in Hr as [[Hp [= Hf Hst]]|[Hne Hr]].
      * right. apply elem_of_cons. left. destruct t; cbn in *; congruence.
      * left. eauto.
  - intros f [Hq|(p & e & Hr)].
    + apply Hc. left. rewrite Eq. cbn. right. exact Hq.
    + apply lookup_insert_Some in Hr as [[Hp [= Hf Hst]]|[Hne Hr]].
      * apply Hc. left. rewrite Eq. cbn. rewrite Hf. left.
      * apply Hc. right. eauto.
Qed.

Lemma processNextTask_coherent (limit : Z) (s : MediaLoader) :
  consistent limit s → coherent s → coherent (processNextTask s).
Proof.
  intros Hs Hco. unfold processNextTask.
  destruct (taskQueue s) as [|t rest] eqn:Eq; [exact Hco|].
  destruct (activeTasks s <? concurrencyLimit s); [|exact Hco].
  eapply (dequeue_coherent limit s _ t rest); try eassumption; reflexivity.
Qed.

Lemma loadMedia_coherent (limit : Z) (s : MediaLoader) (f : jsstring) :
  consistent limit s → coherent s → coherent (loadMedia f s).2.
Proof.
  intros Hs Hco. unfold loadMedia.
  destruct (loadedBlobs s !! f) eqn:Eb; [exact Hco|].
  destruct (loadingPromises s !! f) eqn:El; [exact Hco|].
  cbv zeta. cbn [snd].
  destruct (fresh_promise limit s Hs) as [Hrun Hq].
  destruct Hco as [Hm Hc].
  remember (length (promises s)) as p eqn:Hp0.
  assert (Hnone : ∀ p', ¬ ((∃ st, running s !! p' = Some (f, st))
                           ∨ {| taskFile := f; taskPromise := p' |} ∈ taskQueue s)).
  { intros p' H. apply Hm in H. congruence. }
  destruct (activeTasks _ <? concurrencyLimit _).
  - split; cbn.
    + intros f' p'. rewrite lookup_insert_Some, Hm. split.
      * intros [[<- <-]|[Hne [[st Hr]|Hq']]].
        -- left. eexists. apply lookup_insert_eq.
        -- left. exists st. rewrite lookup_insert_ne; [exact Hr|].
           intros <-. congruence.
        -- right. exact Hq'.
      * intros [[st Hr]|Hq'].
        -- apply lookup_insert_Some in Hr as [[<- [= <- _]]|[Hne Hr]].
           ++ left. split; reflexivity.
           ++ right. split; [|left; eauto].
              intros <-. apply (Hnone p'). left. eauto.
        -- right. split; [|right; exact Hq'].
           intros <-. apply (Hnone p'). right. exact Hq'.
    + intros f' [Hq'|(p' & e & Hr)].
      * apply Hc. left. exact Hq'.
      * apply lookup_insert_Some in Hr as [[_ [= <- _]]|[Hne Hr]];
          [exact Eb | apply Hc; right; eauto].
  - split; cbn.
    + intros f' p'. rewrite lookup_insert_Some, Hm, elem_of_app,
        list_elem_of_singleton. split.
      * intros [[<- <-]|[Hne [Hr|Hq']]]; [right; right; reflexivity|left; exact Hr|right; left; exact Hq'].
      * intros [Hr|[Hq'|[= <- <-]]].
        -- right. split; [|left; exact Hr].
           intros <-. apply (Hnone p'). left. exact Hr.
        -- right. split; [|right; exact Hq'].
           intros <-. apply (Hnone p'). right. exact Hq'.
        -- left. split; reflexivity.
    + intros f' [Hq'|Hr]; [|apply Hc; right; exact Hr].
      rewrite fmap_app, elem_of_app in Hq'.
      destruct Hq' as [Hq'|Hq']; [apply Hc; left; exact Hq'|].
      cbn in Hq'. apply list_elem_of_singleton in Hq'. subst f'. exact Eb.
Qed.

(** Two tasks in flight for one file are one task. *)
Lemma in_flight_unique (limit : Z) (s : MediaLoader) (f : jsstring)
    (p p' : nat) (st : Stage) :
  consistent limit s → coherent s →
  running s !! p = Some (f, st) →
  (∃ st', running s !! p' = Some (f, st'))
  ∨ {| taskFile := f; taskPromise := p' |} ∈ taskQueue s →
  p' = p ∧ ∃ st', running s !! p' = Some (f, st').
Proof.
  intros Hs [Hm _] Hr H.
  assert (H1 : loadingPromises s !! f = Some p) by (apply Hm; left; eauto).
  assert (H2 : loadingPromises s !! f = Some p') by (apply Hm; exact H).
  assert (p' = p) by congruence. subst p'. split; [reflexivity|eauto].
Qed.

Lemma settle_coherent (limit : Z) (s : MediaLoader) (p : nat)
    (o : option jsstring) :
  consistent limit s → coherent s → coherent (settle p o s).
Proof.
  intros Hs Hco. unfold settle.
  destruct (running s !! p) as [[file stage]|] eqn:Er; [|exact Hco].
  destruct stage as [e| | |]; try exact Hco.
  assert (Hmap : ∀ st s', st ≠ Extracting e →
            loadingPromises s' = loadingPromises s →
            taskQueue s' = taskQueue s →
            running s' = <[p := (file, st)]> (running s) →
            (∀ f, f ≠ file → loadedBlobs s !! f = None →
                  loadedBlobs s' !! f = None) →
            (∀ f, (∀ e', st ≠ Extracting e') → f = file →
                  f ∈ taskFile <$> taskQueue s
                  ∨ (∃ p' e', p' ≠ p ∧ running s !! p' = Some (f, Extracting e')) →
                  False) →
            (∀ e', st ≠ Extracting e') →
            coherent s').
  { intros st s' Hst E1 E3 E4 Hb Hx Hst'.
    pose proof Hco as [Hm Hc].
    split; rewrite ?E1, ?E3, ?E4.
    - intros f p'. rewrite Hm. split.
      + intros [[st' Hr]|Hq]; [|right; exact Hq]. left.
        destruct (decide (p = p')) as [<-|Hne].
        * exists st. rewrite lookup_insert_eq. congruence.
        * exists st'. rewrite lookup_insert_ne by exact Hne. exact Hr.
      + intros [[st' Hr]|Hq]; [|right; exact Hq]. left.
        apply lookup_insert_Some in Hr as [[<- [= <- _]]|[Hne Hr]]; eauto.
    - intros f Hf.
      assert (Hold : f ∈ taskFile <$> taskQueue s
                     ∨ (∃ p' e', p' ≠ p ∧ running s !! p' = Some (f, Extracting e'))).
      { destruct Hf as [Hq|(p' & e' & Hr)]; [left; exact Hq|right].
        apply lookup_insert_Some in Hr as [[_ [= _ Heq]]|[Hne Hr]].
        - exfalso. exact (Hst' e' Heq).
        - exists p', e'. split; [congruence | exact Hr]. }
      destruct (decide (f = file)) as [Heq|Hne].
      + exfalso. exact (Hx f Hst' Heq Hold).
      + apply Hb; [exact Hne|]. apply Hc.
        destruct Hold as [Hq|(p' & e' & _ & Hr)]; [left; exact Hq | right; eauto]. }
  assert (Hfalse : ∀ f, f = file →
            f ∈ taskFile <$> taskQueue s
            ∨ (∃ p' e', p' ≠ p ∧ running s !! p' = Some (f, Extracting e')) →
            False).
  { intros f -> [Hq|(p' & e' & Hne & Hr)].
    - apply list_elem_of_fmap in Hq as (t & Hf & Ht).
      destruct (in_flight_unique limit s file p (taskPromise t) _ Hs Hco Er)
        as [Hp _].
      + right. destruct t; cbn in *. subst. exact Ht.
      + pose proof (cs_queue_fresh _ _ Hs t Ht) as Hfr.
        rewrite Hp in Hfr. congruence.
    - destruct (in_flight_unique limit s file p p' _ Hs Hco Er) as [Hp _];
        [left; eauto | congruence]. }
  destruct o as [url|].
  - eapply (Hmap (Loaded _)); try reflexivity; try discriminate.
    + intros f Hne Hn. cbn. rewrite lookup_insert_ne by congruence. exact Hn.
    + intros f _. apply Hfalse.
  - eapply (Hmap Threw); try reflexivity; try discriminate.
    + intros f _ Hn. exact Hn.
    + intros f _. apply Hfalse.
Qed.

Lemma resume_coherent (limit : Z) (s : MediaLoader) (p : nat) :
  consistent limit s → coherent s → coherent (resume p s).
Proof.
  intros Hs Hco. unfold resume.
  destruct (running s !! p) as [[file stage]|] eqn:Er; [|exact Hco].
  pose proof (cs_pending _ _ Hs p (or_introl (ex_intro _ _ Er))) as Hpend.
  assert (Hgo : ∀ v,
    coherent
      (processNextTask
         (set_running (delete p (running (resolve p v s)))
            (set_loadingPromises
               (delete file (loadingPromises (resolve p v s)))
               (set_activeTasks (activeTasks (resolve p v s) - 1)
                  (resolve p v s)))))).
  { intros v.
    assert (Hres : consistent limit (resume p s))
      by (apply resume_consistent, Hs).
    unfold resolve. rewrite Hpend. cbn.
    set (s2 := set_running _ _).
    assert (Hs2 : consistent limit s2 ∧ coherent s2); [|destruct Hs2; eapply processNextTask_coherent; eassumption].
    assert (Hco2 : coherent s2).
    { pose proof Hco as [Hm Hc]. split; subst s2; cbn.
      - intros f p'. rewrite lookup_delete_Some, Hm. split.
        + intros [Hne [[st Hr]|Hq]]; [left|right; exact Hq].
          exists st. rewrite lookup_delete_ne; [exact Hr|].
          intros <-. congruence.
        + intros H.
          assert (Hold : (∃ st, running s !! p' = Some (f, st))
                         ∨ {| taskFile := f; taskPromise := p' |} ∈ taskQueue s).
          { destruct H as [[st Hr]|Hq]; [left|right; exact Hq].
            apply lookup_delete_Some in Hr as [_ Hr]. eauto. }
          split; [|exact Hold].
          intros <-.
          destruct (in_flight_unique limit s file p p' _ Hs Hco Er Hold)
            as [-> [st' Hr']].
          destruct H as [[st Hr]|Hq].
          * rewrite lookup_delete_eq in Hr. discriminate.
          * pose proof (cs_queue_fresh _ _ Hs _ Hq) as Hfr. cbn in Hfr.
            congruence.
      - intros f [Hq|(p' & e & Hr)]; apply Hc; [left; exact Hq|right].
        apply lookup_delete_Some in Hr as [_ Hr]. eauto. }
    split; [|exact Hco2].
    (* the state before the next task is taken is consistent *)
    destruct Hs as [Hl Ha Hb Hnd Hfr Hp Hrej]. subst s2.
    split; cbn; try assumption.
    - rewrite map_size_delete_Some by eauto.
      assert (size (running s) ≠ 0%nat).
      { intros H0. apply map_size_empty_inv in H0. rewrite H0 in Er.
        rewrite lookup_empty in Er. discriminate. }
      lia.
    - lia.
    - intros t Ht. apply lookup_delete_None. right. apply Hfr, Ht.
    - intros p' Hx.
      assert (Hne : p ≠ p').
      { intros <-. destruct Hx as [[x Hx]|Hx].
        - rewrite lookup_delete_eq in Hx. discriminate.
        - apply list_elem_of_fmap in Hx as (t & -> & Ht).
          specialize (Hfr t Ht). congruence. }
      rewrite list_lookup_insert_ne by exact Hne. apply Hp.
      destruct Hx as [[x Hx]|Hx]; [left|right; exact Hx].
      rewrite lookup_delete_ne in Hx by exact Hne. eauto.
    - intros Hin. apply list_elem_of_lookup in Hin as [i Hi].
      apply list_lookup_insert_Some in Hi as [(_ & [=] & _)|[_ Hi]].
      apply Hrej. eapply list_elem_of_lookup_2, Hi. }
  destruct stage; [exact Hco | apply Hgo ..].
Qed.

Lemma step_coherent (limit : Z) (s : MediaLoader) (e : Event) :
  isCleanup e = false →
  consistent limit s → coherent s → coherent (step s e).
Proof.
  intros He Hs Hco. destruct e as [fe|f|p o|p|f|]; cbn [step].
  - eapply coherent_ext; [..|exact Hco]; reflexivity.
  - eapply loadMedia_coherent; eassumption.
  - eapply settle_coherent; eassumption.
  - eapply resume_coherent; eassumption.
  - unfold revokeMedia. destruct (loadedBlobs s !! f); [|exact Hco].
    destruct Hco as [Hm Hc]. split; cbn; [exact Hm|].
    intros f' Hf'. apply lookup_delete_None. right. apply Hc, Hf'.
  - discriminate.
Qed.

Lemma run_coherent (limit : Z) (tr : list Event) : ∀ s,
  forallb (λ e, negb (isCleanup e)) tr = true →
  consistent limit s → coherent s → coherent (run s tr).
Proof.
  induction tr as [|e tr IH]; intros s Htr Hs Hco; [exact Hco|].
  cbn in Htr. apply andb_prop in Htr as [He Htr].
  apply negb_true_iff in He.
  apply IH; [exact Htr | apply step_consistent, Hs |].
  eapply step_coherent; eassumption.
Qed.
End LoaderFacts.

(** ** The bounded pool *)
Section Pool.
Import Loader.
Context {host : Host}.

(** A call at the ceiling joins the back of the queue; a call under it
    starts its task at once. *)
Lemma loadMedia_new (s : MediaLoader) (f : jsstring) :
  loadedBlobs s !! f = None → loadingPromises s !! f = None →
  let p := length (promises s) in
  let t := {| taskFile := f; taskPromise := p |} in
  let s' := (loadMedia f s).2 in
  (loadMedia f s).1 = Promise p
  ∧ promises s' = promises s ++ [Pending]
  ∧ loadingPromises s' = <[f := p]> (loadingPromises s)
  ∧ (concurrencyLimit s <= activeTasks s →
     taskQueue s' = taskQueue s ++ [t]
     ∧ running s' = running s ∧ activeTasks s' = activeTasks s)
  ∧ (activeTasks s < concurrencyLimit s →
     taskQueue s' = taskQueue s
     ∧ running s' = <[p := (f, doLoadMedia (mediaIndex s) f)]> (running s)
     ∧ activeTasks s' = activeTasks s + 1).
Proof.
  intros Hb Hl. cbv zeta. unfold loadMedia. rewrite Hb, Hl. cbn.
  destruct (Z.ltb_spec (activeTasks s) (concurrencyLimit s));
    repeat split; intros; try lia; reflexivity.
Qed.

(** When a started task finishes, with a value, with [null] or by
    throwing, the task at the head of the queue is started. *)
Lemma resume_dequeues (limit : Z) (s : MediaLoader) (p : nat)
    (f : jsstring) (stage : Stage) (t : Task) (rest : list Task) :
  consistent limit s →
  running s !! p = Some (f, stage) →
  (∀ e, stage ≠ Extracting e) →
  taskQueue s = t :: rest →
  let s' := resume p s in
  taskQueue s' = rest
  ∧ running s' = <[taskPromise t := (taskFile t, doLoadMedia (mediaIndex s) (taskFile t))]>
                   (delete p (running s))
  ∧ activeTasks s' = activeTasks s.
Proof.
  intros Hs Er Hst Eq. cbv zeta.
  pose proof (cs_pending _ _ Hs p (or_introl (ex_intro _ _ Er))) as Hpend.
  assert (Hpos : 1 <= activeTasks s).
  { rewrite (cs_active _ _ Hs).
    assert (size (running s) ≠ 0%nat); [|lia].
    intros H0. apply map_size_empty_inv in H0. rewrite H0 in Er.
    rewrite lookup_empty in Er. discriminate. }
  assert (Hlt : activeTasks s - 1 < concurrencyLimit s).
  { pose proof (cs_bound _ _ Hs). rewrite (cs_limit _ _ Hs). lia. }
  unfold resume. rewrite Er.
  assert (Hgo : ∀ v,
    let s' := processNextTask
         (set_running (delete p (running (resolve p v s)))
            (set_loadingPromises
               (delete f (loadingPromises (resolve p v s)))
               (set_activeTasks (activeTasks (resolve p v s) - 1)
                  (resolve p v s)))) in
    taskQueue s' = rest
    ∧ running s' = <[taskPromise t := (taskFile t, doLoadMedia (mediaIndex s) (taskFile t))]>
                     (delete p (running s))
    ∧ activeTasks s' = activeTasks s).
  { intros v. cbv zeta. unfold resolve. rewrite Hpend.
    unfold processNextTask. cbn. rewrite Eq.
    destruct (Z.ltb_spec (activeTasks s - 1) (concurrencyLimit s)); [|lia].
    cbn. repeat split. lia. }
  destruct stage as [e| | |]; [destruct (Hst e eq_refl) | apply Hgo ..].
Qed.

(** One step pops tasks from the front of the queue and pushes new ones,
    with new promises, at its back. *)
Lemma step_queue (limit : Z) (s : MediaLoader) (e : Event) :
  consistent limit s →
  (length (promises s) ≤ length (promises (step s e)))%nat
  ∧ ∃ k ext, taskQueue (step s e) = drop k (taskQueue s) ++ ext
             ∧ ∀ t, t ∈ ext → (length (promises s) ≤ taskPromise t)%nat.
Proof.
  intros Hs.
  assert (Hsame : ∀ s', promises s' = promises s → taskQueue s' = taskQueue s →
            (length (promises s) ≤ length (promises s'))%nat
            ∧ ∃ k ext, taskQueue s' = drop k (taskQueue s) ++ ext
                       ∧ ∀ t, t ∈ ext → (length (promises s) ≤ taskPromise t)%nat).
  { intros s' -> ->. split; [lia|]. exists 0%nat, [].
    rewrite drop_0, app_nil_r. split; [reflexivity|]. intros t Ht. inversion Ht. }
  destruct e as [fe|f|p o|p|f|]; cbn [step].
  - apply Hsame; reflexivity.
  - unfold loadMedia.
    destruct (loadedBlobs s !! f); [apply Hsame; reflexivity|].
    destruct (loadingPromises s !! f); [apply Hsame; reflexivity|].
    cbn. destruct (activeTasks s <? concurrencyLimit s); cbn.
    + rewrite length_app. split; [lia|]. exists 0%nat, [].
      rewrite drop_0, app_nil_r. split; [reflexivity|]. intros t Ht. inversion Ht.
    + rewrite length_app. split; [lia|]. exists 0%nat. eexists.
      rewrite drop_0. split; [reflexivity|].
      intros t Ht. apply list_elem_of_singleton in Ht. subst t. cbn. lia.
  - unfold settle. destruct (running s !! p) as [[file stage]|];
      [|apply Hsame; reflexivity].
    destruct stage; try (apply Hsame; reflexivity).
    destruct o; apply Hsame; reflexivity.
  - unfold resume.
    destruct (running s !! p) as [[file stage]|] eqn:Er;
      [|apply Hsame; reflexivity].
    pose proof (cs_pending _ _ Hs p (or_introl (ex_intro _ _ Er))) as Hpend.
    assert (Hgo : ∀ v,
      let s' := processNextTask
           (set_running (delete p (running (resolve p v s)))
              (set_loadingPromises
                 (delete file (loadingPromises (resolve p v s)))
                 (set_activeTasks (activeTasks (resolve p v s) - 1)
                    (resolve p v s)))) in
      (length (promises s) ≤ length (promises s'))%nat
      ∧ ∃ k ext, taskQueue s' = drop k (taskQueue s) ++ ext
                 ∧ ∀ t, t ∈ ext → (length (promises s) ≤ taskPromise t)%nat).
    { intros v. cbv zeta. unfold resolve. rewrite Hpend.
      unfold processNextTask. cbn.
      destruct (taskQueue s) as [|t rest] eqn:Eq; cbn; rewrite ?Eq.
      - rewrite length_insert. split; [lia|]. exists 0%nat, [].
        split; [reflexivity|]. intros t Ht. inversion Ht.
      - destruct (activeTasks s - 1 <? concurrencyLimit s); cbn; rewrite ?Eq;
          rewrite length_insert; (split; [lia|]).
        + exists 1%nat, []. cbn. rewrite drop_0, app_nil_r.
          split; [reflexivity|]. intros t' Ht. inversion Ht.
        + exists 0%nat, []. cbn. rewrite app_nil_r.
          split; [reflexivity|]. intros t' Ht. inversion Ht. }
    destruct stage; [apply Hsame; reflexivity | apply Hgo ..].
  - unfold revokeMedia. destruct (loadedBlobs s !! f); apply Hsame; reflexivity.
  - apply Hsame; reflexivity.
Qed.

Lemma run_queue (limit : Z) (tr : list Event) : ∀ s,
  consistent limit s →
  (length (promises s) ≤ length (promises (run s tr)))%nat
  ∧ ∃ k ext, taskQueue (run s tr) = drop k (taskQueue s) ++ ext
             ∧ ∀ t, t ∈ ext → (length (promises s) ≤ taskPromise t)%nat.
Proof.
  induction tr as [|e tr IH]; intros s Hs.
  - split; [reflexivity|]. exists 0%nat, []. cbn. rewrite app_nil_r.
    split; [reflexivity|]. intros t Ht. inversion Ht.
  - cbn [run fold_left].
    destruct (step_queue limit s e Hs) as (Hlen & k & ext & Hq & Hext).
    destruct (IH (step s e) (step_consistent limit s e Hs))
      as (Hlen' & k' & ext' & Hq' & Hext').
    split; [unfold run in *; lia|].
    exists (k + k')%nat, (drop (k' - length (drop k (taskQueue s))) ext ++ ext').
    split.
    + unfold run in *. rewrite Hq', Hq, drop_app, drop_drop, <- app_assoc.
      reflexivity.
    + intros t Ht. apply elem_of_app in Ht as [Ht|Ht].
      * apply Hext. eapply subseteq_drop, Ht.
      * specialize (Hext' t Ht). lia.
Qed.

(** No overtaking: of two queued tasks, the one behind is still queued
    whenever the one ahead is. *)
Lemma queue_order_kept (limit : Z) (s : MediaLoader) (tr : list Event)
    (q1 q2 q3 : list Task) (a b : Task) :
  consistent limit s →
  taskQueue s = q1 ++ a :: q2 ++ b :: q3 →
  a ∈ taskQueue (run s tr) → b ∈ taskQueue (run s tr).
Proof.
  intros Hs Eq Ha.
  destruct (run_queue limit tr s Hs) as (_ & k & ext & Hq & Hext).
  rewrite Hq in Ha |- *. apply elem_of_app. left.
  assert (Hold : ∀ t, t ∈ taskQueue s → (taskPromise t < length (promises s))%nat).
  { intros t Ht. eapply lookup_lt_Some, (cs_pending _ _ Hs). right.
    apply list_elem_of_fmap_2, Ht. }
  apply elem_of_app in Ha as [Ha|Ha].
  - pose proof (cs_queue_nodup _ _ Hs) as Hnd.
    apply NoDup_fmap_1 in Hnd. rewrite Eq in Hnd, Ha |- *.
    destruct (decide (k ≤ length q1)%nat) as [Hk|Hk].
    + rewrite drop_app_le by exact Hk. apply elem_of_app. right.
      right. apply elem_of_app. right. left.
    + exfalso. rewrite drop_app_ge in Ha by lia.
      apply NoDup_app in Hnd as (_ & _ & Hnd). apply NoDup_cons in Hnd as [Hna _].
      destruct (k - length q1)%nat as [|k'] eqn:Ek; [lia|].
      cbn in Ha. apply Hna. eapply subseteq_drop, Ha.
  - exfalso. specialize (Hext a Ha).
    assert (a ∈ taskQueue s) by (rewrite Eq; apply elem_of_app; right; left).
    specialize (Hold a H). lia.
Qed.

(** C6. In every state the loader reaches, the counter of active tasks is
    the number of started, unfinished tasks and does not exceed the
    ceiling (5 for the global loader). A request for a new file made at
    the ceiling starts nothing and joins the back of the queue. When an
    active task finishes, whatever its outcome, the task at the front of
    the queue is started in its place. Queued tasks never overtake one
    another. *)
Theorem concurrency_ceiling_fifo :
  (∀ limit tr,
     let s := run (newMediaLoader limit) tr in
     concurrencyLimit s = limit
     ∧ activeTasks s = Z.of_nat (size (running s))
     ∧ Z.of_nat (size (running s)) <= Z.max 0 limit)
  ∧ (∀ tr, (size (running (run mediaLoader tr)) ≤ 5)%nat)
  ∧ (∀ limit tr f,
       let s := run (newMediaLoader limit) tr in
       loadedBlobs s !! f = None → loadingPromises s !! f = None →
       limit <= Z.of_nat (size (running s)) →
       let s' := step s (LoadMedia f) in
       taskQueue s'
       = taskQueue s ++ [{| taskFile := f; taskPromise := length (promises s) |}]
       ∧ running s' = running s)
  ∧ (∀ limit tr p f stage t rest,
       let s := run (newMediaLoader limit) tr in
       running s !! p = Some (f, stage) →
       (∀ e, stage ≠ Extracting e) →
       taskQueue s = t :: rest →
       let s' := step s (Resume p) in
       taskQueue s' = rest
       ∧ running s' !! p = None
       ∧ is_Some (running s' !! taskPromise t)
       ∧ size (running s') = size (running s))
  ∧ (∀ limit tr tr' q1 q2 q3 a b,
       let s := run (newMediaLoader limit) tr in
       taskQueue s = q1 ++ a :: q2 ++ b :: q3 →
       a ∈ taskQueue (run s tr') → b ∈ taskQueue (run s tr')).
Proof.
  assert (Hreach : ∀ limit tr, consistent limit (run (newMediaLoader limit) tr))
    by (intros; apply run_consistent, consistent_new).
  split; [|split; [|split; [|split]]].
  - intros limit tr s. destruct (Hreach limit tr) as [Hl Ha Hb _ _ _ _].
    subst s. rewrite <- Ha. auto.
  - intros tr. destruct (Hreach 5 tr) as [_ Ha Hb _ _ _ _].
    unfold mediaLoader. lia.
  - intros limit tr f s Hb Hl Hceil s'. subst s'. cbn [step].
    pose proof (Hreach limit tr) as Hs. fold s in Hs.
    destruct (loadMedia_new s f Hb Hl) as (_ & _ & _ & Hq & _).
    destruct Hq as (H1 & H2 & _); [|split; assumption].
    rewrite (cs_limit _ _ Hs), (cs_active _ _ Hs). exact Hceil.
  - intros limit tr p f stage t rest s Er Hst Eq s'. subst s'. cbn [step].
    pose proof (Hreach limit tr) as Hs. fold s in Hs.
    destruct (resume_dequeues limit s p f stage t rest Hs Er Hst Eq)
      as (H1 & H2 & H3).
    pose proof (cs_queue_fresh _ _ Hs t) as Hfr. rewrite Eq in Hfr.
    specialize (Hfr (list_elem_of_here _ _)).
    assert (Hne : taskPromise t ≠ p) by (intros Heq; congruence).
    split; [exact H1|]. rewrite H2. split; [|split].
    + rewrite lookup_insert_ne by exact Hne. apply lookup_delete_eq.
    + rewrite lookup_insert_eq. eauto.
    + rewrite map_size_insert_None
        by (rewrite lookup_delete_ne by congruence; exact Hfr).
      rewrite map_size_delete_Some by eauto.
      assert (size (running s) ≠ 0%nat); [|lia].
      intros H0. apply map_size_empty_inv in H0. rewrite H0 in Er.
      rewrite lookup_empty in Er. discriminate.
  - intros limit tr tr' q1 q2 q3 a b s. apply (queue_order_kept limit).
    apply Hreach.
Qed.

End Pool.

Section PoolSamples.
Import Loader.
#[local] Existing Instance sampleHost.

Lemma concurrency_ceiling_fifo_witness :
  (let s := run (newMediaLoader 5) sampleRequests in
   let s' := step s (LoadMedia (str "h.jpg")) in
   taskQueue s'
   = taskQueue s
     ++ [{| taskFile := str "h.jpg"; taskPromise := length (promises s) |}]
   ∧ running s' = running s)
  ∧ (let s := run (newMediaLoader 5) (sampleRequests ++ [Settle 0 None]) in
     let s' := step s (Resume 0) in
     taskQueue s' = [{| taskFile := str "g.jpg"; taskPromise := 6 |}]
     ∧ running s' !! 0%nat = None
     ∧ is_Some (running s'
                !! taskPromise {| taskFile := str "f.jpg"; taskPromise := 5 |})
     ∧ size (running s') = size (running s)).
Proof.
  destruct concurrency_ceiling_fifo as (_ & _ & Henq & Hdeq & _).
  split.
  - apply (Henq 5 sampleRequests (str "h.jpg")).
    + vm_compute. reflexivity.
    + vm_compute. reflexivity.
    + vm_compute. discriminate.
  - apply (Hdeq 5 (sampleRequests ++ [Settle 0 None]) 0%nat (str "a.jpg") Threw
             {| taskFile := str "f.jpg"; taskPromise := 5 |}
             [{| taskFile := str "g.jpg"; taskPromise := 6 |}]).
    + vm_compute. reflexivity.
    + discriminate.
    + vm_compute. reflexivity.
Defined.

End PoolSamples.

(** ** Failures *)
Section Failures.
Import Loader.
Context {host : Host}.

(** What the continuation of a settled task leaves behind. *)
Lemma resume_fields (limit : Z) (s : MediaLoader) (p : nat) (f : jsstring)
    (stage : Stage) :
  consistent limit s →
  running s !! p = Some (f, stage) →
  (∀ e, stage ≠ Extracting e) →
  let s' := resume p s in
  promises s'
  = <[p := Fulfilled (match stage with Loaded m => Some m | _ => None end)]>
      (promises s)
  ∧ loadingPromises s' = delete f (loadingPromises s)
  ∧ loadedBlobs s' = loadedBlobs s
  ∧ match taskQueue s with
    | [] => taskQueue s' = [] ∧ running s' = delete p (running s)
            ∧ activeTasks s' = activeTasks s - 1
    | t :: rest =>
        taskQueue s' = rest
        ∧ running s'
          = <[taskPromise t :=
                (taskFile t, doLoadMedia (mediaIndex s) (taskFile t))]>
              (delete p (running s))
        ∧ activeTasks s' = activeTasks s
    end.
Proof.
  intros Hs Er Hst. cbv zeta.
  pose proof (cs_pending _ _ Hs p (or_introl (ex_intro _ _ Er))) as Hpend.
  assert (Hpos : 1 <= activeTasks s).
  { rewrite (cs_active _ _ Hs).
    assert (size (running s) ≠ 0%nat); [|lia].
    intros H0. apply map_size_empty_inv in H0. rewrite H0 in Er.
    rewrite lookup_empty in Er. discriminate. }
  assert (Hlt : activeTasks s - 1 < concurrencyLimit s).
  { pose proof (cs_bound _ _ Hs). rewrite (cs_limit _ _ Hs). lia. }
  unfold resume. rewrite Er.
  assert (Hgo : ∀ v,
    let s' := processNextTask
         (set_running (delete p (running (resolve p v s)))
            (set_loadingPromises
               (delete f (loadingPromises (resolve p v s)))
               (set_activeTasks (activeTasks (resolve p v s) - 1)
                  (resolve p v s)))) in
    promises s' = <[p := Fulfilled v]> (promises s)
    ∧ loadingPromises s' = delete f (loadingPromises s)
    ∧ loadedBlobs s' = loadedBlobs s
    ∧ match taskQueue s with
      | [] => taskQueue s' = [] ∧ running s' = delete p (running s)
              ∧ activeTasks s' = activeTasks s - 1
      | t :: rest =>
          taskQueue s' = rest
          ∧ running s'
            = <[taskPromise t :=
                  (taskFile t, doLoadMedia (mediaIndex s) (taskFile t))]>
                (delete p (running s))
          ∧ activeTasks s' = activeTasks s
      end).
  { intros v. cbv zeta. unfold resolve. rewrite Hpend.
    unfold processNextTask. cbn.
    destruct (taskQueue s) as [|t rest] eqn:Eq; cbn; rewrite ?Eq.
    - repeat split.
    - destruct (Z.ltb_spec (activeTasks s - 1) (concurrencyLimit s)); [|lia].
      cbn. repeat split. lia. }
  destruct stage as [e| | |]; [destruct (Hst e eq_refl) | apply Hgo ..].
Qed.

Lemma settle_throws (s : MediaLoader) (p : nat) (f : jsstring) (e : MediaEntry) :
  running s !! p = Some (f, Extracting e) →
  let s' := settle p None s in
  running s' = <[p := (f, Threw)]> (running s)
  ∧ promises s' = promises s ∧ loadingPromises s' = loadingPromises s
  ∧ loadedBlobs s' = loadedBlobs s ∧ taskQueue s' = taskQueue s
  ∧ activeTasks s' = activeTasks s ∧ mediaIndex s' = mediaIndex s.
Proof. intros Er. cbv zeta. unfold settle. rewrite Er. repeat split. Qed.

(** C7. No promise of [loadMedia] is ever rejected. When the read of the
    entry of a started task throws, the task ends by fulfilling its
    promise with [null], leaving the started tasks and the in-flight
    map, and giving its place to the task at the front of the queue when
    there is one; the active count goes down by one when there is none.
    The cache, the other started tasks, the other entries of the
    in-flight map and the other promises are as they were. *)
Theorem loadMedia_never_rejects :
  (∀ limit tr, Rejected ∉ promises (run (newMediaLoader limit) tr))
  ∧ (∀ limit tr p f e,
       let s := run (newMediaLoader limit) tr in
       running s !! p = Some (f, Extracting e) →
       let s1 := step s (Settle p None) in
       let s2 := step s1 (Resume p) in
       running s1 !! p = Some (f, Threw)
       ∧ promises s !! p = Some Pending
       ∧ promises s2 !! p = Some (Fulfilled None)
       ∧ running s2 !! p = None
       ∧ loadingPromises s2 !! f = None
       ∧ match taskQueue s with
         | [] => taskQueue s2 = [] ∧ activeTasks s2 = activeTasks s - 1
         | t :: rest =>
             taskQueue s2 = rest ∧ activeTasks s2 = activeTasks s
             ∧ is_Some (running s2 !! taskPromise t)
         end
       ∧ loadedBlobs s2 = loadedBlobs s
       ∧ (∀ p' x, p' ≠ p → running s !! p' = Some x →
                  running s2 !! p' = Some x)
       ∧ (∀ f', f' ≠ f → loadingPromises s2 !! f' = loadingPromises s !! f')
       ∧ (∀ p', p' ≠ p → promises s2 !! p' = promises s !! p')).
Proof.
  assert (Hreach : ∀ limit tr, consistent limit (run (newMediaLoader limit) tr))
    by (intros; apply run_consistent, consistent_new).
  split; [intros limit tr; apply (cs_no_reject _ _ (Hreach limit tr))|].
  intros limit tr p f e s Er s1 s2.
  pose proof (Hreach limit tr) as Hs. fold s in Hs.
  pose proof (cs_pending _ _ Hs p (or_introl (ex_intro _ _ Er))) as Hpend.
  pose proof (settle_throws s p f e Er) as Hthrow. cbv zeta in Hthrow.
  subst s2 s1. cbn [step].
  assert (Hs1 : consistent limit (settle p None s))
    by (apply (step_consistent limit s (Settle p None)), Hs).
  remember (settle p None s) as s1 eqn:Es1.
  destruct Hthrow as (R1 & P1 & L1 & B1 & Q1 & A1 & I1).
  assert (Er1 : running s1 !! p = Some (f, Threw))
    by (rewrite R1; apply lookup_insert_eq).
  pose proof (resume_fields limit s1 p f Threw Hs1 Er1) as Hres.
  cbv zeta in Hres.
  remember (resume p s1) as s2 eqn:Es2.
  destruct Hres as (P2 & L2 & B2 & Hq); [discriminate|].
  assert (Hfresh : ∀ t, t ∈ taskQueue s → taskPromise t ≠ p).
  { intros t Ht Heq. pose proof (cs_queue_fresh _ _ Hs t Ht) as Hfr.
    rewrite Heq in Hfr. congruence. }
  assert (Hrun2 : ∀ p', p' ≠ p → ∀ x, running s !! p' = Some x →
                        running s2 !! p' = Some x
                        ∧ (running s2 !! p = None)).
  { intros p' Hne x Hx. rewrite Q1 in Hq.
    destruct (taskQueue s) as [|t rest] eqn:Eq.
    - destruct Hq as (_ & -> & _). rewrite R1. split.
      + rewrite lookup_delete_ne, lookup_insert_ne by congruence. exact Hx.
      + apply lookup_delete_eq.
    - destruct Hq as (_ & -> & _). rewrite R1.
      assert (taskPromise t ≠ p) by (apply Hfresh; left).
      assert (taskPromise t ≠ p').
      { intros Heq. pose proof (cs_queue_fresh _ _ Hs t) as Hfr.
        rewrite Eq in Hfr. specialize (Hfr (list_elem_of_here _ _)).
        congruence. }
      split.
      + rewrite lookup_insert_ne, lookup_delete_ne, lookup_insert_ne
          by congruence. exact Hx.
      + rewrite lookup_insert_ne by congruence. apply lookup_delete_eq. }
  split; [exact Er1|]. split; [exact Hpend|].
  split; [rewrite P2, P1; apply list_lookup_insert_eq;
          eapply lookup_lt_Some, Hpend|].
  split.
  { rewrite Q1 in Hq. destruct (taskQueue s) as [|t rest] eqn:Eq.
    - destruct Hq as (_ & -> & _). apply lookup_delete_eq.
    - destruct Hq as (_ & -> & _).
      rewrite lookup_insert_ne by (apply Hfresh; left).
      apply lookup_delete_eq. }
  split; [rewrite L2; apply lookup_delete_eq|].
  split.
  { rewrite Q1 in Hq. destruct (taskQueue s) as [|t rest] eqn:Eq.
    - destruct Hq as (-> & _ & ->). split; [reflexivity | lia].
    - destruct Hq as (-> & -> & ->). split; [reflexivity|]. split; [lia|].
      rewrite lookup_insert_eq. eauto. }
  split; [congruence|].
  split; [intros p' x Hne Hx; apply (Hrun2 p' Hne x Hx)|].
  split; [intros f' Hne; rewrite L2, L1; apply lookup_delete_ne; congruence|].
  intros p' Hne. rewrite P2, P1. apply list_lookup_insert_ne. congruence.
Qed.

End Failures.

Section FailuresSamples.
Import Loader.
#[local] Existing Instance sampleHost.

Lemma loadMedia_never_rejects_witness :
  let s := run (newMediaLoader 5) sampleRequests in
  let s2 := step (step s (Settle 0 None)) (Resume 0) in
  promises s2 !! 0%nat = Some (Fulfilled None)
  ∧ running s2 !! 0%nat = None
  ∧ loadingPromises s2 !! str "a.jpg" = None.
Proof.
  destruct loadMedia_never_rejects as [_ H].
  destruct (H 5 sampleRequests 0%nat (str "a.jpg")
              {| zipEntry := {| zipName := str "a.jpg"; zipDir := false |};
                 fullPath := str "a.jpg" |})
    as (_ & _ & H1 & H2 & H3 & _).
  - vm_compute. reflexivity.
  - exact (conj H1 (conj H2 H3)).
Defined.

End FailuresSamples.

(** ** One task per file *)
Section Coalescing.
Import Loader.
Context {host : Host}.

Lemma step_keeps_fulfilled (s : MediaLoader) (e : Event) (p : nat)
    (v : option LoadedMedia) :
  promises s !! p = Some (Fulfilled v) →
  promises (step s e) !! p = Some (Fulfilled v).
Proof.
  intros Hp. destruct e as [fe|f|p0 o|p0|f|]; cbn [step].
  - exact Hp.
  - unfold loadMedia.
    destruct (loadedBlobs s !! f); [exact Hp|].
    destruct (loadingPromises s !! f); [exact Hp|].
    cbn. destruct (activeTasks s <? concurrencyLimit s); cbn;
      apply lookup_app_l_Some, Hp.
  - unfold settle. destruct (running s !! p0) as [[file stage]|]; [|exact Hp].
    destruct stage; try exact Hp. destruct o; exact Hp.
  - unfold resume. destruct (running s !! p0) as [[file stage]|]; [|exact Hp].
    assert (Hgo : ∀ v0,
      promises (processNextTask
         (set_running (delete p0 (running (resolve p0 v0 s)))
            (set_loadingPromises
               (delete file (loadingPromises (resolve p0 v0 s)))
               (set_activeTasks (activeTasks (resolve p0 v0 s) - 1)
                  (resolve p0 v0 s))))) !! p = Some (Fulfilled v)).
    { intros v0.
      assert (Hres : promises (resolve p0 v0 s) !! p = Some (Fulfilled v)).
      { unfold resolve. destruct (promises s !! p0) as [[| |]|] eqn:E0;
          try exact Hp.
        cbn. rewrite list_lookup_insert_ne; [exact Hp | congruence]. }
      unfold processNextTask. cbn.
      destruct (taskQueue (resolve p0 v0 s)); [exact Hres|].
      destruct (_ <? _); exact Hres. }
    destruct stage; [exact Hp | apply Hgo ..].
  - unfold revokeMedia. destruct (loadedBlobs s !! f); exact Hp.
  - exact Hp.
Qed.

Lemma run_keeps_fulfilled (tr : list Event) : ∀ (s : MediaLoader) (p : nat)
    (v : option LoadedMedia),
  promises s !! p = Some (Fulfilled v) →
  promises (run s tr) !! p = Some (Fulfilled v).
Proof.
  induction tr as [|e tr IH]; intros s p v Hp; [exact Hp|].
  apply IH, step_keeps_fulfilled, Hp.
Qed.

Lemma inFlight_NoDup (limit : Z) (s : MediaLoader) :
  consistent limit s → coherent s → NoDup (inFlight s).
Proof.
  intros Hs Hco. unfold inFlight, runningFiles.
  apply NoDup_app. split; [|split].
  - apply NoDup_fmap_2_strong; [|apply NoDup_map_to_list].
    intros [p [f st]] [p' [f' st']] H1 H2 Heq. cbn in Heq. subst f'.
    apply elem_of_map_to_list in H1, H2.
    destruct (in_flight_unique limit s f p p' st Hs Hco H1) as [-> _];
      [left; eauto|].
    congruence.
  - intros f Hr Hq.
    apply list_elem_of_fmap in Hr as ([p [f' st]] & Hf & Hr). cbn in Hf.
    subst f'. apply elem_of_map_to_list in Hr.
    apply list_elem_of_fmap in Hq as (t & Hf & Ht).
    destruct (in_flight_unique limit s f p (taskPromise t) st Hs Hco Hr)
      as [Hp _].
    + right. destruct t; cbn in *. subst. exact Ht.
    + pose proof (cs_queue_fresh _ _ Hs t Ht) as Hfr. rewrite Hp in Hfr.
      congruence.
  - apply NoDup_fmap_2_strong;
      [|eapply NoDup_fmap_1, (cs_queue_nodup _ _ Hs)].
    intros [f p] [f' p'] H1 H2 Heq. cbn in Heq. subst f'.
    assert (E1 : loadingPromises s !! f = Some p)
      by (apply (co_map _ Hco); right; exact H1).
    assert (E2 : loadingPromises s !! f = Some p')
      by (apply (co_map _ Hco); right; exact H2).
    congruence.
Qed.

Lemma quiescent_fields (s : MediaLoader) :
  inFlight s = [] → running s = ∅ ∧ taskQueue s = [].
Proof.
  unfold inFlight, runningFiles. intros H.
  apply app_eq_nil in H as [Hr Hq].
  apply fmap_nil_inv in Hr, Hq. split; [|exact Hq].
  apply map_to_list_empty_iff. exact Hr.
Qed.

Lemma cleanup_coherent (s : MediaLoader) :
  inFlight s = [] → coherent (cleanup s).
Proof.
  intros H. apply quiescent_fields in H as [Hr Hq]. split; cbn.
  - intros f p. rewrite lookup_empty, Hr, Hq. split; [discriminate|].
    intros [[st Hst]|Hin]; [rewrite lookup_empty in Hst; discriminate|].
    inversion Hin.
  - intros f _. apply lookup_empty.
Qed.

Lemma run_coherent_calm (limit : Z) (tr : list Event) : ∀ s,
  calm s tr = true →
  consistent limit s → coherent s → coherent (run s tr).
Proof.
  induction tr as [|e tr IH]; intros s Htr Hs Hco; [exact Hco|].
  cbn [calm] in Htr. apply andb_prop in Htr as [He Htr].
  apply IH; [exact Htr | apply step_consistent, Hs |].
  destruct (isCleanup e) eqn:Ec.
  - destruct e; try discriminate. cbn [negb orb] in He.
    apply bool_decide_eq_true in He. apply cleanup_coherent, He.
  - eapply step_coherent; eassumption.
Qed.

Lemma calm_without_cleanup (tr : list Event) : ∀ s,
  forallb (λ e, negb (isCleanup e)) tr = true → calm s tr = true.
Proof.
  induction tr as [|e tr IH]; intros s H; [reflexivity|].
  cbn [forallb] in H. apply andb_prop in H as [He H].
  cbn [calm]. rewrite He, (IH _ H). reflexivity.
Qed.

(** What [cleanup] does to a file whose entry is being read: the next
    request for the file gets a new promise and a second task. *)
Lemma cleanup_then_loadMedia (limit : Z) (s : MediaLoader) (f : jsstring)
    (p : nat) (e : MediaEntry) :
  consistent limit s →
  running s !! p = Some (f, Extracting e) →
  let q := length (promises s) in
  let s' := (loadMedia f (cleanup s)).2 in
  promises s !! p = Some Pending
  ∧ (loadMedia f (cleanup s)).1 = Promise q
  ∧ q ≠ p
  ∧ promises s' !! p = Some Pending
  ∧ promises s' !! q = Some Pending
  ∧ running s' !! p = Some (f, Extracting e)
  ∧ ((∃ st, running s' !! q = Some (f, st))
     ∨ {| taskFile := f; taskPromise := q |} ∈ taskQueue s')
  ∧ ¬ NoDup (inFlight s').
Proof.
  intros Hs Hp q s'.
  assert (Hpend : promises s !! p = Some Pending)
    by (apply (cs_pending _ _ Hs); left; eauto).
  assert (Hq : q ≠ p).
  { intros <-. apply lookup_lt_Some in Hpend. unfold q in Hpend. lia. }
  destruct (fresh_promise limit s Hs) as [Hfresh _]. fold q in Hfresh.
  destruct (loadMedia_new (cleanup s) f (lookup_empty _) (lookup_empty _))
    as (Hr & Hps & _ & Hfull & Hfree).
  cbn [cleanup set_loadingPromises set_loadedBlobs promises taskQueue running
       activeTasks concurrencyLimit mediaIndex] in Hr, Hps, Hfull, Hfree.
  fold s' in Hps, Hfull, Hfree. fold q in Hr, Hfull, Hfree.
  assert (Hin : f ∈ runningFiles s).
  { unfold runningFiles. apply list_elem_of_fmap. exists (p, (f, Extracting e)).
    split; [reflexivity|]. apply elem_of_map_to_list. exact Hp. }
  split; [exact Hpend|]. split; [exact Hr|]. split; [exact Hq|].
  split; [rewrite Hps; apply lookup_app_l_Some, Hpend|].
  split; [rewrite Hps; apply list_lookup_middle; reflexivity|].
  destruct (Z.lt_ge_cases (activeTasks s) (concurrencyLimit s)) as [Hlt|Hge].
  - destruct (Hfree Hlt) as (Hqu & Hrun & _).
    split; [rewrite Hrun, lookup_insert_ne by exact Hq; exact Hp|].
    split; [left; rewrite Hrun, lookup_insert_eq; eauto|].
    unfold inFlight, runningFiles. rewrite Hrun, Hqu.
    rewrite (map_to_list_insert _ _ _ Hfresh). cbn [fmap list_fmap].
    intros Hnd. apply NoDup_cons in Hnd as [Hnot _]. apply Hnot.
    apply elem_of_app. left. exact Hin.
  - destruct (Hfull Hge) as (Hqu & Hrun & _).
    split; [rewrite Hrun; exact Hp|].
    split; [right; rewrite Hqu; apply elem_of_app; right;
            apply list_elem_of_here|].
    unfold inFlight. rewrite Hqu. fold (runningFiles s').
    replace (runningFiles s') with (runningFiles s)
      by (unfold runningFiles; rewrite Hrun; reflexivity).
    intros Hnd. apply NoDup_app in Hnd as (_ & Hdis & _).
    apply (Hdis f Hin). rewrite fmap_app. apply elem_of_app. right.
    apply list_elem_of_here.
Qed.

(** C5, a defect of the code. [cleanup] empties the in-flight map and
    stops no task. When it is called while the entry of a file is being
    read (the viewer calls it whenever an archive is opened), the next
    [loadMedia] for that file does not return the pending promise of the
    first call: it makes a new promise and a second task for the file,
    started or queued, so two tasks for one file are in flight. In the
    sample run, [loadMedia], [cleanup] and [loadMedia] for [a.jpg], two
    tasks read the entry at once and the two callers get two different
    resources. *)
Theorem cleanup_breaks_in_flight_dedup :
  (∀ limit tr f p e,
     let s := run (newMediaLoader limit) tr in
     running s !! p = Some (f, Extracting e) →
     let q := length (promises s) in
     let s' := (loadMedia f (cleanup s)).2 in
     promises s !! p = Some Pending
     ∧ (loadMedia f (cleanup s)).1 = Promise q
     ∧ q ≠ p
     ∧ promises s' !! p = Some Pending
     ∧ promises s' !! q = Some Pending
     ∧ running s' !! p = Some (f, Extracting e)
     ∧ ((∃ st, running s' !! q = Some (f, st))
        ∨ {| taskFile := f; taskPromise := q |} ∈ taskQueue s')
     ∧ ¬ NoDup (inFlight s'))
  ∧ (∀ s f, (step s Cleanup) = cleanup s
            ∧ loadingPromises (cleanup s) !! f = None
            ∧ running (cleanup s) = running s
            ∧ taskQueue (cleanup s) = taskQueue s
            ∧ activeTasks (cleanup s) = activeTasks s).
Proof.
  split.
  - intros limit tr f p e s Hp.
    apply (cleanup_then_loadMedia limit s f p e); [|exact Hp].
    apply run_consistent, consistent_new.
  - intros s f. repeat split.
Qed.

(** X26. Coalescing holds as long as [cleanup] is called only while no
    task is in flight, as when an archive is opened after the media of
    the one before have all been loaded: then, in every state the loader
    reaches, the files of the tasks in flight are distinct, and the
    in-flight map lists exactly those tasks. A call of [loadMedia] for a
    file of the in-flight map changes nothing, so it starts no task, and
    the promise of that file is pending; while the task is queued or
    extracting the call returns that promise. A promise, once fulfilled,
    keeps its value, so all the holders of a promise get one result. A
    trace without [cleanup] is such a trace. *)
Theorem in_flight_dedup_with_quiescent_cleanup (limit : Z) (tr : list Event) :
  calm (newMediaLoader limit) tr = true
  ∨ forallb (λ e, negb (isCleanup e)) tr = true →
  let s := run (newMediaLoader limit) tr in
  NoDup (inFlight s)
  ∧ (∀ f p, loadingPromises s !! f = Some p
            ↔ (∃ st, running s !! p = Some (f, st))
              ∨ {| taskFile := f; taskPromise := p |} ∈ taskQueue s)
  ∧ (∀ f p, loadingPromises s !! f = Some p →
            (loadMedia f s).2 = s ∧ promises s !! p = Some Pending)
  ∧ (∀ f p, {| taskFile := f; taskPromise := p |} ∈ taskQueue s
            ∨ (∃ e, running s !! p = Some (f, Extracting e)) →
            loadMedia f s = (Promise p, s))
  ∧ (∀ p v tr', promises s !! p = Some (Fulfilled v) →
                promises (run s tr') !! p = Some (Fulfilled v)).
Proof.
  intros Htr s.
  assert (Hcalm : calm (newMediaLoader limit) tr = true).
  { destruct Htr as [H|H]; [exact H|apply calm_without_cleanup, H]. }
  assert (Hs : consistent limit s) by (apply run_consistent, consistent_new).
  assert (Hco : coherent s).
  { apply (run_coherent_calm limit);
      [exact Hcalm | apply consistent_new | apply coherent_new]. }
  split; [exact (inFlight_NoDup limit s Hs Hco)|].
  split; [exact (co_map _ Hco)|].
  split; [|split].
  - intros f p Hl. split.
    + unfold loadMedia. destruct (loadedBlobs s !! f); [reflexivity|].
      rewrite Hl. reflexivity.
    + apply (cs_pending _ _ Hs). apply (co_map _ Hco) in Hl.
      destruct Hl as [[st Hr]|Hq]; [left; eauto|right].
      apply (list_elem_of_fmap_2 taskPromise) in Hq. exact Hq.
  - intros f p H.
    assert (Hl : loadingPromises s !! f = Some p).
    { apply (co_map _ Hco). destruct H as [Hq|[e Hr]]; [right; exact Hq | left; eauto]. }
    assert (Hb : loadedBlobs s !! f = None).
    { apply (co_cache _ Hco). destruct H as [Hq|[e Hr]]; [left|right; eauto].
      apply (list_elem_of_fmap_2 taskFile) in Hq. exact Hq. }
    unfold loadMedia. rewrite Hb, Hl. reflexivity.
  - intros p v tr'. apply run_keeps_fulfilled.
Qed.

End Coalescing.

Section CoalescingSamples.
Import Loader.
#[local] Existing Instance sampleHost.

Lemma cleanup_breaks_in_flight_dedup_witness :
  let f := str "a.jpg" in
  let s0 := run mediaLoader [BuildMediaIndex sampleEntries] in
  let r1 := (loadMedia f s0).1 in
  let s1 := run mediaLoader [BuildMediaIndex sampleEntries; LoadMedia f] in
  let s2 := cleanup s1 in
  let r2 := (loadMedia f s2).1 in
  let s3 := (loadMedia f s2).2 in
  let s4 := run s3 [Settle 0 (Some (str "blob:1")); Settle 1 (Some (str "blob:2"));
                    Resume 0; Resume 1] in
  (r1 = Promise 0
   ∧ (∃ e, running s1 !! 0%nat = Some (f, Extracting e))
   ∧ (∃ e, running s3 !! 1%nat = Some (f, Extracting e))
   ∧ inFlight s3 = [f; f]
   ∧ activeTasks s3 = 2
   ∧ promises s4
     = [Fulfilled (Some {| blobUrl := str "blob:1"; filename := f;
                           type := Viewer.image |});
        Fulfilled (Some {| blobUrl := str "blob:2"; filename := f;
                           type := Viewer.image |})])
  ∧ (promises s1 !! 0%nat = Some Pending
     ∧ r2 = Promise (length (promises s1))
     ∧ length (promises s1) ≠ 0%nat
     ∧ promises s3 !! 0%nat = Some Pending
     ∧ promises s3 !! length (promises s1) = Some Pending
     ∧ running s3 !! 0%nat
       = Some (f, Extracting {| zipEntry := {| zipName := f; zipDir := false |};
                                fullPath := f |})
     ∧ ((∃ st, running s3 !! length (promises s1) = Some (f, st))
        ∨ {| taskFile := f; taskPromise := length (promises s1) |}
          ∈ taskQueue s3)
     ∧ ¬ NoDup (inFlight s3)).
Proof.
  cbv zeta. split.
  - repeat split; try (eexists; vm_compute; reflexivity); vm_compute; reflexivity.
  - apply (proj1 cleanup_breaks_in_flight_dedup 5
             [BuildMediaIndex sampleEntries; LoadMedia (str "a.jpg")]
             (str "a.jpg") 0%nat).
    vm_compute. reflexivity.
Defined.

Lemma in_flight_dedup_with_quiescent_cleanup_witness :
  let s := run (newMediaLoader 5) (Cleanup :: sampleRequests) in
  NoDup (inFlight s)
  ∧ loadMedia (str "a.jpg") s = (Promise 0, s)
  ∧ loadMedia (str "g.jpg") s = (Promise 6, s).
Proof.
  destruct (in_flight_dedup_with_quiescent_cleanup 5 (Cleanup :: sampleRequests)
              (or_introl eq_refl))
    as (H1 & _ & _ & H2 & _).
  split; [exact H1|]. split.
  - apply H2. right. eexists. vm_compute. reflexivity.
  - apply H2. left.
    replace (taskQueue (run (newMediaLoader 5) (Cleanup :: sampleRequests)))
      with [{| taskFile := str "f.jpg"; taskPromise := 5 |};
            {| taskFile := str "g.jpg"; taskPromise := 6 |}]
      by (vm_compute; reflexivity).
    apply list_elem_of_further, list_elem_of_here.
Defined.

End CoalescingSamples.

(** ** Lines and whitespace *)
Section LinesFacts.

Lemma splitLines_nonempty (s : jsstring) : splitLines s ≠ [].
Proof.
  induction s as [|c s IH]; [discriminate|].
  cbn [splitLines]. destruct (c =? LF)%N; [discriminate|].
  destruct s as [|c' s'].
  - cbn. discriminate.
  - destruct ((c =? CR) && (c' =? LF))%N; [discriminate|].
    destruct (splitLines (c' :: s')); discriminate.
Qed.

Lemma join_cons_cons (sep x y : jsstring) (rest : list jsstring) :
  join sep (x :: y :: rest) = x ++ sep ++ join sep (y :: rest).
Proof. reflexivity. Qed.

(** No line holds a line feed. *)
Lemma splitLines_no_LF (s : jsstring) :
  Forall (λ l, LF ∉ l) (splitLines s).
Proof.
  induction s as [|c s IH]; [repeat constructor; inversion 1|].
  assert (Hcons : (c =? LF)%N = false →
            Forall (λ l, LF ∉ l)
              (match splitLines s with
               | l :: ls => (c :: l) :: ls
               | [] => [[c]]
               end)).
  { intros Hc. apply N.eqb_neq in Hc.
    destruct (splitLines s) as [|l ls].
    - repeat constructor. intros H. apply list_elem_of_singleton in H. congruence.
    - apply Forall_cons in IH as [Hl Hls]. constructor; [|exact Hls].
      intros H. apply elem_of_cons in H as [H|H]; [congruence | exact (Hl H)]. }
  cbn [splitLines]. destruct (c =? LF)%N eqn:Hc.
  - constructor; [inversion 1 | exact IH].
  - destruct s as [|c' s']; [apply Hcons; reflexivity|].
    destruct ((c =? CR) && (c' =? LF))%N eqn:Hcr; [|apply Hcons; reflexivity].
    constructor; [inversion 1|].
    apply andb_prop in Hcr as [_ Hc']. apply N.eqb_eq in Hc'. subst c'.
    cbn [splitLines] in IH. rewrite N.eqb_refl in IH.
    apply Forall_cons in IH as [_ IH]. exact IH.
Qed.

(** Joining the lines of a text without carriage returns gives the text
    back. *)
Lemma join_splitLines (s : jsstring) :
  CR ∉ s → join [LF] (splitLines s) = s.
Proof.
  induction s as [|c s IH]; intros Hcr; [reflexivity|].
  assert (Hc : c ≠ CR) by (intros ->; apply Hcr; left).
  assert (Hs : CR ∉ s) by (intros H; apply Hcr; right; exact H).
  specialize (IH Hs).
  assert (Hcons : join [LF] (match splitLines s with
                             | l :: ls => (c :: l) :: ls
                             | [] => [[c]]
                             end) = c :: s).
  { pose proof (splitLines_nonempty s) as Hne.
    destruct (splitLines s) as [|l ls]; [congruence|].
    rewrite <- IH. destruct ls; reflexivity. }
  cbn [splitLines]. destruct (c =? LF)%N eqn:Hlf.
  - apply N.eqb_eq in Hlf. subst c.
    pose proof (splitLines_nonempty s) as Hne.
    destruct (splitLines s) as [|l ls] eqn:E; [congruence|].
    rewrite join_cons_cons, IH. reflexivity.
  - destruct s as [|c' s']; [exact Hcons|].
    replace ((c =? CR) && (c' =? LF))%N with false; [exact Hcons|].
    symmetry. apply andb_false_iff. left. apply N.eqb_neq. exact Hc.
Qed.

(** Splitting a line followed by a line feed and more text. *)
Lemma splitLines_line (l rest : jsstring) :
  LF ∉ l → last l ≠ Some CR →
  splitLines (l ++ LF :: rest) = l :: splitLines rest.
Proof.
  induction l as [|c l IH]; intros Hlf Hcr.
  - cbn [app splitLines]. rewrite N.eqb_refl. reflexivity.
  - assert (Hc : (c =? LF)%N = false)
      by (apply N.eqb_neq; intros ->; apply Hlf; left).
    assert (Hl : LF ∉ l) by (intros H; apply Hlf; right; exact H).
    cbn [app splitLines]. rewrite Hc.
    destruct l as [|c' l'].
    + cbn [app]. replace ((c =? CR) && (LF =? LF))%N with false.
      * cbn [splitLines]. rewrite N.eqb_refl. reflexivity.
      * symmetry. apply andb_false_iff. left. apply N.eqb_neq.
        intros ->. apply Hcr. reflexivity.
    + assert (Hc' : (c' =? LF)%N = false)
        by (apply N.eqb_neq; intros ->; apply Hl; left).
      rewrite IH by assumption. cbn [app].
      rewrite Hc', andb_false_r. reflexivity.
Qed.

Lemma splitLines_last_line (l : jsstring) :
  LF ∉ l → splitLines l = [l].
Proof.
  induction l as [|c l IH]; intros Hlf; [reflexivity|].
  assert (Hc : (c =? LF)%N = false)
    by (apply N.eqb_neq; intros ->; apply Hlf; left).
  assert (Hl : LF ∉ l) by (intros H; apply Hlf; right; exact H).
  cbn [splitLines]. rewrite Hc. rewrite (IH Hl).
  destruct l as [|c' l']; [reflexivity|].
  assert (Hc' : (c' =? LF)%N = false)
    by (apply N.eqb_neq; intros ->; apply Hl; left).
  rewrite Hc', andb_false_r. reflexivity.
Qed.

(** Splitting joined lines gives the lines back. *)
Lemma splitLines_join (ls : list jsstring) :
  ls ≠ [] →
  Forall (λ l, (LF ∉ l) ∧ (last l ≠ Some CR)) ls →
  splitLines (join [LF] ls) = ls.
Proof.
  induction ls as [|l ls IH]; intros Hne Hls; [congruence|].
  apply Forall_cons in Hls as [[Hlf Hcr] Hls].
  destruct ls as [|l' ls'].
  - cbn [join]. apply splitLines_last_line, Hlf.
  - rewrite join_cons_cons. cbn [app].
    rewrite splitLines_line by assumption.
    rewrite IH; [reflexivity | discriminate | exact Hls].
Qed.

(** *** Trimming *)

Lemma dropWhile_app_all (p : N → bool) (ws l : jsstring) :
  Forall (λ c, p c = true) ws → dropWhile p (ws ++ l) = dropWhile p l.
Proof.
  induction 1 as [|c ws Hc _ IH]; [reflexivity|].
  cbn [app dropWhile]. rewrite Hc. exact IH.
Qed.

Lemma dropWhile_all (p : N → bool) (ws : jsstring) :
  Forall (λ c, p c = true) ws → dropWhile p ws = [].
Proof.
  intros H. rewrite <- (app_nil_r ws). rewrite dropWhile_app_all by exact H.
  reflexivity.
Qed.

(** Dropping from the front of [l ++ ws] when [ws] is all in the class. *)
Lemma dropWhile_app_tail (p : N → bool) (l ws : jsstring) :
  Forall (λ c, p c = true) ws →
  dropWhile p (l ++ ws) = dropWhile p l ++ ws
  ∨ (dropWhile p (l ++ ws) = [] ∧ dropWhile p l = []).
Proof.
  intros Hws. induction l as [|c l IH].
  - right. cbn [app]. split; [apply dropWhile_all, Hws | reflexivity].
  - cbn [app dropWhile]. destruct (p c); [exact IH | left; reflexivity].
Qed.

Lemma trim_surrounded (ws l ws' : jsstring) :
  Forall (λ c, isSpace c = true) ws → Forall (λ c, isSpace c = true) ws' →
  trim (ws ++ l ++ ws') = trim l.
Proof.
  intros Hws Hws'. unfold trim. rewrite dropWhile_app_all by exact Hws.
  destruct (dropWhile_app_tail isSpace l ws' Hws') as [->|[-> ->]];
    [|reflexivity].
  rewrite reverse_app, dropWhile_app_all; [reflexivity|].
  apply Forall_reverse, Hws'.
Qed.

(** What [trim] returns starts and ends outside the class. *)
Lemma dropWhile_head (p : N → bool) (l : jsstring) :
  match dropWhile p l with c :: _ => p c = false | [] => True end.
Proof.
  induction l as [|c l IH]; [exact I|].
  cbn [dropWhile]. destruct (p c) eqn:E; [exact IH | exact E].
Qed.

Lemma dropWhile_fixed (p : N → bool) (l : jsstring) :
  match l with c :: _ => p c = false | [] => True end → dropWhile p l = l.
Proof. destruct l as [|c l]; [reflexivity|]. cbn. intros ->. reflexivity. Qed.

Lemma dropWhile_suffix (p : N → bool) (l : jsstring) :
  ∃ ws, l = ws ++ dropWhile p l ∧ Forall (λ c, p c = true) ws.
Proof.
  induction l as [|c l (ws & IH & Hws)]; [exists []; split; [reflexivity|constructor]|].
  cbn [dropWhile]. destruct (p c) eqn:E.
  - exists (c :: ws). split; [cbn; congruence | constructor; assumption].
  - exists []. split; [reflexivity | constructor].
Qed.

Lemma trim_decompose (l : jsstring) :
  ∃ ws ws', l = ws ++ trim l ++ ws'
            ∧ Forall (λ c, isSpace c = true) ws
            ∧ Forall (λ c, isSpace c = true) ws'.
Proof.
  destruct (dropWhile_suffix isSpace l) as (ws & Hl & Hws).
  destruct (dropWhile_suffix isSpace (reverse (dropWhile isSpace l)))
    as (ws' & Hr & Hws').
  exists ws, (reverse ws'). split; [|split; [exact Hws | apply Forall_reverse, Hws']].
  unfold trim. rewrite <- reverse_app, <- Hr, reverse_involutive. exact Hl.
Qed.

Lemma trim_involutive (l : jsstring) : trim (trim l) = trim l.
Proof.
  destruct (trim_decompose l) as (ws & ws' & Hl & Hws & Hws').
  rewrite Hl at 2. symmetry. apply trim_surrounded; assumption.
Qed.
End LinesFacts.

(** ** Filtering a filtered transcript *)
Section FilterTwice.
Import Spilter.

Lemma groupBlocks_continuations (UTC : Z → Z) (conts rest : list jsstring) :
  Forall (λ l, parseTimestampFromChatLine UTC l = None) conts →
  groupBlocks UTC (conts ++ rest)
  = (conts ++ (groupBlocks UTC rest).1, (groupBlocks UTC rest).2).
Proof.
  induction 1 as [|l conts Hl _ IH]; cbn [app groupBlocks].
  - destruct (groupBlocks UTC rest); reflexivity.
  - rewrite IH, Hl. reflexivity.
Qed.

(** The blocks of the lines of well-formed blocks are those blocks. *)
Lemma groupBlocks_concat (UTC : Z → Z) (bs : list block) :
  Forall (λ b, is_Some (parseTimestampFromChatLine UTC b.1)
               ∧ Forall (λ l, parseTimestampFromChatLine UTC l = None) b.2) bs →
  groupBlocks UTC (concat (blockLines <$> bs)) = ([], bs).
Proof.
  induction 1 as [|[h conts] bs [[ts Hh] Hc] _ IH]; [reflexivity|].
  change (concat (blockLines <$> (h, conts) :: bs))
    with (h :: conts ++ concat (blockLines <$> bs)).
  cbn [groupBlocks fst snd] in *.
  rewrite groupBlocks_continuations by exact Hc.
  rewrite IH, Hh. cbn. rewrite app_nil_r. reflexivity.
Qed.

Lemma filter_wf_blocks {A} (P : A → Prop) (f : A → bool) (l : list A) :
  Forall P l → Forall P (List.filter f l).
Proof.
  induction 1 as [|x l Hx _ IH]; cbn; [constructor|].
  destruct (f x); [constructor; assumption | exact IH].
Qed.

Lemma filter_filter_andb {A} (f g : A → bool) (l : list A) :
  List.filter g (List.filter f l) = List.filter (λ x, f x && g x) l.
Proof.
  induction l as [|x l IH]; [reflexivity|].
  cbn. destruct (f x); cbn; [destruct (g x)|]; rewrite IH; reflexivity.
Qed.

Lemma Forall_blockLines {P : jsstring → Prop} (bs : list block) :
  Forall P (concat (blockLines <$> bs)) →
  ∀ f, Forall P (concat (blockLines <$> List.filter f bs)).
Proof.
  intros H f. induction bs as [|b bs IH]; [constructor|].
  cbn [fmap list_fmap concat] in H. apply Forall_app in H as [Hb H].
  cbn [List.filter]. destruct (f b); [|apply IH, H].
  cbn [fmap list_fmap concat]. apply Forall_app. split; [exact Hb | apply IH, H].
Qed.

(** Filtering the output of a filter keeps the blocks both filters keep. *)
Lemma filterChatByRange_twice (UTC : Z → Z) (chatText : jsstring)
    (s1 e1 s2 e2 : Date) :
  Forall (λ l, last l ≠ Some CR) (splitLines chatText) →
  filterChatByRange UTC (filterChatByRange UTC chatText s1 e1) s2 e2
  = join [LF] (concat (blockLines <$>
      List.filter (λ b, blockInRange UTC s1 e1 b && blockInRange UTC s2 e2 b)
        (groupBlocks UTC (splitLines chatText)).2)).
Proof.
  intros Hcr.
  rewrite (filterChatByRange_blocks UTC chatText s1 e1).
  destruct (groupBlocks_partition UTC (splitLines chatText)) as (Hl & _ & Hwf).
  set (bs := (groupBlocks UTC (splitLines chatText)).2) in *.
  set (kept := List.filter (blockInRange UTC s1 e1) bs).
  rewrite <- filter_filter_andb. fold kept.
  assert (Hkwf : Forall (λ b, is_Some (parseTimestampFromChatLine UTC b.1)
                   ∧ Forall (λ l, parseTimestampFromChatLine UTC l = None) b.2)
                   kept) by (apply filter_wf_blocks, Hwf).
  rewrite filterChatByRange_blocks.
  destruct kept as [|b kept'] eqn:Ek.
  - cbn. reflexivity.
  - rewrite splitLines_join.
    + rewrite groupBlocks_concat by exact Hkwf. reflexivity.
    + destruct b. discriminate.
    + rewrite <- Ek. apply Forall_blockLines.
      pose proof (splitLines_no_LF chatText) as Hlf.
      rewrite Hl in Hcr, Hlf.
      apply Forall_app in Hcr as [_ Hcr]. apply Forall_app in Hlf as [_ Hlf].
      apply Forall_and. split; assumption.
Qed.

Lemma blockInRange_intersection (UTC : Z → Z) (a1 b1 a2 b2 : Z) (b : block) :
  blockInRange UTC (DateValue a1) (DateValue b1) b
  && blockInRange UTC (DateValue a2) (DateValue b2) b
  = blockInRange UTC (DateValue (Z.max a1 a2)) (DateValue (Z.min b1 b2)) b.
Proof.
  unfold blockInRange.
  destruct (parseTimestampFromChatLine UTC b.1) as [[t|]|]; try reflexivity.
  cbn [inRange].
  destruct (Z.leb_spec a1 t), (Z.leb_spec t b1), (Z.leb_spec a2 t),
    (Z.leb_spec t b2), (Z.leb_spec (Z.max a1 a2) t),
    (Z.leb_spec t (Z.min b1 b2)); cbn; try reflexivity; lia.
Qed.

(** X1. For a transcript none of whose lines ends with a carriage return,
    filtering the output of a filter by a second range is filtering the
    transcript by the intersection of the two ranges; filtering twice by
    one range, valid or not, changes nothing more. *)
Theorem filterChatByRange_intersection (UTC : Z → Z) (chatText : jsstring) :
  Forall (λ l, last l ≠ Some CR) (splitLines chatText) →
  (∀ a1 b1 a2 b2,
     filterChatByRange UTC
       (filterChatByRange UTC chatText (DateValue a1) (DateValue b1))
       (DateValue a2) (DateValue b2)
     = filterChatByRange UTC chatText
         (DateValue (Z.max a1 a2)) (DateValue (Z.min b1 b2)))
  ∧ (∀ start end_,
       filterChatByRange UTC (filterChatByRange UTC chatText start end_)
         start end_
       = filterChatByRange UTC chatText start end_).
Proof.
  intros Hcr. split.
  - intros a1 b1 a2 b2. rewrite filterChatByRange_twice by exact Hcr.
    rewrite (filterChatByRange_blocks UTC chatText (DateValue (Z.max a1 a2))).
    do 3 f_equal. apply List.filter_ext. intros b.
    apply blockInRange_intersection.
  - intros start end_. rewrite filterChatByRange_twice by exact Hcr.
    rewrite (filterChatByRange_blocks UTC chatText start end_).
    do 3 f_equal. apply List.filter_ext. intros b. apply andb_diag.
Qed.

Lemma filterChatByRange_intersection_witness :
  filterChatByRange (λ t, t)
    (filterChatByRange (λ t, t) sampleTranscript
       (DateValue 1704067200000) (DateValue 1704672000000))
    (DateValue 1704240000000) (DateValue 1705000000000)
  = filterChatByRange (λ t, t) sampleTranscript
      (DateValue (Z.max 1704067200000 1704240000000))
      (DateValue (Z.min 1704672000000 1705000000000)).
Proof.
  refine (proj1 (filterChatByRange_intersection (λ t, t) sampleTranscript _)
            _ _ _ _).
  by_compute.
Defined.
Lemma filter_all {A} (f : A → bool) (l : list A) :
  Forall (λ x, f x = true) l → List.filter f l = l.
Proof.
  induction 1 as [|x l Hx _ IH]; cbn; [reflexivity|].
  rewrite Hx, IH. reflexivity.
Qed.

(** X2. A range that holds every timestamp of a transcript keeps the
    transcript as it is, when its first line is a timestamp line and it
    holds no carriage return (the lines before the first timestamp line
    are dropped by any range, and a carriage return before a line feed is
    dropped by the splitting into lines). *)
Theorem filterChatByRange_full_range (UTC : Z → Z)
    (chatText first : jsstring) (rest : list jsstring) (start end_ : Date) :
  CR ∉ chatText →
  splitLines chatText = first :: rest →
  is_Some (parseTimestampFromChatLine UTC first) →
  forallb (λ l, match parseTimestampFromChatLine UTC l with
                | Some ts => inRange ts start end_
                | None => true
                end) (splitLines chatText) = true →
  filterChatByRange UTC chatText start end_ = chatText.
Proof.
  intros Hcr Hsplit Hfirst Hall.
  rewrite filterChatByRange_blocks.
  destruct (groupBlocks_partition UTC (splitLines chatText)) as (Hp & _ & Hbs).
  assert (Hpre : (groupBlocks UTC (splitLines chatText)).1 = []).
  { rewrite Hsplit. cbn [groupBlocks].
    destruct (groupBlocks UTC rest) as [pre bs].
    destruct Hfirst as [ts Hts]. rewrite Hts. reflexivity. }
  rewrite Hpre in Hp. cbn [app] in Hp.
  rewrite filter_all.
  - rewrite <- Hp. apply join_splitLines. exact Hcr.
  - apply Forall_forall. intros b Hb.
    assert (Hin : b.1 ∈ splitLines chatText).
    { rewrite Hp. apply list_elem_of_In, in_concat. exists (blockLines b).
      split; [|left; reflexivity].
      apply list_elem_of_In, list_elem_of_fmap.
      exists b. split; [reflexivity|exact Hb]. }
    unfold blockInRange.
    pose proof (proj1 (forallb_forall _ _) Hall b.1
                  (proj1 (list_elem_of_In _ _) Hin)) as H.
    cbv beta in H.
    destruct (proj1 (Forall_forall _ _) Hbs b Hb) as [[ts Hts] _].
    rewrite Hts in *. exact H.
Qed.

Lemma filterChatByRange_full_range_witness :
  filterChatByRange (λ t, t)
    (str "[01/01/2024, 10:00:00] Alice: happy new year" ++ [LF]
     ++ str "see you soon" ++ [LF]
     ++ str "[05/01/2024, 12:30:00] Bob: lunch?")
    (DateValue 1704067200000) (DateValue 1704672000000)
  = str "[01/01/2024, 10:00:00] Alice: happy new year" ++ [LF]
    ++ str "see you soon" ++ [LF]
    ++ str "[05/01/2024, 12:30:00] Bob: lunch?".
Proof.
  apply (filterChatByRange_full_range (λ t, t) _
           (str "[01/01/2024, 10:00:00] Alice: happy new year")
           [str "see you soon"; str "[05/01/2024, 12:30:00] Bob: lunch?"]).
  - by_compute.
  - vm_compute. reflexivity.
  - vm_compute. eexists. reflexivity.
  - vm_compute. reflexivity.
Defined.
End FilterTwice.

(** ** Extensions *)
Section Extensions.
Import Spilter.
Context {host : Host}.

(** X3. Whether a chat line is a timestamp line, and which, does not
    depend on the whitespace around it: spaces, tabs or a carriage
    return before or after the line change nothing. *)
Theorem timestamp_ignores_surrounding_space (UTC : Z → Z)
    (ws line ws' : jsstring) :
  Forall (λ c, isSpace c = true) ws → Forall (λ c, isSpace c = true) ws' →
  parseTimestampFromChatLine UTC (ws ++ line ++ ws')
  = parseTimestampFromChatLine UTC line.
Proof.
  intros Hws Hws'. unfold parseTimestampFromChatLine.
  rewrite trim_surrounded by assumption. reflexivity.
Qed.

Lemma timestamp_ignores_surrounding_space_witness :
  parseTimestampFromChatLine (λ t, t)
    (str "  " ++ str "05/01/2024, 12:30 - Bob: lunch?" ++ [CR])
  = parseTimestampFromChatLine (λ t, t) (str "05/01/2024, 12:30 - Bob: lunch?").
Proof.
  apply timestamp_ignores_surrounding_space; by_compute.
Defined.

(** A greedy star before the end of the input takes all of it or fails. *)
Lemma starGreedy_to_end {A} (p : N → bool) (k : jsstring → option A)
    (s : jsstring) :
  (∀ c s', k (c :: s') = None) →
  starGreedy p k s = if forallb p s then k [] else None.
Proof.
  intros Hk. induction s as [|c s IH]; [reflexivity|].
  cbn [starGreedy forallb]. destruct (p c); cbn [andb]; [|apply Hk].
  rewrite IH. destruct (forallb p s); [|apply Hk].
  destruct (k []); [reflexivity|apply Hk].
Qed.

(** The extension pattern at one position. *)
Lemma extensionRe_at (s : jsstring) :
  execAt 1 (body extensionRe) s
  = match s with
    | c :: c1 :: s2 =>
        if isChar (chr ".") c && isAlnum c1 && forallb isAlnum s2
        then Some [None; Some (c1 :: s2)] else None
    | _ => None
    end.
Proof.
  unfold execAt, extensionRe. cbn [body RCat foldr].
  destruct s as [|c [|c1 s2]]; [reflexivity| |].
  - unfold C. cbn [matchRe]. destruct (isChar (chr ".") c); reflexivity.
  - unfold C, RPlus. cbn [matchRe].
    destruct (isChar (chr ".") c); cbn [andb]; [|reflexivity].
    destruct (isAlnum c1); cbn [andb]; [|reflexivity].
    rewrite starGreedy_to_end by reflexivity.
    destruct (forallb isAlnum s2); [|reflexivity].
    rewrite Nat.sub_0_r, firstn_all. reflexivity.
Qed.

Lemma isAlnum_dot_tail (x ext : jsstring) :
  forallb isAlnum (x ++ chr "." :: ext) = false.
Proof.
  induction x as [|c x IH]; [reflexivity|].
  cbn [app forallb]. rewrite IH. apply andb_false_r.
Qed.

Lemma getExtension_Some (n ext : jsstring) :
  getExtension n = Some ext
  ↔ ∃ pre, n = pre ++ chr "." :: ext ∧ ext ≠ []
           ∧ forallb isAlnum ext = true.
Proof.
  unfold getExtension, exec. cbn [anchored groups].
  split.
  - induction n as [|c n IH].
    + cbn. discriminate.
    + cbn [execFrom]. rewrite extensionRe_at.
      destruct n as [|c1 s2].
      * cbn. discriminate.
      * destruct (isChar (chr ".") c && isAlnum c1 && forallb isAlnum s2) eqn:E.
        -- intros [= <-]. exists [].
           apply andb_prop in E as [E E3]. apply andb_prop in E as [E1 E2].
           apply N.eqb_eq in E1. subst c.
           split; [reflexivity|]. split; [discriminate|].
           cbn. rewrite E2, E3. reflexivity.
        -- intros H. destruct (IH H) as (pre & Hn & Hne & Hal).
           exists (c :: pre). rewrite Hn. split; [reflexivity|]. split; assumption.
  - intros (pre & -> & Hne & Hal).
    induction pre as [|c pre IH].
    + destruct ext as [|c1 s2]; [congruence|].
      cbn [app execFrom]. rewrite extensionRe_at.
      cbn in Hal. replace (isChar (chr ".") (chr ".")) with true by reflexivity.
      cbn [andb]. rewrite Hal. reflexivity.
    + cbn [app execFrom]. rewrite extensionRe_at.
      destruct (pre ++ chr "." :: ext) as [|c1 s2] eqn:E.
      * destruct pre; discriminate.
      * replace (isChar (chr ".") c && isAlnum c1 && forallb isAlnum s2)
          with false; [exact IH|].
        symmetry. rewrite <- andb_assoc. apply andb_false_iff. right.
        change (isAlnum c1 && forallb isAlnum s2) with (forallb isAlnum (c1 :: s2)).
        rewrite <- E. apply isAlnum_dot_tail.
Qed.

Lemma isMediaName_spec (mediaSet : list jsstring) (n : jsstring) :
  isMediaName mediaSet n = true
  ↔ ∃ pre ext, n = pre ++ chr "." :: ext ∧ ext ≠ []
               ∧ forallb isAlnum ext = true
               ∧ toLowerCase ext ∈ mediaSet.
Proof.
  unfold isMediaName, arrayIncludes. split.
  - destruct (getExtension n) as [ext|] eqn:E; [|discriminate].
    apply getExtension_Some in E as (pre & Hn & Hne & Hal).
    destruct ext as [|c ext]; [discriminate|].
    intros H. apply bool_decide_eq_true in H. eauto 6.
  - intros (pre & ext & Hn & Hne & Hal & Hin).
    rewrite (proj2 (getExtension_Some n ext)) by eauto.
    destruct ext as [|c ext]; [congruence|].
    apply bool_decide_eq_true. exact Hin.
Qed.

(** X4. The extension of a name is what follows its last dot, when
    that is a non-empty run of ASCII letters and digits; a name without
    a dot, ending with a dot, or with another character after its last
    dot has no extension. A name is a media name exactly when it has an
    extension whose lower-case form is in the set, so the case of an
    extension plays no part and names without extension are never
    copied. *)
Theorem media_name_by_extension (mediaSet : list jsstring) (n : jsstring) :
  (∀ ext, getExtension n = Some ext
          ↔ ∃ pre, n = pre ++ chr "." :: ext ∧ ext ≠ []
                   ∧ forallb isAlnum ext = true)
  ∧ (isMediaName mediaSet n = true
     ↔ ∃ pre ext, n = pre ++ chr "." :: ext ∧ ext ≠ []
                  ∧ forallb isAlnum ext = true
                  ∧ toLowerCase ext ∈ mediaSet).
Proof.
  split; [intros ext; apply getExtension_Some|apply isMediaName_spec].
Qed.
End Extensions.

(** ** The date of a media name

    The patterns the splitter applies to a name, against the reading of
    the specification, which goes through the name from the left without
    the pattern matcher. *)
Section NameDates.
Import Spilter SpecText.

Lemma splitOn_nonempty (sep : N) (s : jsstring) : splitOn sep s ≠ [].
Proof.
  destruct s as [|c s]; [discriminate|]. cbn [splitOn].
  destruct (c =? sep)%N; [discriminate|].
  destruct (splitOn sep s); discriminate.
Qed.

Lemma splitOn_app_sep (sep : N) (d b : jsstring) :
  splitOn sep (d ++ sep :: b) = splitOn sep d ++ splitOn sep b.
Proof.
  induction d as [|c d IH].
  - cbn [app splitOn]. rewrite N.eqb_refl. reflexivity.
  - cbn [app splitOn]. rewrite IH.
    destruct (c =? sep)%N; [reflexivity|].
    pose proof (splitOn_nonempty sep d) as Hne.
    destruct (splitOn sep d) as [|l ls]; [congruence|]. reflexivity.
Qed.

Lemma splitOn_absent (sep : N) (b : jsstring) :
  sep ∉ b → splitOn sep b = [b].
Proof.
  induction b as [|c b IH]; intros Hb; [reflexivity|].
  apply not_elem_of_cons in Hb as [Hc Hb]. cbn [splitOn].
  rewrite (proj2 (N.eqb_neq c sep)) by congruence.
  rewrite IH by exact Hb. reflexivity.
Qed.

Lemma pop_splitOn_path (sep : N) (d b : jsstring) :
  sep ∉ b → pop (splitOn sep (d ++ sep :: b)) = b.
Proof.
  intros Hb. rewrite splitOn_app_sep, (splitOn_absent sep b Hb).
  unfold pop. rewrite last_snoc. reflexivity.
Qed.

Lemma last_separator (sep : N) (n : jsstring) :
  sep ∉ n ∨ ∃ d b, n = d ++ sep :: b ∧ sep ∉ b.
Proof.
  induction n as [|c n IH]; [left; intros H; inversion H|].
  destruct IH as [Hn|(d & b & -> & Hb)].
  - destruct (decide (c = sep)) as [->|Hne].
    + right. exists [], n. auto.
    + left. apply not_elem_of_cons. auto.
  - right. exists (c :: d), b. auto.
Qed.

(** *** The pieces of a pattern, read from the left *)

Lemma repeatGreedy_exact {A} (p : N → bool) (n : nat)
    (k : jsstring → option A) : ∀ s,
  repeatGreedy p n n k s
  = if (n <=? length s)%nat && forallb p (take n s)
    then k (drop n s) else None.
Proof.
  induction n as [|n IH]; intros s.
  - destruct s; reflexivity.
  - cbn [repeatGreedy]. destruct (decide (S n = 0%nat)) as [?|_]; [lia|].
    destruct s as [|c s]; [reflexivity|].
    cbn [length take drop forallb Nat.leb pred]. rewrite IH.
    destruct (p c); cbn [andb]; [|rewrite andb_false_r; reflexivity].
    destruct ((n <=? length s)%nat && forallb p (take n s)); [|reflexivity].
    destruct (k (drop n s)); reflexivity.
Qed.

Lemma matchRe_seq_digits {A} (i n : nat) (b : regex) (s : jsstring)
    (caps : captures) (k : jsstring → captures → option A) :
  matchRe (RSeq (RGroup i (D n n)) b) s caps k
  = match digits n s with
    | Some (ds, r) => matchRe b r (<[i := Some ds]> caps) k
    | None => None
    end.
Proof.
  cbn [matchRe D]. unfold D. cbn [matchRe]. rewrite repeatGreedy_exact.
  unfold digits. destruct (n <=? length s)%nat eqn:E; [|reflexivity].
  destruct (forallb isDigit (take n s)); [|reflexivity]. cbn [andb].
  apply Nat.leb_le in E. rewrite length_drop.
  replace (length s - (length s - n))%nat with n by lia. reflexivity.
Qed.

Lemma matchRe_seq_class {A} (p : N → bool) (b : regex) (s : jsstring)
    (caps : captures) (k : jsstring → captures → option A) :
  matchRe (RSeq (RClass p) b) s caps k
  = match char p s with
    | Some r => matchRe b r caps k
    | None => None
    end.
Proof.
  cbn [matchRe]. destruct s as [|c s]; [reflexivity|]. cbn [char].
  destruct (p c); reflexivity.
Qed.

Lemma startsWith_lower_cons (a c : N) (w s : jsstring) :
  (a < 128)%N →
  startsWith (lowerASCII (c :: s)) (lowerASCII (a :: w))
  = isCharI a c && startsWith (lowerASCII s) (lowerASCII w).
Proof.
  intros Ha. change (lowerASCII (c :: s)) with (lowerASCII [c] ++ lowerASCII s).
  change (lowerASCII (a :: w)) with (lowerASCII [a] ++ lowerASCII w).
  pose proof (isCharI_lower a c Ha) as H.
  destruct (isCharI a c).
  - rewrite (proj1 H eq_refl). cbn [lowerASCII map app startsWith].
    rewrite N.eqb_refl. reflexivity.
  - cbn [lowerASCII map app startsWith andb].
    match goal with |- (?x =? ?y)%N && _ = false =>
      destruct (N.eqb_spec x y) as [E|_]; [|reflexivity] end.
    assert (false = true); [|discriminate].
    apply H. cbn [lowerASCII map]. f_equal. symmetry. exact E.
Qed.

Lemma matchRe_word {A} (w : jsstring) :
  isASCII w = true → ∀ s caps (k : jsstring → captures → option A),
  matchRe (RLitI w) s caps k
  = match word w s with
    | Some r => k r caps
    | None => None
    end.
Proof.
  induction w as [|a w IH]; intros Hw s caps k.
  - destruct s; reflexivity.
  - cbn [isASCII forallb] in Hw. apply andb_prop in Hw as [Ha Hw].
    apply N.ltb_lt in Ha. cbn [RLitI matchRe]. destruct s as [|c s].
    + reflexivity.
    + unfold word. rewrite startsWith_lower_cons by exact Ha.
      destruct (isCharI a c); cbn [andb]; [|reflexivity].
      rewrite (IH Hw). unfold word. reflexivity.
Qed.

Lemma matchRe_seq_word {A} (w : jsstring) (b : regex) (s : jsstring)
    (caps : captures) (k : jsstring → captures → option A) :
  isASCII w = true →
  matchRe (RSeq (RLitI w) b) s caps k
  = match word w s with
    | Some r => matchRe b r caps k
    | None => None
    end.
Proof. intros Hw. cbn [matchRe]. apply (matchRe_word w Hw). Qed.

Lemma starGreedy_all {A} (p : N → bool) (k : jsstring → option A)
    (s : jsstring) :
  (∀ c r, p c = true → k (c :: r) = None) →
  starGreedy p k s = k (dropWhile p s).
Proof.
  intros Hk. induction s as [|c s IH]; [reflexivity|].
  cbn [starGreedy dropWhile]. destruct (p c) eqn:Hc; [|reflexivity].
  rewrite IH. destruct (k (dropWhile p s)); [reflexivity|].
  apply Hk, Hc.
Qed.

Lemma matchRe_seq_spaces {A} (b : regex) (s : jsstring)
    (caps : captures) (k : jsstring → captures → option A) :
  (∀ c r, isSpace c = true → matchRe b (c :: r) caps k = None) →
  matchRe (RSeq (RPlus isSpace) b) s caps k
  = match spaces s with
    | Some r => matchRe b r caps k
    | None => None
    end.
Proof.
  intros Hb. unfold RPlus. cbn [matchRe].
  destruct s as [|c s]; [reflexivity|]. cbn [spaces].
  destruct (isSpace c); [|reflexivity].
  apply (starGreedy_all isSpace (λ s', matchRe b s' caps k)). exact Hb.
Qed.

Lemma matchRe_seq_optional {A} (p : N → bool) (b : regex) (s : jsstring)
    (caps : captures) (k : jsstring → captures → option A) :
  (∀ c r, p c = true → matchRe b (c :: r) caps k = None) →
  matchRe (RSeq (RRepeat 0 1 p) b) s caps k
  = matchRe b (optional p s) caps k.
Proof.
  intros Hb. cbn [matchRe repeatGreedy].
  destruct (decide (0%nat = 0%nat)) as [_|?]; [|lia].
  destruct s as [|c s]; [reflexivity|]. cbn [optional].
  destruct (p c) eqn:Hc; [|reflexivity].
  destruct (matchRe b s caps k); [reflexivity|]. apply Hb, Hc.
Qed.

Lemma starGreedy_const {A} (p : N → bool) (k : jsstring → option A)
    (s : jsstring) :
  (∀ s1 s2, k s1 = k s2) → starGreedy p k s = k s.
Proof.
  intros Hk. induction s as [|c s IH]; [reflexivity|].
  cbn [starGreedy]. destruct (p c); [|reflexivity].
  rewrite IH, (Hk (c :: s) s). destruct (k s); reflexivity.
Qed.

Lemma matchRe_some_digits {A} (s : jsstring) (caps : captures)
    (k : jsstring → captures → option A) :
  (∀ s1 s2 c, k s1 c = k s2 c) →
  matchRe (RSeq (RPlus isDigit) REps) s caps k
  = match char isDigit s with
    | Some r => k r caps
    | None => None
    end.
Proof.
  intros Hk. unfold RPlus. cbn [matchRe].
  destruct s as [|c s]; [reflexivity|]. cbn [char].
  destruct (isDigit c); [|reflexivity].
  apply (starGreedy_const isDigit (λ s', k s' caps)).
  intros s1 s2. apply Hk.
Qed.

(** A white space or a blank is no digit and no letter. *)
Lemma digits_none (n : nat) (c : N) (r : jsstring) :
  isDigit c = false → digits (S n) (c :: r) = None.
Proof.
  intros Hc. unfold digits. cbn [take forallb]. rewrite Hc.
  rewrite andb_false_r. reflexivity.
Qed.

Lemma space_no_digit (c : N) : isSpace c = true → isDigit c = false.
Proof.
  unfold isSpace, isDigit. intros H.
  apply andb_false_iff.
  destruct (N.leb_spec 48 c) as [H1|]; [|left; reflexivity]. right.
  destruct (N.leb_spec c 57) as [H2|]; [|reflexivity]. exfalso.
  repeat (apply orb_prop in H as [H|H]);
    try (apply andb_prop in H as [Ha Hb]; apply N.leb_le in Ha, Hb; lia);
    apply N.eqb_eq in H; lia.
Qed.

Lemma blank_no_digit (c : N) : blank c = true → isDigit c = false.
Proof.
  unfold blank, isChar. intros H.
  apply orb_prop in H as [H|H]; apply N.eqb_eq in H; subst c; reflexivity.
Qed.

Lemma word_none (a : N) (w : jsstring) (c : N) (r : jsstring) :
  (a < 128)%N → isCharI a c = false → word (a :: w) (c :: r) = None.
Proof.
  intros Ha Hc. unfold word. rewrite startsWith_lower_cons by exact Ha.
  rewrite Hc. reflexivity.
Qed.

Lemma space_no_a (c : N) : isSpace c = true → isCharI (chr "a") c = false.
Proof.
  unfold isSpace, isCharI, canonicalize. intros H.
  apply not_true_is_false. intros Hc.
  apply andb_prop in Hc as [Hlt Hc]. apply N.ltb_lt in Hlt.
  apply N.eqb_eq in Hc. change (chr "a") with 97%N in Hc. cbn in Hc.
  destruct ((97 <=? c) && (c <=? 122))%N eqn:E.
  - apply andb_prop in E as [E1 E2]. apply N.leb_le in E1, E2.
    repeat (apply orb_prop in H as [H|H]);
      try (apply andb_prop in H as [Ha Hb]; apply N.leb_le in Ha, Hb; lia);
      apply N.eqb_eq in H; lia.
  - subst c. discriminate.
Qed.

(** *** Alternatives *)

Lemma word_head (a : N) (w s r : jsstring) :
  (a < 128)%N → word (a :: w) s = Some r →
  ∃ c s', s = c :: s' ∧ isCharI a c = true.
Proof.
  intros Ha. destruct s as [|c s]; [discriminate|].
  unfold word. rewrite startsWith_lower_cons by exact Ha.
  destruct (isCharI a c) eqn:E; [|discriminate].
  intros _. exists c, s. split; [reflexivity|exact E].
Qed.

Lemma oneOf_other_heads (a : N) (w s r : jsstring) (ws : list jsstring) :
  (a < 128)%N → word (a :: w) s = Some r →
  forallb (λ w', match w' with
                 | b :: _ => (b <? 128)%N
                             && negb (bool_decide (lowerASCII [b] = lowerASCII [a]))
                 | [] => false
                 end) ws = true →
  oneOf ws s = None.
Proof.
  intros Ha Hw Hws. destruct (word_head a w s r Ha Hw) as (c & s' & -> & Hc).
  apply (isCharI_lower a c Ha) in Hc.
  induction ws as [|w' ws IH]; [reflexivity|].
  cbn [forallb] in Hws. apply andb_prop in Hws as [Hw' Hws].
  cbn [oneOf]. rewrite (IH Hws).
  destruct w' as [|b w']; [discriminate|].
  apply andb_prop in Hw' as [Hb Hne]. apply N.ltb_lt in Hb.
  apply negb_true_iff, bool_decide_eq_false in Hne.
  rewrite word_none; [reflexivity|exact Hb|].
  apply not_true_is_false. intros Hbc.
  apply (isCharI_lower b c Hb) in Hbc. congruence.
Qed.

Lemma matchRe_alt_word {A} (a : N) (w : jsstring) (ws : list jsstring)
    (b : regex) (s : jsstring) (caps : captures)
    (k : jsstring → captures → option A) :
  isASCII (a :: w) = true →
  forallb (λ w', match w' with
                 | b :: _ => (b <? 128)%N
                             && negb (bool_decide (lowerASCII [b] = lowerASCII [a]))
                 | [] => false
                 end) ws = true →
  matchRe b s caps k
  = match oneOf ws s with Some r => k r caps | None => None end →
  matchRe (RAlt (RLitI (a :: w)) b) s caps k
  = match oneOf ((a :: w) :: ws) s with Some r => k r caps | None => None end.
Proof.
  intros Hw Hws Hb. cbn [matchRe oneOf]. fold (RLitI (a :: w)).
  rewrite (matchRe_word (a :: w) Hw), Hb.
  destruct (word (a :: w) s) as [r|] eqn:E; [|reflexivity].
  rewrite (oneOf_other_heads a w s r ws); [destruct (k r caps); reflexivity| |exact E|exact Hws].
  cbn [isASCII forallb] in Hw. apply andb_prop in Hw as [Hw _].
  apply N.ltb_lt. exact Hw.
Qed.

Lemma matchRe_last_word {A} (w : jsstring) (s : jsstring) (caps : captures)
    (k : jsstring → captures → option A) :
  isASCII w = true →
  matchRe (RLitI w) s caps k
  = match oneOf [w] s with Some r => k r caps | None => None end.
Proof.
  intros Hw. rewrite (matchRe_word w Hw). cbn [oneOf].
  destruct (word w s); reflexivity.
Qed.

Lemma matchRe_seq_named {A} (i j : nat) (w : jsstring) (alt : regex)
    (ws : list jsstring) (b : regex) (s : jsstring) (caps : captures)
    (k : jsstring → captures → option A) :
  isASCII w = true →
  (∀ s' caps' (k' : jsstring → captures → option A),
     matchRe alt s' caps' k'
     = match oneOf ws s' with Some r => k' r caps' | None => None end) →
  matchRe (RSeq (RGroup i (RSeq (RLitI w) (RSeq (RGroup j alt) REps))) b)
    s caps k
  = match word w s with
    | Some s1 =>
        match oneOf ws s1 with
        | Some s2 =>
            matchRe b s2
              (<[i := Some (take (length s - length s2) s)]>
                 (<[j := Some (take (length s1 - length s2) s1)]> caps)) k
        | None => None
        end
    | None => None
    end.
Proof.
  intros Hw Halt. cbn [matchRe]. rewrite (matchRe_word w Hw).
  destruct (word w s); [|reflexivity]. rewrite Halt. reflexivity.
Qed.

Lemma matchRe_seq_oneOf {A} (i : nat) (alt : regex) (ws : list jsstring)
    (b : regex) (s : jsstring) (caps : captures)
    (k : jsstring → captures → option A) :
  (∀ s' caps' (k' : jsstring → captures → option A),
     matchRe alt s' caps' k'
     = match oneOf ws s' with Some r => k' r caps' | None => None end) →
  matchRe (RSeq (RGroup i alt) b) s caps k
  = match oneOf ws s with
    | Some r =>
        matchRe b r (<[i := Some (take (length s - length r) s)]> caps) k
    | None => None
    end.
Proof. intros Halt. cbn [matchRe]. rewrite Halt. reflexivity. Qed.

Lemma kinds_alternatives {A} (s : jsstring) (caps : captures)
    (k : jsstring → captures → option A) :
  matchRe (RAlt (RLitI (str "Image"))
             (RAlt (RLitI (str "Video"))
                (RAlt (RLitI (str "Audio")) (RLitI (str "Document")))))
    s caps k
  = match oneOf (map str ["Image"; "Video"; "Audio"; "Document"]%string) s with
    | Some r => k r caps
    | None => None
    end.
Proof.
  apply (matchRe_alt_word (chr "I") (str "mage")
           (map str ["Video"; "Audio"; "Document"]%string));
    [reflexivity|reflexivity|].
  apply (matchRe_alt_word (chr "V") (str "ideo")
           (map str ["Audio"; "Document"]%string));
    [reflexivity|reflexivity|].
  apply (matchRe_alt_word (chr "A") (str "udio")
           (map str ["Document"]%string));
    [reflexivity|reflexivity|].
  apply matchRe_last_word. reflexivity.
Qed.

Lemma prefix_alternatives {A} (s : jsstring) (caps : captures)
    (k : jsstring → captures → option A) :
  matchRe (RAlt (RLitI (str "IMG"))
             (RAlt (RLitI (str "VID"))
                (RAlt (RLitI (str "PTT"))
                   (RAlt (RLitI (str "AUD")) (RLitI (str "DOC"))))))
    s caps k
  = match oneOf (map str ["IMG"; "VID"; "PTT"; "AUD"; "DOC"]%string) s with
    | Some r => k r caps
    | None => None
    end.
Proof.
  apply (matchRe_alt_word (chr "I") (str "MG")
           (map str ["VID"; "PTT"; "AUD"; "DOC"]%string));
    [reflexivity|reflexivity|].
  apply (matchRe_alt_word (chr "V") (str "ID")
           (map str ["PTT"; "AUD"; "DOC"]%string));
    [reflexivity|reflexivity|].
  apply (matchRe_alt_word (chr "P") (str "TT")
           (map str ["AUD"; "DOC"]%string));
    [reflexivity|reflexivity|].
  apply (matchRe_alt_word (chr "A") (str "UD") (map str ["DOC"]%string));
    [reflexivity|reflexivity|].
  apply matchRe_last_word. reflexivity.
Qed.

(** *** The name patterns *)

(** The fields in the groups [g] to [g+5], or [g] to [g+2], of a match. *)
Local Abbreviation dateTimeFields m g :=
  {| year := Number (groupStr m g); month := Number (groupStr m (g + 1));
     day := Number (groupStr m (g + 2));
     hours := Number (groupStr m (g + 3));
     minutes := Number (groupStr m (g + 4));
     seconds := Number (groupStr m (g + 5)) |}.

Local Abbreviation dateFields m g :=
  {| year := Number (groupStr m g); month := Number (groupStr m (g + 1));
     day := Number (groupStr m (g + 2));
     hours := 0; minutes := 0; seconds := 0 |}.

Ltac read_digits :=
  rewrite matchRe_seq_digits;
  match goal with
  | |- context [digits ?n ?s] =>
      destruct (digits n s) as [[? ?]|];
      cbn [mbind option_bind fmap option_fmap option_map]; [|reflexivity]
  end.

Ltac read_char :=
  unfold C; rewrite matchRe_seq_class;
  match goal with
  | |- context [char ?p ?s] =>
      destruct (char p s) as [?|];
      cbn [mbind option_bind fmap option_fmap option_map]; [|reflexivity]
  end.

Ltac read_word :=
  rewrite matchRe_seq_word by reflexivity;
  match goal with
  | |- context [word ?w ?s] =>
      destruct (word w s) as [?|];
      cbn [mbind option_bind fmap option_fmap option_map]; [|reflexivity]
  end.

Ltac no_digit H :=
  rewrite matchRe_seq_digits, digits_none by (apply H; assumption);
  reflexivity.

Ltac read_spaces_digits :=
  rewrite matchRe_seq_spaces
    by (intros ? ? ?; rewrite matchRe_seq_digits,
          digits_none by (apply space_no_digit; assumption); reflexivity);
  match goal with
  | |- context [spaces ?s] =>
      destruct (spaces s) as [?|];
      cbn [mbind option_bind fmap option_fmap option_map]; [|reflexivity]
  end.

Lemma whatsappName_at (s : jsstring) :
  (λ m, dateTimeFields m 3) <$> execAt 8 (body whatsappNameRe) s
  = deviceDateTime s.
Proof.
  unfold execAt, deviceDateTime, dashedDate, dottedTime, dash, dot.
  cbn [body whatsappNameRe RCat foldr].
  rewrite (matchRe_seq_named 1 2 (str "WhatsApp ") _
             (map str ["Image"; "Video"; "Audio"; "Document"]%string))
    by (first [reflexivity | intros; apply kinds_alternatives]).
  destruct (word (str "WhatsApp ") s) as [s1|];
    cbn [mbind option_bind fmap option_fmap option_map]; [|reflexivity].
  destruct (oneOf _ s1) as [s2|];
    cbn [mbind option_bind fmap option_fmap option_map]; [|reflexivity].
  read_spaces_digits.
  read_digits. read_char. read_digits. read_char. read_digits.
  rewrite matchRe_seq_spaces
    by (intros ? ? ?; rewrite matchRe_seq_word by reflexivity;
        rewrite (word_none (chr "a") (str "t"));
        [reflexivity|reflexivity|apply space_no_a; assumption]).
  match goal with
  | |- context [spaces ?s] =>
      destruct (spaces s) as [?|];
      cbn [mbind option_bind fmap option_fmap option_map]; [|reflexivity]
  end.
  read_word. read_spaces_digits.
  read_digits. read_char. read_digits. read_char. read_digits.
  reflexivity.
Qed.

Lemma dateAtTime_at (s : jsstring) :
  (λ m, dateTimeFields m 1) <$> execAt 6 (body dateAtTimeRe) s
  = dateAtTime s.
Proof.
  unfold execAt, dateAtTime, dashedDate, dottedTime, dash, dot, blank.
  cbn [body dateAtTimeRe RCat foldr]. unfold isSpaceOrUnderscore.
  read_digits. read_char. read_digits. read_char. read_digits.
  rewrite matchRe_seq_class.
  match goal with
  | |- context [char ?p ?s] =>
      destruct (char p s) as [?|];
      cbn [mbind option_bind fmap option_fmap option_map]; [|reflexivity]
  end.
  read_word.
  rewrite matchRe_seq_optional
    by (intros ? ? ?; rewrite matchRe_seq_digits,
          digits_none by (apply blank_no_digit; assumption); reflexivity).
  read_digits. read_char. read_digits. read_char. read_digits.
  reflexivity.
Qed.

Lemma dateTime_at (s : jsstring) :
  (λ m, dateTimeFields m 1) <$> execAt 6 (body dateTimeRe) s
  = dateTime s.
Proof.
  unfold execAt, dateTime, dashedDate, dottedTime, dash, dot, blank.
  cbn [body dateTimeRe RCat foldr]. unfold isSpaceOrUnderscore.
  read_digits. read_char. read_digits. read_char. read_digits.
  rewrite matchRe_seq_class.
  match goal with
  | |- context [char ?p ?s] =>
      destruct (char p s) as [?|];
      cbn [mbind option_bind fmap option_fmap option_map]; [|reflexivity]
  end.
  read_digits. read_char. read_digits. read_char. read_digits.
  reflexivity.
Qed.

Lemma deviceName_at (s : jsstring) :
  (λ m, dateFields m 2) <$> execAt 4 (body deviceNameRe) s
  = devicePrefix s.
Proof.
  unfold execAt, devicePrefix, compactDate, dash.
  cbn [body deviceNameRe RCat foldr].
  rewrite (matchRe_seq_oneOf 1 _
             (map str ["IMG"; "VID"; "PTT"; "AUD"; "DOC"]%string))
    by (intros; apply prefix_alternatives).
  destruct (oneOf _ s) as [s1|];
    cbn [mbind option_bind fmap option_fmap option_map]; [|reflexivity].
  read_char. read_digits. read_digits. read_digits. read_word.
  rewrite matchRe_some_digits by reflexivity.
  match goal with
  | |- context [char ?p ?s] =>
      destruct (char p s) as [?|];
      cbn [mbind option_bind fmap option_fmap option_map]; reflexivity
  end.
Qed.

Lemma dashedDate_at (s : jsstring) :
  (λ m, dateFields m 1) <$> execAt 3 (body dashedDateRe) s
  = dateOnly dashedDate s.
Proof.
  unfold execAt, dateOnly, dashedDate, dash.
  cbn [body dashedDateRe RCat foldr].
  read_digits. read_char. read_digits. read_char. read_digits.
  reflexivity.
Qed.

Lemma compactDate_at (s : jsstring) :
  (λ m, dateFields m 1) <$> execAt 3 (body compactDateRe) s
  = dateOnly compactDate s.
Proof.
  unfold execAt, dateOnly, compactDate.
  cbn [body compactDateRe RCat foldr].
  read_digits. read_digits. read_digits.
  reflexivity.
Qed.

Lemma execFrom_anywhere {B} (n : nat) (r : regex) (F : captures → B)
    (f : jsstring → option B) :
  (∀ s, F <$> execAt n r s = f s) →
  ∀ s, F <$> execFrom n r s = anywhere f s.
Proof.
  intros H s. induction s as [|c s IH]; cbn [execFrom anywhere];
    rewrite <- H; destruct (execAt n r _); cbn; try reflexivity.
  exact IH.
Qed.

(** *** The last segment of a path *)

Lemma lastSegment_plain (n : jsstring) :
  chr "/" ∉ n → lastSegment n = n.
Proof.
  induction n as [|c n IH]; intros Hn; [reflexivity|].
  apply not_elem_of_cons in Hn as [Hc Hn]. cbn [lastSegment].
  rewrite bool_decide_eq_false_2 by exact Hn.
  rewrite (proj2 (N.eqb_neq c (chr "/"))) by congruence. reflexivity.
Qed.

Lemma lastSegment_path (d b : jsstring) :
  chr "/" ∉ b → lastSegment (d ++ chr "/" :: b) = b.
Proof.
  intros Hb. induction d as [|c d IH]; cbn [app lastSegment].
  - rewrite bool_decide_eq_false_2 by exact Hb. reflexivity.
  - rewrite bool_decide_eq_true_2; [exact IH|].
    apply elem_of_app. right. apply list_elem_of_here.
Qed.

Lemma pop_splitOn_lastSegment (n : jsstring) :
  pop (splitOn (chr "/") n) = lastSegment n.
Proof.
  destruct (last_separator (chr "/") n) as [Hn|(d & b & -> & Hb)].
  - rewrite (splitOn_absent _ n Hn), (lastSegment_plain n Hn). reflexivity.
  - rewrite (pop_splitOn_path _ d b Hb), (lastSegment_path d b Hb).
    reflexivity.
Qed.

(** The date the splitter reads from a name is the date of the name in
    the reading of the specification: the patterns of the program and
    their order are the readings and their order. *)
Lemma parseTimestampFromMediaFilename_reading (UTC : Z → Z) (n : jsstring) :
  parseTimestampFromMediaFilename UTC n = dateOfName UTC n.
Proof.
  unfold parseTimestampFromMediaFilename, dateOfName, fieldsOfName.
  cbv zeta. rewrite pop_splitOn_lastSegment.
  generalize (lastSegment n). intros base. unfold exec.
  cbn [anchored groups whatsappNameRe dateAtTimeRe dateTimeRe deviceNameRe
       dashedDateRe compactDateRe].
  rewrite <- (execFrom_anywhere 8 _ _ _ whatsappName_at base).
  destruct (execFrom 8 _ base) as [m|]; [reflexivity|].
  cbn [fmap option_fmap option_map].
  rewrite <- (execFrom_anywhere 6 _ _ _ dateAtTime_at base).
  destruct (execFrom 6 (body dateAtTimeRe) base) as [m|]; [reflexivity|].
  cbn [fmap option_fmap option_map].
  rewrite <- (execFrom_anywhere 6 _ _ _ dateTime_at base).
  destruct (execFrom 6 (body dateTimeRe) base) as [m|]; [reflexivity|].
  cbn [fmap option_fmap option_map].
  rewrite <- (deviceName_at base).
  destruct (execAt 4 _ base) as [m|]; [reflexivity|].
  cbn [fmap option_fmap option_map].
  rewrite <- (execFrom_anywhere 3 _ _ _ dashedDate_at base).
  destruct (execFrom 3 (body dashedDateRe) base) as [m|]; [reflexivity|].
  cbn [fmap option_fmap option_map].
  rewrite <- (execFrom_anywhere 3 _ _ _ compactDate_at base).
  destruct (execFrom 3 (body compactDateRe) base) as [m|]; reflexivity.
Qed.

End NameDates.

(** ** The media pass *)
Section MediaSelection.
Import Spilter SpecText.
Context {host : Host}.

Lemma inRange_bounds (ts start end_ : Date) :
  inRange ts start end_ = true
  ↔ ∃ t s e, ts = DateValue t ∧ start = DateValue s ∧ end_ = DateValue e
             ∧ s <= t <= e.
Proof.
  split.
  - destruct ts as [t|], start as [s|], end_ as [e|]; try discriminate.
    intros H. apply inRange_inclusive in H. eauto 10.
  - intros (t & s & e & -> & -> & -> & H). apply inRange_inclusive, H.
Qed.

Lemma mediaTimestamp_reading (UTC : Z → Z) (e : Entry) :
  mediaTimestamp UTC e = timestampOf UTC e.
Proof.
  unfold mediaTimestamp, timestampOf.
  rewrite parseTimestampFromMediaFilename_reading. reflexivity.
Qed.

Lemma isMediaName_extensionIn (exts : list jsstring) (n : jsstring) :
  isMediaName (map toLowerCase exts) n = true ↔ extensionIn exts n.
Proof. apply isMediaName_spec. Qed.

(** The test of the media loop is the condition of the specification. *)
Lemma selected_reading (UTC : Z → Z) (start end_ : Date)
    (exts : list jsstring) (e : Entry) :
  selected UTC start end_ (map toLowerCase exts) e = true
  ↔ extensionIn exts (name e) ∧ datedWithin UTC start end_ e.
Proof.
  unfold selected, datedWithin.
  rewrite andb_true_iff, isMediaName_extensionIn, mediaTimestamp_reading.
  apply and_iff_compat_l.
  destruct (timestampOf UTC e) as [ts|].
  - rewrite inRange_bounds. split.
    + intros (t & s & e' & -> & H). eauto 10.
    + intros (t & s & e' & [= ->] & H). eauto 10.
  - split; [discriminate|]. intros (t & s & e' & [=] & _).
Qed.

(** For a list of ASCII extensions the host plays no part. *)
Lemma extensionIn_ASCII (exts : list jsstring) (n : jsstring) :
  Forall (λ x, isASCII x = true) exts →
  extensionIn exts n
  ↔ ∃ pre ext, n = pre ++ chr "." :: ext ∧ ext ≠ []
               ∧ forallb isAlnum ext = true
               ∧ lowerASCII ext ∈ map lowerASCII exts.
Proof.
  intros Hexts.
  assert (Hmap : map toLowerCase exts = map lowerASCII exts).
  { induction Hexts as [|x l Hx _ IH]; [reflexivity|].
    cbn [map]. rewrite IH, (toLowerCase_ASCII x Hx). reflexivity. }
  unfold extensionIn. rewrite Hmap.
  split; intros (pre & ext & Hn & Hne & Hal & Hin); exists pre, ext;
    (split; [exact Hn|]); (split; [exact Hne|]); (split; [exact Hal|]).
  - rewrite <- (toLowerCase_alnum ext Hal). exact Hin.
  - rewrite (toLowerCase_alnum ext Hal). exact Hin.
Qed.

(** The two sample names under the range from 2024-01-03 to 2024-01-08,
    in a host whose local time is within a day of UTC. *)
Lemma sample_media_near_UTC (UTC : Z → Z) (zip : list Entry) (e1 e2 : Entry) :
  (∀ t, Z.abs (UTC t - t) <= msPerDay) →
  NoDup (name <$> zip) → e1 ∈ zip → e2 ∈ zip →
  dir e1 = false → dir e2 = false →
  name e1 = str "IMG-20240105-WA0001.jpg" →
  name e2 = str "IMG-20240120-WA0002.jpg" →
  let out := splitZipByTimeRangeAndMedia UTC zip
               (defaultOptions (newDate UTC 2024 0 3 0 0 0)
                               (newDate UTC 2024 0 8 0 0 0)) in
  out !! name e1 = Some (BinaryContent (data e1)) ∧ out !! name e2 = None.
Proof.
  intros Hb Hnd He1 He2 Hd1 Hd2 Hn1 Hn2 out. subst out.
  unfold msPerDay in Hb.
  assert (Hclip : ∀ t, Z.abs t <= 8000000000000000 →
                       TimeClip (UTC t) = DateValue (UTC t)).
  { intros t Ht. unfold TimeClip.
    destruct (Z.leb_spec (Z.abs (UTC t)) 8640000000000000);
      [reflexivity | specialize (Hb t); lia]. }
  assert (Hs : newDate UTC 2024 0 3 0 0 0 = DateValue (UTC 1704240000000)).
  { rewrite (newDate_any_host UTC _ _ _ _ _ _ 1704240000000)
      by (vm_compute; reflexivity).
    apply Hclip. vm_compute. discriminate. }
  assert (He : newDate UTC 2024 0 8 0 0 0 = DateValue (UTC 1704672000000)).
  { rewrite (newDate_any_host UTC _ _ _ _ _ _ 1704672000000)
      by (vm_compute; reflexivity).
    apply Hclip. vm_compute. discriminate. }
  assert (Hnochat : ∀ e n, name e = n →
            existsb (λ rx, test rx n) DEFAULT_CHAT_CANDIDATES = false →
            test txtRe n = false →
            ∀ c, findChatFile zip DEFAULT_CHAT_CANDIDATES = Some c →
                 name e ≠ name c).
  { intros e n Hn Hx Ht c Hc Heq. apply findChatFile_name in Hc.
    rewrite <- Heq, Hn, Hx, Ht in Hc. destruct Hc; discriminate. }
  split.
  - rewrite split_media_lookup; try assumption; try discriminate.
    + unfold selected, mediaTimestamp. cbn [defaultOptions start end_ mediaExtensions default].
      rewrite Hn1.
      replace (isMediaName _ _) with true by (vm_compute; reflexivity).
      rewrite (parseTimestampFromMediaFilename_any_host UTC _ 1704412800000)
        by (vm_compute; reflexivity).
      rewrite Hclip by (vm_compute; discriminate).
      cbn [validOrNull isValidDate andb]. rewrite Hs, He.
      replace (inRange _ _ _) with true; [reflexivity|].
      symmetry. apply inRange_inclusive.
      pose proof (Hb 1704240000000). pose proof (Hb 1704412800000).
      pose proof (Hb 1704672000000). lia.
    + apply (Hnochat e1 _ Hn1); vm_compute; reflexivity.
  - rewrite split_media_lookup; try assumption; try discriminate.
    + unfold selected, mediaTimestamp. cbn [defaultOptions start end_ mediaExtensions default].
      rewrite Hn2.
      replace (isMediaName _ _) with true by (vm_compute; reflexivity).
      rewrite (parseTimestampFromMediaFilename_any_host UTC _ 1705708800000)
        by (vm_compute; reflexivity).
      rewrite Hclip by (vm_compute; discriminate).
      cbn [validOrNull isValidDate andb]. rewrite Hs, He.
      replace (inRange _ _ _) with false; [reflexivity|].
      symmetry. apply not_true_is_false. rewrite inRange_inclusive.
      pose proof (Hb 1704672000000). pose proof (Hb 1705708800000). lia.
    + apply (Hnochat e2 _ Hn2); vm_compute; reflexivity.
Qed.

(** C2. When media are included (the default), an entry of the archive
    (whose entries have distinct names, being the keys of [zip.files])
    that is neither a directory nor the transcript is in the output, with
    its bytes under its name, if and only if (a) its name ends with a dot
    and a non-empty run of ASCII letters and digits whose lower-case form
    is the lower-case form of an extension of the active list, and (b)
    it has a timestamp, and the timestamp lies between the two bounds,
    bounds included; otherwise the output has no entry of that name. The
    timestamp the program reads from a name is the one of the reading of
    the specification: the first, in the order device name with date and
    time, date with [at] and time, date and time, device prefix with
    date, dashed date, compact date, of the readings that succeeds
    somewhere in the last segment of the name (the device prefix at its
    start); without one, the stored date of the entry; an entry with
    neither is left out. For a list of ASCII extensions the host plays no
    part in (a); in a host that lower-cases U+212A KELVIN SIGN to [k],
    as the Unicode tables do, the list of the one extension [m], KELVIN
    SIGN, [v] selects [film.mkv]. For the range from 2024-01-03 to
    2024-01-08 local time, [IMG-20240105-WA0001.jpg] is retained and
    [IMG-20240120-WA0002.jpg] is not, in every host whose local time is
    within a day of UTC and in every host whose conversion to UTC is
    increasing. *)
Theorem split_media_selection :
  (∀ UTC zip options e,
     NoDup (name <$> zip) → e ∈ zip →
     includeMedia options ≠ Some false →
     dir e = false →
     (∀ c, findChatFile zip
             (default DEFAULT_CHAT_CANDIDATES (chatFilenameCandidates options))
           = Some c →
           name e ≠ name c) →
     let out := splitZipByTimeRangeAndMedia UTC zip options in
     (out !! name e = Some (BinaryContent (data e))
      ↔ extensionIn (default DEFAULT_MEDIA_EXTS (mediaExtensions options))
          (name e)
        ∧ datedWithin UTC (start options) (end_ options) e)
     ∧ (out !! name e = Some (BinaryContent (data e)) ∨ out !! name e = None))
  ∧ (∀ UTC n, parseTimestampFromMediaFilename UTC n = dateOfName UTC n)
  ∧ (∀ UTC e, mediaTimestamp UTC e = timestampOf UTC e)
  ∧ (∀ exts n,
       Forall (λ x, isASCII x = true) exts →
       extensionIn exts n
       ↔ ∃ pre ext, n = pre ++ chr "." :: ext ∧ ext ≠ []
                    ∧ forallb isAlnum ext = true
                    ∧ lowerASCII ext ∈ map lowerASCII exts)
  ∧ (let fields y mo d h mi s :=
       Some {| year := y; month := mo; day := d;
               hours := h; minutes := mi; seconds := s |} in
     fieldsOfName
       (str "2023-02-02 03.04.05 WhatsApp Image 2024-01-05 at 10.11.12.jpeg")
     = fields 2024 1 5 10 11 12
     ∧ fieldsOfName (str "2023-02-02_03.04.05 Screen 2024-01-05 at 10.11.12.png")
       = fields 2024 1 5 10 11 12
     ∧ fieldsOfName (str "shot_2024-01-05_AT_10.11.12.png")
       = fields 2024 1 5 10 11 12
     ∧ fieldsOfName (str "clip 2024-01-05_10.11.12.mp4")
       = fields 2024 1 5 10 11 12
     ∧ fieldsOfName (str "IMG-20240105-WA0001 2023-02-02_03.04.05.jpg")
       = fields 2023 2 2 3 4 5
     ∧ fieldsOfName (str "IMG-20240105-WA0001 2023-02-02.jpg")
       = fields 2024 1 5 0 0 0
     ∧ fieldsOfName (str "Media/2023-02-02/img-20240105-wa7.jpg")
       = fields 2024 1 5 0 0 0
     ∧ fieldsOfName (str "scan 2024-01-05 v20230202.pdf")
       = fields 2024 1 5 0 0 0
     ∧ fieldsOfName (str "20240105_101112.jpg") = fields 2024 1 5 0 0 0
     ∧ fieldsOfName (str "holiday.jpg") = None
     ∧ dateOfName (λ t, t) (str "clip 2024-01-05_10.11.12.mp4")
       = Some (DateValue 1704449472000)
     ∧ parseTimestampFromMediaFilename (λ t, t)
         (str "shot_2024-01-05_AT_10.11.12.png")
       = Some (DateValue 1704449472000))
  ∧ splitZipByTimeRangeAndMedia (host := sampleHost) (λ t, t) [sampleFilm]
      {| start := DateValue 1704240000000; end_ := DateValue 1704672000000;
         includeChat := None; includeMedia := None;
         mediaExtensions := Some [[109; 8490; 118]%N];
         chatFilenameCandidates := None |} !! name sampleFilm
    = Some (BinaryContent (data sampleFilm))
  ∧ (∀ UTC zip e1 e2,
       (∀ t, Z.abs (UTC t - t) <= msPerDay) →
       NoDup (name <$> zip) → e1 ∈ zip → e2 ∈ zip →
       dir e1 = false → dir e2 = false →
       name e1 = str "IMG-20240105-WA0001.jpg" →
       name e2 = str "IMG-20240120-WA0002.jpg" →
       let out := splitZipByTimeRangeAndMedia UTC zip
                    (defaultOptions (newDate UTC 2024 0 3 0 0 0)
                                    (newDate UTC 2024 0 8 0 0 0)) in
       out !! name e1 = Some (BinaryContent (data e1))
       ∧ out !! name e2 = None)
  ∧ (∀ UTC zip e1 e2,
       (∀ t, Z.abs t <= 8000000000000000 → Z.abs (UTC t) <= 8640000000000000) →
       (∀ a b, a < b → UTC a < UTC b) →
       NoDup (name <$> zip) → e1 ∈ zip → e2 ∈ zip →
       dir e1 = false → dir e2 = false →
       name e1 = str "IMG-20240105-WA0001.jpg" →
       name e2 = str "IMG-20240120-WA0002.jpg" →
       let out := splitZipByTimeRangeAndMedia UTC zip
                    (defaultOptions (newDate UTC 2024 0 3 0 0 0)
                                    (newDate UTC 2024 0 8 0 0 0)) in
       out !! name e1 = Some (BinaryContent (data e1))
       ∧ out !! name e2 = None).
Proof.
  split; [|split; [exact parseTimestampFromMediaFilename_reading|
           split; [exact mediaTimestamp_reading|
           split; [exact extensionIn_ASCII|
           split; [|split; [vm_compute; reflexivity|
           split; [exact sample_media_near_UTC|exact sample_media]]]]]]].
  - intros UTC zip options e Hnd He Hinc Hdir Hchat out. subst out.
    rewrite (split_media_lookup UTC zip options e Hnd He Hinc Hdir Hchat).
    rewrite <- selected_reading.
    destruct (selected _ _ _ _ e).
    + split; [|left; reflexivity]. split; reflexivity.
    + split; [|right; reflexivity]. split; discriminate.
  - cbv zeta. repeat split; vm_compute; reflexivity.
Qed.
End MediaSelection.

Section MediaSelectionSamples.
Import Spilter SpecText.
#[local] Existing Instance sampleHost.

Lemma split_media_selection_witness :
  let out := splitZipByTimeRangeAndMedia (λ t, t) sampleZip
               (defaultOptions (DateValue 1704240000000)
                               (DateValue 1704672000000)) in
  (out !! name sampleImageIn = Some (BinaryContent (data sampleImageIn))
   ↔ extensionIn DEFAULT_MEDIA_EXTS (name sampleImageIn)
     ∧ datedWithin (λ t, t) (DateValue 1704240000000) (DateValue 1704672000000)
         sampleImageIn)
  ∧ out !! name sampleImageIn = Some (BinaryContent (data sampleImageIn))
  ∧ out !! name sampleImageOut = None.
Proof.
  destruct split_media_selection as (Hgen & _ & _ & _ & _ & _ & Hsample & _).
  split.
  - refine (proj1 (Hgen (λ t, t) sampleZip
              (defaultOptions (DateValue 1704240000000)
                              (DateValue 1704672000000))
              sampleImageIn _ _ _ _ _)).
    + by_compute.
    + apply list_elem_of_further, list_elem_of_here.
    + discriminate.
    + reflexivity.
    + intros c Hc. vm_compute in Hc. injection Hc as <-. discriminate.
  - apply (Hsample (λ t, t) sampleZip sampleImageIn sampleImageOut).
    + intros t. replace (t - t) with 0 by lia. discriminate.
    + by_compute.
    + apply list_elem_of_further, list_elem_of_here.
    + do 2 apply list_elem_of_further. apply list_elem_of_here.
    + reflexivity.
    + reflexivity.
    + reflexivity.
    + reflexivity.
Defined.
End MediaSelectionSamples.

(** ** What the output archive holds *)
Section SplitOutput.
Import Spilter.
Context {host : Host}.

Lemma validOrNull_valid (d : Date) :
  match validOrNull d with Some d' => isValidDate d' = true | None => True end.
Proof. unfold validOrNull. destruct (isValidDate d) eqn:E; [exact E|exact I]. Qed.

Lemma chat_line_date_valid (UTC : Z → Z) (line : jsstring) :
  match parseTimestampFromChatLine UTC line with
  | Some d => isValidDate d = true
  | None => True
  end.
Proof.
  unfold parseTimestampFromChatLine, dateOfGroups. cbv zeta.
  destruct (negb _); [exact I|].
  destruct (exec bracketLineRe _); [apply validOrNull_valid|].
  destruct (exec dashLineRe _); [apply validOrNull_valid|].
  destruct (exec meridiemLineRe _); [apply validOrNull_valid|].
  destruct (exec dotLineRe _); [apply validOrNull_valid|].
  destruct (exec isoHyphenLineRe _); [apply validOrNull_valid|].
  destruct (exec isoSlashLineRe _); [apply validOrNull_valid|].
  exact I.
Qed.

Lemma media_name_date_valid (UTC : Z → Z) (n : jsstring) :
  match parseTimestampFromMediaFilename UTC n with
  | Some d => isValidDate d = true
  | None => True
  end.
Proof.
  unfold parseTimestampFromMediaFilename, dateTimeOfGroups, dateOnlyOfGroups.
  cbv zeta.
  destruct (exec whatsappNameRe _); [apply validOrNull_valid|].
  destruct (match exec dateAtTimeRe _ with Some m => Some m | None => _ end);
    [apply validOrNull_valid|].
  destruct (exec deviceNameRe _); [apply validOrNull_valid|].
  destruct (exec dashedDateRe _); [apply validOrNull_valid|].
  destruct (exec compactDateRe _); [apply validOrNull_valid|].
  exact I.
Qed.

(** X5. Neither timestamp parser of the splitter ever returns an
    invalid date: a line or a name whose fields give no valid date (in
    whatever time zone the host is) has no timestamp, as if no pattern
    had matched. *)
Theorem parsed_timestamps_are_valid (UTC : Z → Z) (s : jsstring) :
  match parseTimestampFromChatLine UTC s with
  | Some d => isValidDate d = true
  | None => True
  end
  ∧ match parseTimestampFromMediaFilename UTC s with
    | Some d => isValidDate d = true
    | None => True
    end.
Proof. split; [apply chat_line_date_valid | apply media_name_date_valid]. Qed.

(** X6. The timestamp read from the name of an entry is read from
    its last path segment: the folders an entry lies in play no part. *)
Theorem media_timestamp_ignores_folder (UTC : Z → Z) (folder base : jsstring) :
  chr "/" ∉ base →
  parseTimestampFromMediaFilename UTC (folder ++ chr "/" :: base)
  = parseTimestampFromMediaFilename UTC base.
Proof.
  intros Hb. unfold parseTimestampFromMediaFilename.
  rewrite pop_splitOn_path by exact Hb.
  rewrite (splitOn_absent _ base Hb). reflexivity.
Qed.

Lemma media_timestamp_ignores_folder_witness :
  parseTimestampFromMediaFilename (λ t, t)
    (str "Media 2019-01-01" ++ chr "/" :: str "IMG-20240105-WA0001.jpg")
  = parseTimestampFromMediaFilename (λ t, t) (str "IMG-20240105-WA0001.jpg").
Proof.
  apply media_timestamp_ignores_folder. by_compute.
Defined.

Section Provenance.
Variables (UTC : Z → Z) (start end_ : Date) (mediaSet : list jsstring)
          (chatEntry : option Entry).

Local Abbreviation copy := (copyMedia UTC start end_ mediaSet chatEntry).
Local Abbreviation copiedFrom := (copied UTC start end_ mediaSet chatEntry).

Lemma copyMedia_Some out e n c :
  copy out e !! n = Some c → out !! n = Some c ∨ copiedFrom [e] n c.
Proof.
  unfold copyMedia, copied, selected.
  destruct (dir e) eqn:Hdir; [auto|].
  destruct (match chatEntry with Some c0 => bool_decide (name e = name c0)
                               | None => false end) eqn:Hch; [auto|].
  destruct (isMediaName mediaSet (name e)) eqn:Hm; cbn [negb andb]; [|auto].
  destruct (mediaTimestamp UTC e) as [ts|] eqn:Hts; [|auto].
  destruct (inRange ts start end_) eqn:Hr; [|auto].
  destruct (decide (n = name e)) as [->|Hne].
  - rewrite lookup_insert_eq. intros [= <-]. right.
    exists e. split; [apply list_elem_of_here|].
    rewrite Hm, Hts, Hr.
    refine (conj eq_refl (conj Hdir (conj _ (conj eq_refl eq_refl)))).
    intros ch ->. apply bool_decide_eq_false in Hch. exact Hch.
  - rewrite lookup_insert_ne by congruence. auto.
Qed.

Lemma copyMedia_fold_Some zip : ∀ out n c,
  fold_left copy zip out !! n = Some c → out !! n = Some c ∨ copiedFrom zip n c.
Proof.
  induction zip as [|a rest IH]; intros out n c H; [left; exact H|].
  cbn [fold_left] in H. apply IH in H as [H|(e & He & H)].
  - apply copyMedia_Some in H as [H|(e & He & H)]; [left; exact H|].
    right. exists e. split; [|exact H].
    apply list_elem_of_singleton in He as ->. apply list_elem_of_here.
  - right. exists e. split; [apply list_elem_of_further; exact He|exact H].
Qed.

Lemma copyMedia_keeps_chat zip ch : ∀ out,
  chatEntry = Some ch →
  fold_left copy zip out !! name ch = out !! name ch.
Proof.
  induction zip as [|a rest IH]; intros out Hch; [reflexivity|].
  cbn [fold_left]. rewrite IH by exact Hch.
  destruct (decide (name a = name ch)) as [Heq|Hne].
  - unfold copyMedia. rewrite Hch, (bool_decide_eq_true_2 _ Heq).
    destruct (dir a); reflexivity.
  - apply copyMedia_lookup_ne. congruence.
Qed.

Lemma copyMedia_out_of_range zip : ∀ out,
  (∀ d, inRange d start end_ = false) → fold_left copy zip out = out.
Proof.
  induction zip as [|a rest IH]; intros out Hr; [reflexivity|].
  cbn [fold_left].
  replace (copy out a) with out; [apply IH; exact Hr|].
  unfold copyMedia. destruct (dir a); [reflexivity|].
  destruct (match chatEntry with Some _ => _ | None => _ end); [reflexivity|].
  destruct (negb _); [reflexivity|].
  destruct (mediaTimestamp UTC a); [|reflexivity].
  rewrite Hr. reflexivity.
Qed.
End Provenance.

Lemma filterChatByRange_out_of_range (UTC : Z → Z) (chatText : jsstring)
    (start end_ : Date) :
  (∀ d, inRange d start end_ = false) →
  filterChatByRange UTC chatText start end_ = [].
Proof.
  intros Hr. unfold filterChatByRange.
  assert (H : ∀ lines,
    fold_left (filterLine UTC start end_) lines (false, []) = (false, [])).
  { induction lines as [|l lines IH]; [reflexivity|].
    cbn [fold_left]. unfold filterLine at 2.
    destruct (parseTimestampFromChatLine UTC l); [rewrite Hr|]; exact IH. }
  rewrite H. reflexivity.
Qed.

Lemma inRange_no_range (start end_ : Date) :
  start = InvalidDate ∨ end_ = InvalidDate
  ∨ (∃ s e, start = DateValue s ∧ end_ = DateValue e ∧ e < s) →
  ∀ d, inRange d start end_ = false.
Proof.
  intros [->|[->|(s & e & -> & -> & Hlt)]] d; destruct d; try reflexivity.
  - destruct start; reflexivity.
  - cbn. apply andb_false_iff.
    destruct (Z.leb_spec s t); [right; apply Z.leb_gt; lia|left; reflexivity].
Qed.

Lemma split_unfold (UTC : Z → Z) (zip : list Entry) (options : SplitOptions) :
  splitZipByTimeRangeAndMedia UTC zip options
  = let out : gmap jsstring Content :=
      match chatEntryOf zip options with
      | Some c => <[name c := TextContent
                     (filterChatByRange UTC (text c) (start options)
                        (end_ options))]> ∅
      | None => ∅
      end in
    if default true (includeMedia options)
    then fold_left (copyMedia UTC (start options) (end_ options)
                      (mediaSetOf options) (chatEntryOf zip options)) zip out
    else out.
Proof.
  unfold splitZipByTimeRangeAndMedia, chatEntryOf, mediaSetOf. cbv zeta.
  destruct (default true (includeChat options)); [reflexivity|].
  reflexivity.
Qed.

Lemma findChatFile_in (zip : list Entry) (patterns : list RegExp) (c : Entry) :
  findChatFile zip patterns = Some c → c ∈ zip ∧ dir c = false.
Proof.
  unfold findChatFile.
  destruct (List.find _ zip) as [c'|] eqn:E.
  - intros [= <-]. apply List.find_some in E as [Hin E].
    apply andb_prop in E as [E _]. apply negb_true_iff in E.
    split; [apply list_elem_of_In; exact Hin|exact E].
  - intros E'. apply List.find_some in E' as [Hin E'].
    apply andb_prop in E' as [E' _]. apply andb_prop in E' as [E' _].
    apply negb_true_iff in E'.
    split; [apply list_elem_of_In; exact Hin|exact E'].
Qed.

Lemma chatEntryOf_Some (zip : list Entry) (options : SplitOptions) (c : Entry) :
  chatEntryOf zip options = Some c →
  includeChat options ≠ Some false ∧ c ∈ zip ∧ dir c = false.
Proof.
  unfold chatEntryOf. destruct (includeChat options) as [[]|]; cbn [default];
    try discriminate; intros H; (split; [discriminate|]);
    exact (findChatFile_in _ _ _ H).
Qed.

Lemma split_lookup_Some (UTC : Z → Z) (zip : list Entry)
    (options : SplitOptions) (n : jsstring) (c : Content) :
  splitZipByTimeRangeAndMedia UTC zip options !! n = Some c →
  (∃ e, chatEntryOf zip options = Some e ∧ name e = n
        ∧ c = TextContent (filterChatByRange UTC (text e) (start options)
                             (end_ options)))
  ∨ (includeMedia options ≠ Some false
     ∧ copied UTC (start options) (end_ options) (mediaSetOf options)
         (chatEntryOf zip options) zip n c).
Proof.
  rewrite split_unfold. cbv zeta.
  assert (Hout : ∀ n c,
    (match chatEntryOf zip options with
     | Some c0 => <[name c0 := TextContent
                      (filterChatByRange UTC (text c0) (start options)
                         (end_ options))]> (∅ : gmap jsstring Content)
     | None => ∅
     end) !! n = Some c →
    ∃ e, chatEntryOf zip options = Some e ∧ name e = n
         ∧ c = TextContent (filterChatByRange UTC (text e) (start options)
                              (end_ options))).
  { intros n' c'. destruct (chatEntryOf zip options) as [c0|].
    - intros H. apply lookup_insert_Some in H as [[<- <-]|[_ H]].
      + exists c0. auto.
      + rewrite lookup_empty in H. discriminate.
    - rewrite lookup_empty. discriminate. }
  destruct (includeMedia options) as [[]|]; cbn [default].
  - intros H. apply copyMedia_fold_Some in H as [H|H].
    + left. apply Hout. exact H.
    + right. split; [discriminate|exact H].
  - intros H. left. apply Hout. exact H.
  - intros H. apply copyMedia_fold_Some in H as [H|H].
    + left. apply Hout. exact H.
    + right. split; [discriminate|exact H].
Qed.

Lemma split_media_lookup_chat (UTC : Z → Z) (zip : list Entry)
    (options : SplitOptions) (e : Entry) :
  NoDup (name <$> zip) → e ∈ zip →
  includeMedia options ≠ Some false →
  dir e = false →
  (∀ c, chatEntryOf zip options = Some c → name e ≠ name c) →
  splitZipByTimeRangeAndMedia UTC zip options !! name e
  = if selected UTC (start options) (end_ options) (mediaSetOf options) e
    then Some (BinaryContent (data e)) else None.
Proof.
  intros Hnd He Hinc Hdir Hchat. rewrite split_unfold. cbv zeta.
  replace (default true (includeMedia options)) with true
    by (destruct (includeMedia options) as [[]|]; [reflexivity|congruence|reflexivity]).
  rewrite (copyMedia_fold_in UTC (start options) (end_ options) _ _ zip)
    by assumption.
  destruct (selected _ _ _ _ e); [reflexivity|].
  destruct (chatEntryOf zip options) as [c|] eqn:Ec; [|apply lookup_empty].
  apply lookup_insert_None. split; [apply lookup_empty|].
  intros Heq. apply (Hchat c eq_refl). symmetry. exact Heq.
Qed.

Lemma split_transcript_lookup (UTC : Z → Z) (zip : list Entry)
    (options : SplitOptions) (c : Entry) :
  chatEntryOf zip options = Some c →
  splitZipByTimeRangeAndMedia UTC zip options !! name c
  = Some (TextContent (filterChatByRange UTC (text c) (start options)
                         (end_ options))).
Proof.
  intros Hc. rewrite split_unfold. cbv zeta. rewrite Hc.
  destruct (default true (includeMedia options)).
  - rewrite (copyMedia_keeps_chat _ _ _ _ _ zip c) by reflexivity.
    apply lookup_insert_eq.
  - apply lookup_insert_eq.
Qed.

Lemma inRange_wider (d : Date) (s1 e1 s2 e2 : Z) :
  s2 <= s1 → e1 <= e2 →
  inRange d (DateValue s1) (DateValue e1) = true →
  inRange d (DateValue s2) (DateValue e2) = true.
Proof.
  intros Hs He. destruct d as [t|]; [|discriminate]. cbn.
  rewrite !andb_true_iff, !Z.leb_le. lia.
Qed.

(** X7. Every file of the output archive comes from an entry of the
    input archive that is not a directory and is stored under that
    entry's name; it is either the transcript, holding the filtered
    text of the chat file (only when the chat is included), or an entry
    with the entry's own bytes (only when media are included) whose
    extension is, the case of letters apart, in the active list and
    whose timestamp, the date of its name or else its stored date, lies
    between the bounds. The splitter invents no file, renames none, and
    alters no media file. *)
Theorem split_output_provenance (UTC : Z → Z) (zip : list Entry)
    (options : SplitOptions) (n : jsstring) (c : Content) :
  splitZipByTimeRangeAndMedia UTC zip options !! n = Some c →
  ∃ e, e ∈ zip ∧ name e = n ∧ dir e = false
       ∧ ((includeChat options ≠ Some false
           ∧ findChatFile zip
               (default DEFAULT_CHAT_CANDIDATES (chatFilenameCandidates options))
             = Some e
           ∧ c = TextContent (filterChatByRange UTC (text e) (start options)
                                (end_ options)))
          ∨ (includeMedia options ≠ Some false
             ∧ SpecText.extensionIn
                 (default DEFAULT_MEDIA_EXTS (mediaExtensions options)) (name e)
             ∧ SpecText.datedWithin UTC (start options) (end_ options) e
             ∧ c = BinaryContent (data e))).
Proof.
  intros H. apply split_lookup_Some in H as [(e & He & Hn & ->)|[Hm H]].
  - destruct (chatEntryOf_Some _ _ _ He) as (Hic & Hin & Hdir).
    exists e. split; [exact Hin|]. split; [exact Hn|]. split; [exact Hdir|].
    left. split; [exact Hic|]. split; [|reflexivity].
    unfold chatEntryOf in He.
    destruct (default true (includeChat options)); [exact He|discriminate].
  - destruct H as (e & Hin & Hn & Hdir & _ & Hsel & ->).
    exists e. split; [exact Hin|]. split; [exact Hn|]. split; [exact Hdir|].
    apply selected_reading in Hsel as [Hext Hdate].
    right. split; [exact Hm|]. split; [exact Hext|].
    split; [exact Hdate|reflexivity].
Qed.

(** X8. When the chat is included (the default) and the archive has
    a chat file, the output holds under the chat file's name exactly the
    filtered transcript, whatever the media pass does: the chat file is
    never copied as a media file, even when txt is among the media
    extensions, and no media entry overwrites it. *)
Theorem split_transcript_entry (UTC : Z → Z) (zip : list Entry)
    (options : SplitOptions) (c : Entry) :
  includeChat options ≠ Some false →
  findChatFile zip
    (default DEFAULT_CHAT_CANDIDATES (chatFilenameCandidates options))
  = Some c →
  splitZipByTimeRangeAndMedia UTC zip options !! name c
  = Some (TextContent (filterChatByRange UTC (text c) (start options)
                         (end_ options))).
Proof.
  intros Hic Hc. apply split_transcript_lookup. unfold chatEntryOf.
  destruct (includeChat options) as [[]|]; cbn [default];
    [exact Hc|congruence|exact Hc].
Qed.

(** X9. With a range that holds no instant (an invalid start or end
    date, or an end before the start) the splitter does not fail: the
    output has no media file, and when the chat is included and found it
    has the chat file with an empty text. *)
Theorem split_empty_range (UTC : Z → Z) (zip : list Entry)
    (options : SplitOptions) :
  start options = InvalidDate ∨ end_ options = InvalidDate
  ∨ (∃ s e, start options = DateValue s ∧ end_ options = DateValue e ∧ e < s) →
  splitZipByTimeRangeAndMedia UTC zip options
  = match (if default true (includeChat options)
           then findChatFile zip
                  (default DEFAULT_CHAT_CANDIDATES
                     (chatFilenameCandidates options))
           else None) with
    | Some c => <[name c := TextContent []]> ∅
    | None => ∅
    end.
Proof.
  intros H. pose proof (inRange_no_range _ _ H) as Hr.
  rewrite split_unfold. cbv zeta. fold (chatEntryOf zip options).
  destruct (default true (includeMedia options)).
  - rewrite copyMedia_out_of_range by exact Hr.
    destruct (chatEntryOf zip options); [|reflexivity].
    rewrite filterChatByRange_out_of_range by exact Hr. reflexivity.
  - destruct (chatEntryOf zip options); [|reflexivity].
    rewrite filterChatByRange_out_of_range by exact Hr. reflexivity.
Qed.

(** X10. Widening the range never loses a media file: with the other
    options unchanged, every media file of the output for a range is in
    the output for any range that contains it, with the same bytes
    (entry names being distinct, as the keys of [zip.files] are). *)
Theorem split_media_monotone (UTC : Z → Z) (zip : list Entry)
    (s1 e1 s2 e2 : Z) (ic im : option bool) (exts : option (list jsstring))
    (cands : option (list RegExp)) (n : jsstring) (b : list N) :
  NoDup (name <$> zip) →
  s2 <= s1 → e1 <= e2 →
  splitZipByTimeRangeAndMedia UTC zip
    {| start := DateValue s1; end_ := DateValue e1; includeChat := ic;
       includeMedia := im; mediaExtensions := exts;
       chatFilenameCandidates := cands |} !! n = Some (BinaryContent b) →
  splitZipByTimeRangeAndMedia UTC zip
    {| start := DateValue s2; end_ := DateValue e2; includeChat := ic;
       includeMedia := im; mediaExtensions := exts;
       chatFilenameCandidates := cands |} !! n = Some (BinaryContent b).
Proof.
  intros Hnd Hs He H.
  apply split_lookup_Some in H as [(e & _ & _ & [=])|[Hm H]].
  destruct H as (e & Hin & <- & Hdir & Hch & Hsel & [= ->]).
  rewrite split_media_lookup_chat; [|assumption|assumption|assumption|assumption|exact Hch].
  replace (selected _ _ _ _ e) with true; [reflexivity|].
  symmetry. unfold selected, mediaSetOf in *.
  cbn [start end_ mediaExtensions] in *.
  apply andb_prop in Hsel as [-> Hsel]. cbn [andb].
  destruct (mediaTimestamp UTC e) as [ts|]; [|discriminate].
  exact (inRange_wider ts s1 e1 s2 e2 Hs He Hsel).
Qed.

End SplitOutput.

Section SplitOutputSamples.
Import Spilter.
#[local] Existing Instance sampleHost.

Lemma split_output_provenance_witness :
  ∃ e, e ∈ sampleZip ∧ name e = name sampleImageIn ∧ dir e = false
       ∧ ((includeChat (defaultOptions (DateValue 1704240000000)
                          (DateValue 1704672000000)) ≠ Some false
           ∧ findChatFile sampleZip
               (default DEFAULT_CHAT_CANDIDATES
                  (chatFilenameCandidates
                     (defaultOptions (DateValue 1704240000000)
                        (DateValue 1704672000000))))
             = Some e
           ∧ BinaryContent (data sampleImageIn)
             = TextContent
                 (filterChatByRange (λ t, t) (text e)
                    (start (defaultOptions (DateValue 1704240000000)
                              (DateValue 1704672000000)))
                    (end_ (defaultOptions (DateValue 1704240000000)
                             (DateValue 1704672000000)))))
          ∨ (includeMedia (defaultOptions (DateValue 1704240000000)
                             (DateValue 1704672000000)) ≠ Some false
             ∧ SpecText.extensionIn
                 (default DEFAULT_MEDIA_EXTS
                    (mediaExtensions
                       (defaultOptions (DateValue 1704240000000)
                          (DateValue 1704672000000)))) (name e)
             ∧ SpecText.datedWithin (λ t, t)
                 (start (defaultOptions (DateValue 1704240000000)
                           (DateValue 1704672000000)))
                 (end_ (defaultOptions (DateValue 1704240000000)
                          (DateValue 1704672000000))) e
             ∧ BinaryContent (data sampleImageIn) = BinaryContent (data e))).
Proof.
  apply (split_output_provenance (λ t, t) sampleZip
           (defaultOptions (DateValue 1704240000000) (DateValue 1704672000000))
           (name sampleImageIn) (BinaryContent (data sampleImageIn))).
  vm_compute. reflexivity.
Defined.

Lemma split_transcript_entry_witness :
  splitZipByTimeRangeAndMedia (λ t, t) sampleZip
    {| start := DateValue 1704240000000; end_ := DateValue 1704672000000;
       includeChat := None; includeMedia := None;
       mediaExtensions := Some [str "TXT"; str "jpg"];
       chatFilenameCandidates := None |} !! name sampleChat
  = Some (TextContent sampleKept).
Proof.
  apply (split_transcript_entry (λ t, t) sampleZip
           {| start := DateValue 1704240000000; end_ := DateValue 1704672000000;
              includeChat := None; includeMedia := None;
              mediaExtensions := Some [str "TXT"; str "jpg"];
              chatFilenameCandidates := None |} sampleChat).
  - discriminate.
  - vm_compute. reflexivity.
Defined.

Lemma split_empty_range_witness :
  splitZipByTimeRangeAndMedia (λ t, t) sampleZip
    (defaultOptions (DateValue 1704672000000) (DateValue 1704240000000))
  = <[name sampleChat := TextContent []]> ∅.
Proof.
  apply (split_empty_range (λ t, t) sampleZip
           (defaultOptions (DateValue 1704672000000) (DateValue 1704240000000))).
  right. right. exists 1704672000000, 1704240000000.
  split; [reflexivity|]. split; [reflexivity|]. reflexivity.
Defined.

Lemma split_media_monotone_witness :
  splitZipByTimeRangeAndMedia (λ t, t) sampleZip
    {| start := DateValue 1704000000000; end_ := DateValue 1704672000000;
       includeChat := None; includeMedia := None; mediaExtensions := None;
       chatFilenameCandidates := None |} !! name sampleImageIn
  = Some (BinaryContent (data sampleImageIn)).
Proof.
  apply (split_media_monotone (λ t, t) sampleZip
           1704240000000 1704672000000 1704000000000 1704672000000).
  - by_compute.
  - lia.
  - lia.
  - vm_compute. reflexivity.
Defined.

End SplitOutputSamples.

(** ** The choice of the chat file *)
Section FindChat.
Import Spilter.

Lemma lowerASCII_cons (c : N) (s : jsstring) :
  lowerASCII (c :: s) = lowerASCII [c] ++ lowerASCII s.
Proof. reflexivity. Qed.

Lemma lowerASCII_app (a b : jsstring) :
  lowerASCII (a ++ b) = lowerASCII a ++ lowerASCII b.
Proof. apply map_app. Qed.

Lemma literal_lower (lit s : jsstring) :
  Forall (λ p, (p < 128)%N) lit →
  Forall2 (λ p c, isCharI p c = true) lit s
  ↔ lowerASCII s = lowerASCII lit.
Proof.
  intros Hlit. revert s.
  induction Hlit as [|p lit Hp _ IH]; intros s.
  - split.
    + intros H. apply Forall2_nil_inv_l in H as ->. reflexivity.
    + destruct s; [constructor|discriminate].
  - destruct s as [|c s].
    + split; [intros H; inversion H|discriminate].
    + split.
      * intros H. apply Forall2_cons in H as [Hc H].
        apply (isCharI_lower p c Hp) in Hc. apply IH in H.
        rewrite (lowerASCII_cons c), (lowerASCII_cons p), Hc, H.
        reflexivity.
      * intros H. rewrite (lowerASCII_cons c), (lowerASCII_cons p) in H.
        cbn [lowerASCII map app] in H. injection H as Hc H.
        constructor.
        -- apply (isCharI_lower p c Hp). cbn [lowerASCII map].
           f_equal. exact Hc.
        -- apply IH. exact H.
Qed.

Lemma matchRe_RLitI {A} (lit : jsstring) : ∀ s caps
    (k : jsstring → captures → option A),
  is_Some (matchRe (RLitI lit) s caps k)
  ↔ ∃ pre rest, s = pre ++ rest
                ∧ Forall2 (λ p c, isCharI p c = true) lit pre
                ∧ is_Some (k rest caps).
Proof.
  induction lit as [|p lit IH]; intros s caps k.
  - cbn [RLitI matchRe]. split.
    + intros H. exists [], s. split; [reflexivity|]. split; [constructor|exact H].
    + intros (pre & rest & -> & H & Hk).
      apply Forall2_nil_inv_l in H as ->. exact Hk.
  - cbn [RLitI matchRe]. destruct s as [|c s].
    + split; [intros [x [=]]|].
      intros (pre & rest & Hs & H & _).
      destruct pre; [inversion H|discriminate].
    + destruct (isCharI p c) eqn:Hc.
      * rewrite IH. split.
        -- intros (pre & rest & -> & H & Hk).
           exists (c :: pre), rest. split; [reflexivity|].
           split; [constructor; assumption|exact Hk].
        -- intros (pre & rest & Hs & H & Hk).
           destruct pre as [|c' pre]; [inversion H|].
           injection Hs as <- ->. apply Forall2_cons in H as [_ H].
           exists pre, rest. auto.
      * split; [intros [x [=]]|].
        intros (pre & rest & Hs & H & _).
        destruct pre as [|c' pre]; [inversion H|].
        injection Hs as <- ->. apply Forall2_cons in H as [H _]. congruence.
Qed.

Lemma starGreedy_is_Some {A} (p : N → bool) (k : jsstring → option A)
    (s : jsstring) :
  is_Some (starGreedy p k s)
  ↔ ∃ mid rest, s = mid ++ rest ∧ forallb p mid = true ∧ is_Some (k rest).
Proof.
  induction s as [|c s IH].
  - cbn [starGreedy]. split.
    + intros H. exists [], []. auto.
    + intros (mid & rest & Hs & _ & Hk).
      symmetry in Hs. apply app_eq_nil in Hs as [_ ->]. exact Hk.
  - cbn [starGreedy]. destruct (p c) eqn:Hc.
    + split.
      * destruct (starGreedy p k s) as [x|] eqn:E.
        -- intros _. destruct (proj1 IH (mk_is_Some _ _ eq_refl))
             as (mid & rest & -> & Hm & Hk).
           exists (c :: mid), rest. cbn [forallb]. rewrite Hc. auto.
        -- intros H. exists [], (c :: s). auto.
      * intros (mid & rest & Hs & Hm & Hk).
        destruct mid as [|c' mid].
        -- cbn [app] in Hs. subst rest.
           destruct (starGreedy p k s); [eauto|exact Hk].
        -- injection Hs as <- ->. cbn [forallb] in Hm.
           apply andb_prop in Hm as [_ Hm].
           destruct (proj2 IH) as [x Hx]; [eauto|]. rewrite Hx. eauto.
    + split.
      * intros H. exists [], (c :: s). auto.
      * intros (mid & rest & Hs & Hm & Hk).
        destruct mid as [|c' mid]; [cbn [app] in Hs; subst rest; exact Hk|].
        injection Hs as <- ->. cbn [forallb] in Hm. rewrite Hc in Hm.
        discriminate.
Qed.

Lemma execFrom_is_Some (n : nat) (r : regex) (s : jsstring) :
  is_Some (execFrom n r s)
  ↔ ∃ pre suf, s = pre ++ suf ∧ is_Some (execAt n r suf).
Proof.
  induction s as [|c s IH].
  - cbn [execFrom]. split.
    + intros H. exists [], []. split; [reflexivity|].
      destruct (execAt n r []); [eauto|exact H].
    + intros (pre & suf & Hs & H).
      symmetry in Hs. apply app_eq_nil in Hs as [_ ->].
      destruct (execAt n r []); [eauto|exact H].
  - cbn [execFrom]. destruct (execAt n r (c :: s)) eqn:E.
    + split; [|eauto]. intros _. exists [], (c :: s).
      rewrite E. eauto.
    + rewrite IH. split.
      * intros (pre & suf & -> & H). exists (c :: pre), suf. auto.
      * intros (pre & suf & Hs & H). destruct pre as [|c' pre].
        -- cbn [app] in Hs. subst suf. rewrite E in H. destruct H; discriminate.
        -- injection Hs as <- ->. eauto.
Qed.

Lemma test_is_Some (rx : RegExp) (s : jsstring) :
  test rx s = true ↔ is_Some (exec rx s).
Proof.
  unfold test. destruct (exec rx s); split; eauto; try discriminate.
  intros [x [=]].
Qed.

Lemma startsWith_spec (s sub : jsstring) :
  startsWith s sub = true ↔ ∃ rest, s = sub ++ rest.
Proof.
  revert s. induction sub as [|c sub IH]; intros s.
  - destruct s; (split; [intros _; eexists; reflexivity|reflexivity]).
  - destruct s as [|d s]; cbn [startsWith].
    + split; [discriminate|intros [rest [=]]].
    + rewrite andb_true_iff, N.eqb_eq, IH. split.
      * intros [-> [rest ->]]. eauto.
      * intros [rest [= -> ->]]. eauto.
Qed.

Lemma endsWith_spec (s sub : jsstring) :
  endsWith s sub = true ↔ ∃ pre, s = pre ++ sub.
Proof.
  unfold endsWith. rewrite startsWith_spec. split.
  - intros [rest H]. exists (reverse rest).
    apply (f_equal reverse) in H.
    rewrite reverse_involutive, reverse_app, reverse_involutive in H. exact H.
  - intros [pre ->]. exists (reverse pre). apply reverse_app.
Qed.

Lemma includes_chr (s : jsstring) (c : N) :
  includes s [c] = true ↔ c ∈ s.
Proof.
  induction s as [|d s IH].
  - cbn. split; [discriminate|intros H; inversion H].
  - cbn [includes startsWith]. rewrite orb_true_iff, IH, elem_of_cons.
    replace (startsWith s []) with true by (destruct s; reflexivity).
    rewrite andb_true_r, N.eqb_eq. reflexivity.
Qed.

(** An unanchored, case-insensitive literal before the end of the input. *)
Lemma test_suffix_literal (g : nat) (lit n : jsstring) :
  Forall (λ p, (p < 128)%N) lit →
  test {| anchored := false; groups := g;
          body := RCat [RLitI lit; REnd] |} n = true
  ↔ endsWith (lowerASCII n) (lowerASCII lit) = true.
Proof.
  intros Hlit. rewrite test_is_Some, endsWith_spec.
  unfold exec. cbn [anchored groups body]. rewrite execFrom_is_Some.
  split.
  - intros (pre & suf & -> & H). unfold execAt in H.
    cbn [RCat foldr matchRe] in H. apply matchRe_RLitI in H
      as (l & rest & -> & Hl & Hk).
    destruct rest as [|c rest]; [|destruct Hk; discriminate].
    rewrite app_nil_r, lowerASCII_app.
    apply (literal_lower lit l Hlit) in Hl. rewrite Hl. eauto.
  - intros [pre H]. unfold lowerASCII in H.
    apply map_eq_app in H as (pre' & suf & -> & _ & Hsuf).
    exists pre', suf. split; [reflexivity|].
    unfold execAt. cbn [RCat foldr matchRe]. apply matchRe_RLitI.
    exists suf, []. split; [symmetry; apply app_nil_r|].
    split; [|eauto]. apply literal_lower; [exact Hlit|].
    exact Hsuf.
Qed.

Lemma find_first {A} (f : A → bool) (l : list A) :
  match List.find f l with
  | Some x => ∃ before after, l = before ++ x :: after ∧ f x = true
                              ∧ Forall (λ y, f y = false) before
  | None => Forall (λ y, f y = false) l
  end.
Proof.
  induction l as [|a l IH]; cbn [List.find]; [constructor|].
  destruct (f a) eqn:Ea.
  - exists [], l. split; [reflexivity|]. split; [exact Ea|constructor].
  - destruct (List.find f l) as [x|].
    + destruct IH as (before & after & -> & Hx & Hb).
      exists (a :: before), after. split; [reflexivity|].
      split; [exact Hx|constructor; assumption].
    + constructor; assumption.
Qed.

Lemma find_pointwise {A} (f g : A → bool) (l : list A) :
  (∀ x, f x = g x) → List.find f l = List.find g l.
Proof.
  intros H. induction l as [|a l IH]; [reflexivity|].
  cbn [List.find]. rewrite H, IH. reflexivity.
Qed.

(** An anchored pattern: a literal, any run without line terminators, a
    literal, the end of the input. *)
Lemma test_literal_any_literal (g : nat) (lit1 lit2 n : jsstring) :
  Forall (λ p, (p < 128)%N) lit1 → Forall (λ p, (p < 128)%N) lit2 →
  test {| anchored := true; groups := g;
          body := RCat [RLitI lit1; RStar isDot; RLitI lit2; REnd] |} n = true
  ↔ ∃ pre mid suf, n = pre ++ mid ++ suf
                   ∧ lowerASCII pre = lowerASCII lit1
                   ∧ forallb isDot mid = true
                   ∧ lowerASCII suf = lowerASCII lit2.
Proof.
  intros H1 H2. rewrite test_is_Some.
  unfold exec, execAt. cbn [anchored groups body RCat foldr matchRe].
  rewrite matchRe_RLitI. split.
  - intros (pre & rest & -> & Hpre & H).
    apply starGreedy_is_Some in H as (mid & rest' & -> & Hmid & H).
    apply matchRe_RLitI in H as (suf & rest & -> & Hsuf & H).
    destruct rest as [|c rest]; [|destruct H; discriminate].
    rewrite app_nil_r. exists pre, mid, suf.
    apply (literal_lower lit1 pre H1) in Hpre.
    apply (literal_lower lit2 suf H2) in Hsuf. auto.
  - intros (pre & mid & suf & -> & Hpre & Hmid & Hsuf).
    exists pre, (mid ++ suf). split; [reflexivity|].
    split; [apply literal_lower; assumption|].
    apply starGreedy_is_Some. exists mid, suf.
    split; [reflexivity|]. split; [exact Hmid|].
    apply matchRe_RLitI. exists suf, [].
    split; [symmetry; apply app_nil_r|].
    split; [apply literal_lower; assumption|eauto].
Qed.

Lemma text_names (n : jsstring) :
  test txtRe n = true ↔ endsWith (lowerASCII n) (str ".txt") = true.
Proof. apply (test_suffix_literal 0 (str ".txt")). by_compute. Qed.

Lemma default_candidate_names (n : jsstring) :
  existsb (λ rx, test rx n) DEFAULT_CHAT_CANDIDATES = true
  ↔ endsWith (lowerASCII n) (str "_chat.txt") = true
    ∨ ∃ pre mid suf, n = pre ++ mid ++ suf
                     ∧ lowerASCII pre = str "whatsapp chat with "
                     ∧ forallb isDot mid = true
                     ∧ lowerASCII suf = str ".txt".
Proof.
  unfold DEFAULT_CHAT_CANDIDATES. cbn [existsb].
  rewrite orb_false_r, orb_true_iff.
  rewrite (test_suffix_literal 0 (str "_chat.txt")) by by_compute.
  rewrite (test_literal_any_literal 0 (str "WhatsApp Chat with ")
             (str ".txt")) by by_compute.
  reflexivity.
Qed.

(** X11. Which entry is taken as the chat file. With the default
    patterns a name is a candidate when, the case of ASCII letters
    apart, it ends with [_chat.txt], or starts with [WhatsApp Chat with ]
    and ends with [.txt] with no line terminator between the two; the
    fallback pattern holds of the names that end with [.txt]. The chat
    file is the first entry that is not a directory and is a candidate
    for one of the patterns; without one, the first entry that is not a
    directory, ends with [.txt] and lies in no folder; without either,
    there is none. *)
Theorem findChatFile_choice :
  (∀ n, existsb (λ rx, test rx n) DEFAULT_CHAT_CANDIDATES = true
        ↔ endsWith (lowerASCII n) (str "_chat.txt") = true
          ∨ ∃ pre mid suf, n = pre ++ mid ++ suf
                           ∧ lowerASCII pre = str "whatsapp chat with "
                           ∧ forallb isDot mid = true
                           ∧ lowerASCII suf = str ".txt")
  ∧ (∀ n, test txtRe n = true ↔ endsWith (lowerASCII n) (str ".txt") = true)
  ∧ (∀ zip patterns,
       let candidate e :=
         negb (dir e) && existsb (λ rx, test rx (name e)) patterns in
       let topLevelText e :=
         negb (dir e) && endsWith (lowerASCII (name e)) (str ".txt")
         && bool_decide (chr "/" ∉ name e) in
       match findChatFile zip patterns with
       | Some c =>
           ∃ before after, zip = before ++ c :: after ∧ dir c = false
             ∧ ((candidate c = true
                 ∧ Forall (λ e, candidate e = false) before)
                ∨ (Forall (λ e, candidate e = false) zip
                   ∧ topLevelText c = true
                   ∧ Forall (λ e, topLevelText e = false) before))
       | None =>
           Forall (λ e, candidate e = false ∧ topLevelText e = false) zip
       end).
Proof.
  split; [exact default_candidate_names|split; [exact text_names|]].
  intros zip patterns candidate topLevelText.
  assert (Htxt := text_names).
  assert (Htop : ∀ e, negb (dir e) && test txtRe (name e)
                      && negb (includes (name e) (str "/"))
                      = topLevelText e).
  { intros e. unfold topLevelText. f_equal; [f_equal|].
    - apply eq_true_iff_eq. apply Htxt.
    - apply eq_true_iff_eq. rewrite negb_true_iff, bool_decide_eq_true.
      rewrite <- (includes_chr (name e) (chr "/")).
      change (str "/") with [chr "/"].
      destruct (includes (name e) [chr "/"]); split; congruence. }
  unfold findChatFile. fold candidate.
  pose proof (find_first candidate zip) as H1.
  destruct (List.find candidate zip) as [c|].
  - destruct H1 as (before & after & -> & Hc & Hb).
    exists before, after. split; [reflexivity|].
    split; [|left; auto].
    unfold candidate in Hc. apply andb_prop in Hc as [Hc _].
    apply negb_true_iff in Hc. exact Hc.
  - rewrite (find_pointwise _ topLevelText) by exact Htop.
    pose proof (find_first topLevelText zip) as H2.
    destruct (List.find topLevelText zip) as [c|].
    + destruct H2 as (before & after & -> & Hc & Hb).
      exists before, after. split; [reflexivity|].
      split; [|right; auto].
      unfold topLevelText in Hc. apply andb_prop in Hc as [Hc _].
      apply andb_prop in Hc as [Hc _]. apply negb_true_iff in Hc. exact Hc.
    + apply Forall_and. split; assumption.
Qed.
End FindChat.

(** ** Records and timestamp lines *)
Section Records.
Import Viewer.
Variable UTC : Z → Z.

(** A record continues the record opened by a timestamp line: same date
    and sender, and a text that starts with the line's message segment. *)
Local Abbreviation continues :=
  (λ r r0 : WhatsAppMessage,
     datetime r = datetime r0 ∧ sender r = sender r0
     ∧ message r0 `prefix_of` message r).

Lemma parseLine_other result current raw :
  startOfRecord UTC (stripLTR raw) = None →
  ∃ g, parseLine UTC (result, current) raw = (result, extend current g).
Proof.
  unfold startOfRecord, parseLine. destruct raw as [|c raw']; [eauto|].
  cbv zeta.
  destruct (exec bracketRe _); [discriminate|].
  destruct (exec dashRe _); [discriminate|]. eauto.
Qed.

Lemma extend_continues result current g starts :
  Forall2 continues (flush result current) starts →
  Forall2 continues (flush result (extend current g)) starts.
Proof.
  destruct current as [c|]; [|exact id]. cbn [flush extend].
  intros H. apply Forall2_app_inv_l in H as (s1 & s2 & H1 & H2 & ->).
  apply Forall2_app; [exact H1|].
  apply Forall2_cons_inv_l in H2 as (r0 & s2' & (Hd & Hs & Hm) & H2 & ->).
  apply Forall2_nil_inv_l in H2 as ->.
  constructor; [|constructor]. cbn [datetime sender message].
  split; [exact Hd|]. split; [exact Hs|].
  etrans; [exact Hm|]. apply prefix_app_r. reflexivity.
Qed.

Lemma parseLine_fold_continues lines : ∀ result current starts,
  Forall2 continues (flush result current) starts →
  Forall2 continues
    (flush (fold_left (parseLine UTC) lines (result, current)).1
           (fold_left (parseLine UTC) lines (result, current)).2)
    (starts ++ omap (λ raw, startOfRecord UTC (stripLTR raw)) lines).
Proof.
  induction lines as [|raw lines IH]; intros result current starts H.
  - cbn [fold_left omap list_omap fst snd]. rewrite app_nil_r. exact H.
  - cbn [fold_left omap list_omap].
    destruct (startOfRecord UTC (stripLTR raw)) as [r|] eqn:E.
    + rewrite (parseLine_start UTC result current raw r E).
      rewrite (cons_middle r), app_assoc. apply IH.
      cbn [flush]. apply Forall2_app; [exact H|].
      constructor; [|constructor]. split; [reflexivity|].
      split; reflexivity.
    + destruct (parseLine_other result current raw E) as [g ->].
      apply IH. apply extend_continues. exact H.
Qed.
End Records.

Section Kinds.
Import Viewer.
Context {host : Host}.

(** X12. The message parser yields one record per timestamp line
    (a line that, without its leading direction marks, fits the
    bracketed or the dashed pattern), in the order of the lines: the
    record has the date and the sender of its line and a text that
    starts with the line's message segment. Lines before the first
    timestamp line yield nothing, and no other line opens a record. *)
Theorem records_are_timestamp_lines (UTC : Z → Z) (text : jsstring) :
  Forall2 (λ r r0, datetime r = datetime r0 ∧ sender r = sender r0
                   ∧ message r0 `prefix_of` message r)
    (parseWhatsAppText UTC text)
    (omap (λ raw, startOfRecord UTC (stripLTR raw)) (splitLines text)).
Proof.
  unfold parseWhatsAppText.
  pose proof (parseLine_fold_continues UTC (splitLines text) [] None []) as H.
  specialize (H ltac:(constructor)).
  destruct (fold_left _ _ _) as [result current]. exact H.
Qed.

Lemma arrayIncludes_cons (x y : jsstring) (l : list jsstring) :
  arrayIncludes (y :: l) x = bool_decide (x = y) || arrayIncludes l x.
Proof.
  unfold arrayIncludes.
  destruct (decide (x = y)) as [->|Hne].
  - rewrite (bool_decide_eq_true_2 (y = y)) by reflexivity. cbn [orb].
    apply bool_decide_eq_true_2, list_elem_of_here.
  - rewrite (bool_decide_eq_false_2 (x = y)) by exact Hne. cbn [orb].
    apply bool_decide_ext. rewrite elem_of_cons. tauto.
Qed.

(** X13. The two copies of the media classifier agree on every name
    but those with the extension [opus]: the viewer's copy classifies
    them as audio, the loader's, whose audio list lacks [opus], as
    document. *)
Theorem getMediaType_copies_differ_on_opus (filename : jsstring) :
  Loader.getMediaType filename
  = (if bool_decide (extensionOf filename = str "opus")
     then document else getMediaType filename)
  ∧ (if bool_decide (extensionOf filename = str "opus")
     then getMediaType filename = audio else True).
Proof.
  unfold Loader.getMediaType, getMediaType.
  destruct (decide (extensionOf filename = str "opus")) as [E|E].
  - rewrite E, bool_decide_eq_true_2 by reflexivity. split; reflexivity.
  - rewrite bool_decide_eq_false_2 by exact E. split; [|exact I].
    cbv zeta.
    destruct (arrayIncludes _ (extensionOf filename)); [reflexivity|].
    destruct (arrayIncludes _ (extensionOf filename) && _); [reflexivity|].
    replace (arrayIncludes
               (map str ["mp3"; "wav"; "ogg"; "m4a"; "aac"; "opus"]%string)
               (extensionOf filename))
      with (arrayIncludes
              (map str ["mp3"; "wav"; "ogg"; "m4a"; "aac"]%string)
              (extensionOf filename)); [reflexivity|].
    cbn [map]. rewrite !arrayIncludes_cons.
    rewrite (bool_decide_eq_false_2 (extensionOf filename = str "opus"))
      by exact E.
    reflexivity.
Qed.
End Kinds.

(** ** What a pattern can consume *)
Section Within.
Context {A : Type}.
Variable P : N → bool.

Lemma repeatGreedy_within p hi (k : jsstring → option A) :
  (∀ c, p c = true → P c = true) →
  ∀ lo s,
    (∀ pre s', s = pre ++ s' → forallb P pre = true → k s' = None) →
    repeatGreedy p lo hi k s = None.
Proof.
  intros Hp. induction hi as [|hi IH]; intros lo' s Hk.
  - cbn [repeatGreedy]. destruct (decide (lo' = 0%nat)); [|reflexivity].
    apply (Hk [] s); reflexivity.
  - cbn [repeatGreedy].
    assert (Hstop : (if decide (lo' = 0%nat) then k s else None) = None).
    { destruct (decide (lo' = 0%nat)); [|reflexivity].
      apply (Hk [] s); reflexivity. }
    destruct s as [|c s]; [exact Hstop|].
    destruct (p c) eqn:Hc; [|exact Hstop].
    rewrite IH; [exact Hstop|].
    intros pre s' -> Hpre. apply (Hk (c :: pre) s'); [reflexivity|].
    cbn [forallb]. rewrite (Hp c Hc), Hpre. reflexivity.
Qed.

Lemma starGreedy_within p (k : jsstring → option A) :
  (∀ c, p c = true → P c = true) →
  ∀ s,
    (∀ pre s', s = pre ++ s' → forallb P pre = true → k s' = None) →
    starGreedy p k s = None.
Proof.
  intros Hp. induction s as [|c s IH]; intros Hk.
  - cbn [starGreedy]. apply (Hk [] []); reflexivity.
  - cbn [starGreedy].
    assert (Hstop : k (c :: s) = None) by (apply (Hk [] (c :: s)); reflexivity).
    destruct (p c) eqn:Hc; [|exact Hstop].
    rewrite IH; [exact Hstop|].
    intros pre s' -> Hpre. apply (Hk (c :: pre) s'); [reflexivity|].
    cbn [forallb]. rewrite (Hp c Hc), Hpre. reflexivity.
Qed.

(** A pattern within [P] fails before a continuation that fails after
    every run of [P]. *)
Lemma matchRe_within r : within P r →
  ∀ s caps (k : jsstring → captures → option A),
    (∀ pre s' caps', s = pre ++ s' → forallb P pre = true →
                     k s' caps' = None) →
    matchRe r s caps k = None.
Proof.
  induction r as [|p|a IHa b IHb|a IHa b IHb|i a IHa|a IHa|lo hi p|p|];
    cbn [within]; intros Hr s caps k Hk.
  - cbn [matchRe]. apply (Hk [] s); reflexivity.
  - cbn [matchRe]. destruct s as [|c s]; [reflexivity|].
    destruct (p c) eqn:Hc; [|reflexivity].
    apply (Hk [c] s); [reflexivity|].
    cbn [forallb]. rewrite (Hr c Hc). reflexivity.
  - destruct Hr as [Ha Hb]. cbn [matchRe]. apply (IHa Ha).
    intros pre s' caps' -> Hpre. apply (IHb Hb).
    intros pre' s'' caps'' -> Hpre'.
    apply (Hk (pre ++ pre') s''); [apply app_assoc|].
    rewrite forallb_app, Hpre, Hpre'. reflexivity.
  - destruct Hr as [Ha Hb]. cbn [matchRe].
    rewrite (IHa Ha) by exact Hk. apply (IHb Hb). exact Hk.
  - cbn [matchRe]. apply (IHa Hr).
    intros pre s' caps' Hs Hpre. apply (Hk pre s'); assumption.
  - cbn [matchRe]. rewrite (IHa Hr) by exact Hk.
    apply (Hk [] s); reflexivity.
  - cbn [matchRe]. apply repeatGreedy_within; [exact Hr|].
    intros pre s' Hs Hpre. apply (Hk pre s'); assumption.
  - cbn [matchRe]. apply starGreedy_within; [exact Hr|].
    intros pre s' Hs Hpre. apply (Hk pre s'); assumption.
  - cbn [matchRe]. destruct s; [|reflexivity]. apply (Hk [] []); reflexivity.
Qed.

Lemma matchRe_group_within i a b : within P a →
  ∀ s caps (k : jsstring → captures → option A),
    (∀ pre s' caps', s = pre ++ s' → forallb P pre = true →
                     matchRe b s' caps' k = None) →
    matchRe (RSeq (RGroup i a) b) s caps k = None.
Proof.
  intros Ha s caps k Hk. cbn [matchRe]. apply (matchRe_within a Ha).
  intros pre s' caps' Hs Hpre. apply (Hk pre s'); assumption.
Qed.

(** What is left of [d ++ x :: rest] after a run of [P], when [x] is
    not in [P]. *)
Lemma run_stops_at (d rest pre s' : jsstring) (x : N) :
  P x = false →
  d ++ x :: rest = pre ++ s' → forallb P pre = true →
  ∃ d', s' = d' ++ x :: rest ∧ d = pre ++ d'.
Proof.
  intros Hx. revert d. induction pre as [|c pre IH]; intros d Hs Hpre.
  - exists d. split; [symmetry; exact Hs|reflexivity].
  - cbn [forallb] in Hpre. apply andb_prop in Hpre as [Hc Hpre].
    destruct d as [|c' d].
    + cbn [app] in Hs. injection Hs as <- _. congruence.
    + injection Hs as <- Hs. destruct (IH d Hs Hpre) as (d' & -> & ->).
      exists d'. split; reflexivity.
Qed.
End Within.

Section CommaAfterDate.
Import Viewer.

(** X14. A line that starts with a bracket, a run of digits and
    slashes and a comma opens no record in the viewer's parser, whatever
    follows: its bracketed pattern wants white space right after the
    date. The bracketed lines of the sample transcript, which the
    splitter reads as timestamp lines, are of this form, and the
    viewer's parser yields no record for that transcript. *)
Theorem bracketed_date_comma_opens_no_record :
  (∀ UTC d rest,
     forallb (λ c, isDigit c || isChar (chr "/") c) d = true →
     startOfRecord UTC (chr "[" :: d ++ chr "," :: rest) = None)
  ∧ (∀ UTC, parseWhatsAppText UTC Spilter.sampleTranscript = [])
  ∧ Spilter.parseTimestampFromChatLine (λ t, t)
      (str "[05/01/2024, 12:30:00] Bob: lunch?")
    = Some (DateValue 1704457800000).
Proof.
  split; [|split; [intros UTC; vm_compute; reflexivity
                  |vm_compute; reflexivity]].
  intros UTC d rest Hd. unfold startOfRecord.
  assert (Hb : exec bracketRe (chr "[" :: d ++ chr "," :: rest) = None).
  { unfold exec, execAt, bracketRe. cbn [anchored groups body RCat foldr].
    change (matchRe (RSeq (C "[") ?b) (?c :: ?s) ?caps ?k)
      with (matchRe b s caps k).
    apply (matchRe_group_within (λ c, isDigit c || isChar (chr "/") c)).
    - unfold D, C. cbn [within RCat foldr].
      repeat split; try (intros c Hc; rewrite Hc; reflexivity);
        intros c Hc; rewrite Hc; apply orb_true_r.
    - intros pre s' caps' Hs Hpre.
      destruct (run_stops_at _ d rest pre s' (chr ",") eq_refl Hs Hpre)
        as (d' & -> & ->).
      rewrite forallb_app in Hd. apply andb_prop in Hd as [_ Hd].
      unfold RPlus. cbn [matchRe].
      destruct d' as [|c d']; [reflexivity|].
      cbn [app forallb] in *. apply andb_prop in Hd as [Hc _].
      replace (isSpace c) with false; [reflexivity|].
      symmetry. apply orb_prop in Hc as [Hc|Hc].
      + apply isDigit_range in Hc. unfold isSpace.
        repeat (apply orb_false_intro); try (apply N.eqb_neq; lia);
          apply andb_false_iff; first [left; apply N.leb_gt; lia
                                      |right; apply N.leb_gt; lia].
      + apply N.eqb_eq in Hc. subst c. reflexivity. }
  rewrite Hb.
  replace (exec dashRe (chr "[" :: d ++ chr "," :: rest)) with (@None captures);
    [reflexivity|].
  symmetry. vm_compute. reflexivity.
Qed.

Lemma bracketed_date_comma_opens_no_record_witness :
  startOfRecord (λ t, t)
    (chr "[" :: str "05/01/2024" ++ chr "," :: str " 12:30:00] Bob: lunch?")
  = None.
Proof.
  apply (proj1 bracketed_date_comma_opens_no_record). vm_compute. reflexivity.
Defined.
End CommaAfterDate.

(** ** The media index *)
Section Index.
Import Loader.
Context {host : Host}.

Lemma mapGet_mapPush {V} (m : jsMap (list V)) (k k' : jsstring) (x : V) :
  mapGet (mapPush m k x) k'
  = if decide (k = k') then Some (default [] (mapGet m k) ++ [x])
    else mapGet m k'.
Proof.
  induction m as [|[k0 v] m IH].
  - cbn [mapPush mapGet default app]. destruct (decide (k = k')); reflexivity.
  - cbn [mapPush mapGet]. destruct (decide (k0 = k)) as [E|Hne].
    + subst k0. cbn [mapGet default]. destruct (decide (k = k')); reflexivity.
    + cbn [mapGet]. rewrite IH.
      destruct (decide (k0 = k')) as [E'|Hne'], (decide (k = k')) as [E|Hne''];
        try reflexivity.
      congruence.
Qed.

Lemma mapPush_keys {V} (m : jsMap (list V)) (k : jsstring) (x : V) :
  fst <$> mapPush m k x
  = if bool_decide (k ∈ fst <$> m) then fst <$> m else (fst <$> m) ++ [k].
Proof.
  induction m as [|[k0 v] m IH].
  - reflexivity.
  - cbn [mapPush]. destruct (decide (k0 = k)) as [->|Hne].
    + cbn [fmap list_fmap fst].
      rewrite bool_decide_eq_true_2 by apply list_elem_of_here. reflexivity.
    + cbn [fmap list_fmap fst]. change (list_fmap _ _ fst) with (fmap (M:=list) (@fst jsstring (list V))).
      rewrite IH.
      destruct (decide (k ∈ fst <$> m)) as [Hin|Hnin].
      * rewrite !bool_decide_eq_true_2;
          [reflexivity|apply list_elem_of_further; exact Hin|exact Hin].
      * rewrite !bool_decide_eq_false_2; [reflexivity| |exact Hnin].
        intros H. apply elem_of_cons in H as [->|H]; [congruence|auto].
Qed.

Lemma mapGet_None {V} (m : jsMap V) (k : jsstring) :
  mapGet m k = None ↔ k ∉ fst <$> m.
Proof.
  induction m as [|[k0 v] m IH]; cbn [mapGet fmap list_fmap fst].
  - split; [intros _ H; inversion H|reflexivity].
  - rewrite not_elem_of_cons. destruct (decide (k0 = k)) as [->|Hne].
    + split; [discriminate|intros [H _]; congruence].
    + rewrite IH. split; [intros H; split; [congruence|exact H]|intros [_ H]; exact H].
Qed.

Lemma mapGet_Some_elem {V} (m : jsMap V) (k : jsstring) (v : V) :
  mapGet m k = Some v → (k, v) ∈ m.
Proof.
  induction m as [|[k0 v0] m IH]; cbn [mapGet]; [discriminate|].
  destruct (decide (k0 = k)) as [->|Hne].
  - intros [= ->]. apply list_elem_of_here.
  - intros H. apply list_elem_of_further, IH, H.
Qed.

Lemma mapPush_NoDup {V} (m : jsMap (list V)) (k : jsstring) (x : V) :
  NoDup (fst <$> m) → NoDup (fst <$> mapPush m k x).
Proof.
  intros H. rewrite mapPush_keys.
  destruct (decide (k ∈ fst <$> m)) as [Hin|Hnin].
  - rewrite bool_decide_eq_true_2 by exact Hin. exact H.
  - rewrite bool_decide_eq_false_2 by exact Hnin.
    apply NoDup_app. split; [exact H|].
    split; [|apply NoDup_singleton].
    intros y Hy Hk. apply list_elem_of_singleton in Hk as ->. auto.
Qed.

Lemma mapPush_Forall {V} (R : V → Prop) (m : jsMap (list V)) (k : jsstring)
    (x : V) :
  Forall (λ kv, kv.2 ≠ [] ∧ Forall R kv.2) m → R x →
  Forall (λ kv, kv.2 ≠ [] ∧ Forall R kv.2) (mapPush m k x).
Proof.
  intros Hm Hx. induction Hm as [|[k0 v] m [Hne Hv] Hm IH]; cbn [mapPush].
  - constructor; [|constructor]. cbn [snd].
    split; [discriminate|constructor; [exact Hx|constructor]].
  - destruct (decide (k0 = k)).
    + constructor; [|exact Hm]. cbn [snd] in *. split.
      * intros H. apply app_eq_nil in H as [_ H]. discriminate.
      * apply Forall_app. split; [exact Hv|constructor; [exact Hx|constructor]].
    + constructor; [split; assumption|exact IH].
Qed.

(** The entry [indexEntry] registers for an archive entry. *)
Local Abbreviation entryOf :=
  (λ fe : jsstring * ZipObject, {| zipEntry := fe.2; fullPath := fe.1 |}).

Lemma indexEntry_unfold (idx : jsMap (list MediaEntry))
    (fe : jsstring * ZipObject) :
  indexEntry idx fe
  = foldl (λ m k, mapPush m k (entryOf fe)) idx (keysOf fe).
Proof.
  destruct fe as [filename z].
  unfold indexEntry, keysOf, indexable, nameWithoutExt, justFilename.
  cbn [fst snd].
  destruct (negb (zipDir z) && negb (endsWith filename (str ".txt"))
            && negb (endsWith filename (str ".py"))); cbn [andb];
    [|reflexivity].
  destruct (arrayIncludes INDEXED_EXTS (Viewer.extensionOf filename));
    [|reflexivity].
  cbv zeta. destruct (decide _); reflexivity.
Qed.

Lemma keysOf_NoDup (fe : jsstring * ZipObject) : NoDup (keysOf fe).
Proof.
  unfold keysOf. destruct (indexable fe); [|constructor].
  destruct (decide _) as [E|E]; [apply NoDup_singleton|].
  apply NoDup_cons. split; [|apply NoDup_singleton].
  intros H. apply list_elem_of_singleton in H. congruence.
Qed.

Lemma foldl_mapPush_get (x : MediaEntry) (keys : list jsstring) :
  NoDup keys → ∀ (m : jsMap (list MediaEntry)) k,
  mapGet (foldl (λ m k, mapPush m k x) m keys) k
  = if bool_decide (k ∈ keys) then Some (default [] (mapGet m k) ++ [x])
    else mapGet m k.
Proof.
  induction 1 as [|k0 keys Hk0 Hnd IH]; intros m k.
  - cbn [foldl]. rewrite bool_decide_eq_false_2; [reflexivity|].
    intros H; inversion H.
  - cbn [foldl]. rewrite IH, !mapGet_mapPush.
    destruct (decide (k ∈ keys)) as [Hin|Hnin].
    + rewrite !bool_decide_eq_true_2;
        [|apply list_elem_of_further; exact Hin|exact Hin].
      rewrite decide_False; [reflexivity|]. intros ->. auto.
    + rewrite (bool_decide_eq_false_2 (k ∈ keys)) by exact Hnin.
      destruct (decide (k0 = k)) as [->|Hne].
      * rewrite bool_decide_eq_true_2 by apply list_elem_of_here. reflexivity.
      * rewrite bool_decide_eq_false_2; [reflexivity|].
        intros H. apply elem_of_cons in H as [->|H]; [congruence|auto].
Qed.

Lemma indexEntry_get (idx : jsMap (list MediaEntry))
    (fe : jsstring * ZipObject) (k : jsstring) :
  mapGet (indexEntry idx fe) k
  = if bool_decide (k ∈ keysOf fe)
    then Some (default [] (mapGet idx k) ++ [entryOf fe])
    else mapGet idx k.
Proof.
  rewrite indexEntry_unfold. apply foldl_mapPush_get, keysOf_NoDup.
Qed.

Lemma fold_indexEntry_get (fes : list (jsstring * ZipObject)) :
  ∀ (idx : jsMap (list MediaEntry)) k,
  mapGet (fold_left indexEntry fes idx) k
  = match mapGet idx k, entriesFor k fes with
    | None, [] => None
    | o, l => Some (default [] o ++ l)
    end.
Proof.
  induction fes as [|fe fes IH]; intros idx k.
  - cbn [fold_left entriesFor omap list_omap].
    destruct (mapGet idx k); cbn [default]; [rewrite app_nil_r|]; reflexivity.
  - cbn [fold_left]. rewrite IH, indexEntry_get.
    unfold entriesFor. cbn [omap list_omap].
    destruct (bool_decide (k ∈ keysOf fe)); [|reflexivity].
    destruct (mapGet idx k) as [v|]; destruct (omap _ fes);
      unfold default, from_option, id; cbn [app];
      rewrite ?app_nil_r, <- ?app_assoc; reflexivity.
Qed.

Lemma indexEntry_keys (idx : jsMap (list MediaEntry))
    (fe : jsstring * ZipObject) :
  NoDup (fst <$> idx) → NoDup (fst <$> indexEntry idx fe).
Proof.
  rewrite indexEntry_unfold. generalize (keysOf fe). intros keys.
  revert idx. induction keys as [|k keys IH]; intros idx H; [exact H|].
  cbn [foldl]. apply IH, mapPush_NoDup, H.
Qed.

Lemma fold_indexEntry_keys (fes : list (jsstring * ZipObject)) :
  ∀ idx : jsMap (list MediaEntry),
    NoDup (fst <$> idx) → NoDup (fst <$> fold_left indexEntry fes idx).
Proof.
  induction fes as [|fe fes IH]; intros idx H; [exact H|].
  cbn [fold_left]. apply IH, indexEntry_keys, H.
Qed.

Lemma indexEntry_Forall (R : MediaEntry → Prop)
    (idx : jsMap (list MediaEntry)) (fe : jsstring * ZipObject) :
  (indexable fe = true → R (entryOf fe)) →
  Forall (λ kv, kv.2 ≠ [] ∧ Forall R kv.2) idx →
  Forall (λ kv, kv.2 ≠ [] ∧ Forall R kv.2) (indexEntry idx fe).
Proof.
  intros HR. rewrite indexEntry_unfold. unfold keysOf.
  destruct (indexable fe); [|exact id].
  specialize (HR eq_refl).
  destruct (decide _); cbn [foldl]; intros H;
    repeat apply mapPush_Forall; assumption.
Qed.

Lemma fold_indexEntry_Forall (R : MediaEntry → Prop)
    (fes : list (jsstring * ZipObject)) :
  Forall (λ fe, indexable fe = true → R (entryOf fe)) fes →
  ∀ idx : jsMap (list MediaEntry),
    Forall (λ kv, kv.2 ≠ [] ∧ Forall R kv.2) idx →
    Forall (λ kv, kv.2 ≠ [] ∧ Forall R kv.2) (fold_left indexEntry fes idx).
Proof.
  induction 1 as [|fe fes Hfe _ IH]; intros idx H; [exact H|].
  cbn [fold_left]. apply IH, indexEntry_Forall; assumption.
Qed.

(** What [doLoadMedia] does on an index without empty lists. *)
Lemma doLoadMedia_cases (R : MediaEntry → Prop)
    (idx : jsMap (list MediaEntry)) (f : jsstring) :
  Forall (λ kv, kv.2 ≠ [] ∧ Forall R kv.2) idx →
  (∃ e l, mapGet idx f = Some (e :: l) ∧ R e
          ∧ doLoadMedia idx f = Extracting e)
  ∨ (mapGet idx f = None
     ∧ ((∃ k e l before after,
           idx = before ++ (k, e :: l) :: after ∧ R e
           ∧ resembles f k = true
           ∧ Forall (λ kv, resembles f kv.1 = false) before
           ∧ doLoadMedia idx f = Extracting e)
        ∨ (Forall (λ kv, resembles f kv.1 = false) idx
           ∧ doLoadMedia idx f = NotFound))).
Proof.
  intros Hidx. unfold doLoadMedia.
  destruct (mapGet idx f) as [l|] eqn:Eg.
  - apply mapGet_Some_elem in Eg as Hin.
    destruct (proj1 (Forall_forall _ _) Hidx _ Hin) as [Hne HR].
    cbn [snd] in *. destruct l as [|e l]; [congruence|].
    left. exists e, l. apply Forall_cons in HR as [HR _]. auto.
  - right. split; [reflexivity|]. unfold fuzzyFind.
    pose proof (find_first (λ kv : jsstring * list MediaEntry,
                  includes kv.1 (Viewer.item (splitOn (chr ".") f) 0)
                  || includes f (Viewer.item (splitOn (chr ".") kv.1) 0)) idx)
      as H.
    destruct (List.find _ idx) as [[k l]|].
    + destruct H as (before & after & -> & Hk & Hb). left.
      apply Forall_app in Hidx as [_ Hidx].
      apply Forall_cons in Hidx as [[Hne HR] _]. cbn [snd fst] in *.
      destruct l as [|e l]; [congruence|].
      apply Forall_cons in HR as [HR _].
      exists k, e, l, before, after. auto 10.
    + right. split; [exact H|reflexivity].
Qed.
End Index.

(** ** What every state of the loader satisfies *)
Section Soundness.
Import Loader.
Context {host : Host}.

Lemma sound_new (limit : Z) : sound (newMediaLoader limit).
Proof.
  split; cbn.
  - left. reflexivity.
  - constructor.
  - apply map_Forall_empty.
  - apply map_Forall_empty.
  - constructor.
Qed.

Lemma doLoadMedia_not_Loaded (idx : jsMap (list MediaEntry)) (f : jsstring) :
  match doLoadMedia idx f with Loaded _ => False | _ => True end.
Proof.
  unfold doLoadMedia, extractFirst.
  destruct (mapGet idx f) as [[|e l]|]; try exact I;
    destruct (fuzzyFind idx f) as [[|e l]|]; exact I.
Qed.

Lemma startTask_sound (t : Task) (s : MediaLoader) :
  (taskQueue s = [] ∨ concurrencyLimit s <= activeTasks s + 1) →
  Forall (λ kv : jsstring * list MediaEntry, kv.2 ≠ []) (mediaIndex s) →
  map_Forall madeFor (loadedBlobs s) →
  map_Forall (λ (_ : nat) (fs : jsstring * Stage),
                match fs.2 with Loaded m => madeFor fs.1 m | _ => True end)
    (running s) →
  Forall (λ ps, match ps with
                | Fulfilled (Some m) => madeFor (filename m) m
                | _ => True
                end) (promises s) →
  sound (startTask t s).
Proof.
  intros Hb Hi Hc Hr Hp. split; cbn.
  - exact Hb.
  - exact Hi.
  - exact Hc.
  - apply map_Forall_insert_2; [|exact Hr]. cbn [snd].
    pose proof (doLoadMedia_not_Loaded (mediaIndex s) (taskFile t)) as H.
    destruct (doLoadMedia _ _); try exact I. destruct H.
  - exact Hp.
Qed.

Lemma processNextTask_sound (s : MediaLoader) :
  (taskQueue s = [] ∨ concurrencyLimit s <= activeTasks s + 1) →
  Forall (λ kv : jsstring * list MediaEntry, kv.2 ≠ []) (mediaIndex s) →
  map_Forall madeFor (loadedBlobs s) →
  map_Forall (λ (_ : nat) (fs : jsstring * Stage),
                match fs.2 with Loaded m => madeFor fs.1 m | _ => True end)
    (running s) →
  Forall (λ ps, match ps with
                | Fulfilled (Some m) => madeFor (filename m) m
                | _ => True
                end) (promises s) →
  sound (processNextTask s).
Proof.
  intros Hb Hi Hc Hr Hp. unfold processNextTask.
  destruct (taskQueue s) as [|t rest] eqn:Eq.
  - split; try assumption. left. exact Eq.
  - destruct (Z.ltb_spec (activeTasks s) (concurrencyLimit s)) as [Hlt|Hge].
    + apply startTask_sound; cbn; try assumption.
      destruct Hb as [Hb|Hb]; [discriminate|]. right. exact Hb.
    + split; try assumption. right. exact Hge.
Qed.

Lemma step_sound (s : MediaLoader) (e : Event) : sound s → sound (step s e).
Proof.
  intros [Hb Hi Hc Hr Hp]. destruct e as [fes|f|p o|p|f|]; cbn [step].
  - split; cbn; try assumption.
    pose proof (fold_indexEntry_Forall (λ _, True) fes) as H.
    eapply Forall_impl; [apply H|].
    + apply Forall_forall. intros fe _ _. exact I.
    + constructor.
    + intros kv [Hne _]. exact Hne.
  - unfold loadMedia.
    destruct (loadedBlobs s !! f); [split; assumption|].
    destruct (loadingPromises s !! f); [split; assumption|].
    cbn. destruct (activeTasks s <? concurrencyLimit s) eqn:E;
      [apply Z.ltb_lt in E as Hlt|apply Z.ltb_ge in E as Hge].
    + assert (Hq : taskQueue s = []).
      { destruct Hb as [Hb|Hb]; [exact Hb|lia]. }
      split; cbn; try assumption.
      * left. exact Hq.
      * apply map_Forall_insert_2; [|exact Hr]. cbn [snd].
        pose proof (doLoadMedia_not_Loaded (mediaIndex s) f) as H.
        destruct (doLoadMedia _ _); try exact I. destruct H.
      * apply Forall_app. split; [exact Hp|]. constructor; [exact I|constructor].
    + split; cbn; try assumption.
      * right. exact Hge.
      * apply Forall_app. split; [exact Hp|]. constructor; [exact I|constructor].
  - unfold settle.
    destruct (running s !! p) as [[file stage]|] eqn:Er; [|split; assumption].
    destruct stage; try (split; assumption).
    destruct o as [url|]; split; cbn; try assumption.
    + apply map_Forall_insert_2; [|exact Hc]. split; reflexivity.
    + apply map_Forall_insert_2; [|exact Hr]. cbn. split; reflexivity.
    + apply map_Forall_insert_2; [|exact Hr]. exact I.
  - unfold resume.
    destruct (running s !! p) as [[file stage]|] eqn:Er; [|split; assumption].
    assert (Hgo : ∀ v,
      match v with Some m => madeFor (filename m) m | None => True end →
      sound (processNextTask
               (set_running (delete p (running (resolve p v s)))
                  (set_loadingPromises
                     (delete file (loadingPromises (resolve p v s)))
                     (set_activeTasks (activeTasks (resolve p v s) - 1)
                        (resolve p v s)))))).
    { intros v Hv.
      assert (Hres : taskQueue (resolve p v s) = taskQueue s
                     ∧ concurrencyLimit (resolve p v s) = concurrencyLimit s
                     ∧ activeTasks (resolve p v s) = activeTasks s
                     ∧ mediaIndex (resolve p v s) = mediaIndex s
                     ∧ loadedBlobs (resolve p v s) = loadedBlobs s
                     ∧ running (resolve p v s) = running s
                     ∧ Forall (λ ps, match ps with
                                     | Fulfilled (Some m) => madeFor (filename m) m
                                     | _ => True
                                     end) (promises (resolve p v s))).
      { unfold resolve. destruct (promises s !! p) as [[| |]|];
          cbn; repeat split; try assumption.
        apply Forall_insert; [exact Hp|]. destruct v; exact Hv. }
      destruct Hres as (E1 & E2 & E3 & E4 & E5 & E6 & Hp').
      apply processNextTask_sound; cbn; rewrite ?E1, ?E2, ?E3, ?E4, ?E5, ?E6;
        try assumption.
      - destruct Hb as [Hb|Hb]; [left; exact Hb|right; lia].
      - apply map_Forall_delete. exact Hr. }
    pose proof (Hr p _ Er) as Hst. cbn [snd fst] in Hst.
    destruct stage as [e|m| |].
    + split; assumption.
    + apply (Hgo (Some m)). destruct Hst as [Hf Ht].
      split; [reflexivity|]. rewrite Hf. exact Ht.
    + apply (Hgo None). exact I.
    + apply (Hgo None). exact I.
  - unfold revokeMedia. destruct (loadedBlobs s !! f); [|split; assumption].
    split; cbn; try assumption. apply map_Forall_delete. exact Hc.
  - split; cbn; try assumption. apply map_Forall_empty.
Qed.

Lemma run_sound (tr : list Event) : ∀ s, sound s → sound (run s tr).
Proof.
  induction tr as [|e tr IH]; intros s Hs; [exact Hs|].
  cbn [run fold_left]. apply IH, step_sound, Hs.
Qed.
End Soundness.

(** ** The index and the requests *)
Section Requests.
Import Loader.
Context {host : Host}.

Lemma entriesFor_nil (k : jsstring) (fes : list (jsstring * ZipObject)) :
  entriesFor k fes = []
  ↔ existsb (λ fe, bool_decide (k ∈ keysOf fe)) fes = false.
Proof.
  unfold entriesFor. induction fes as [|fe fes IH]; [split; reflexivity|].
  cbn [omap list_omap existsb].
  destruct (bool_decide (k ∈ keysOf fe)); cbn [orb]; [split; discriminate|].
  exact IH.
Qed.

Lemma built_get (fes : list (jsstring * ZipObject)) (k : jsstring) :
  mapGet (fold_left indexEntry fes []) k
  = match entriesFor k fes with [] => None | l => Some l end.
Proof.
  rewrite fold_indexEntry_get. cbn [mapGet].
  destruct (entriesFor k fes); reflexivity.
Qed.

Lemma mapGet_elem {V} (m : jsMap V) (k : jsstring) (v : V) :
  NoDup (fst <$> m) → (k, v) ∈ m → mapGet m k = Some v.
Proof.
  induction m as [|[k0 v0] m IH]; intros Hnd Hin; [inversion Hin|].
  cbn [fmap list_fmap fst] in Hnd. apply NoDup_cons in Hnd as [Hk0 Hnd].
  cbn [mapGet]. apply elem_of_cons in Hin as [[= -> ->]|Hin].
  - rewrite decide_True by reflexivity. reflexivity.
  - rewrite decide_False; [exact (IH Hnd Hin)|].
    intros ->. apply Hk0. apply list_elem_of_fmap. exists (k, v). auto.
Qed.

Lemma find_fst {V} (P : jsstring → bool) (m : jsMap V) :
  List.find P (fst <$> m) = fst <$> List.find (λ kv, P kv.1) m.
Proof.
  induction m as [|[k v] m IH]; [reflexivity|].
  cbn [fmap list_fmap fst List.find]. destruct (P k); [reflexivity|exact IH].
Qed.

(** X15. What the index holds after [buildMediaIndex], whatever it
    held before: under a key, the entries of the archive registered
    under it, in the order of the archive (an entry is registered under
    its last path segment and under what precedes the first dot of that
    segment, unless it is a directory, a [.txt] or [.py] file or has no
    indexed extension); [hasMedia] holds of the keys of some entry and
    of nothing else, and [getAvailableMedia] lists these keys without
    repetition. *)
Theorem media_index_lookup (fileEntries : list (jsstring * ZipObject))
    (s : MediaLoader) :
  let s' := buildMediaIndex fileEntries s in
  (∀ k, mapGet (mediaIndex s') k
        = match entriesFor k fileEntries with [] => None | l => Some l end)
  ∧ (∀ k, hasMedia k s'
          = existsb (λ fe, bool_decide (k ∈ keysOf fe)) fileEntries)
  ∧ NoDup (getAvailableMedia s')
  ∧ (∀ k, k ∈ getAvailableMedia s'
          ↔ ∃ fe, fe ∈ fileEntries ∧ k ∈ keysOf fe).
Proof.
  cbv zeta. unfold hasMedia, getAvailableMedia, buildMediaIndex.
  cbn [mediaIndex set_mediaIndex].
  split; [apply built_get|]. split; [|split].
  - intros k. rewrite built_get.
    destruct (entriesFor k fileEntries) eqn:E.
    + symmetry. apply entriesFor_nil. exact E.
    + symmetry. apply not_false_iff_true. rewrite <- entriesFor_nil.
      congruence.
  - apply fold_indexEntry_keys. constructor.
  - intros k.
    assert (H : k ∈ fst <$> fold_left indexEntry fileEntries []
                ↔ entriesFor k fileEntries ≠ []).
    { pose proof (mapGet_None (fold_left indexEntry fileEntries []) k) as Hn.
      rewrite built_get in Hn.
      destruct (entriesFor k fileEntries) eqn:E.
      - split; [intros Hin; exfalso; apply (proj1 Hn eq_refl Hin)|congruence].
      - split; [discriminate|]. intros _.
        destruct (decide (k ∈ fst <$> fold_left indexEntry fileEntries []))
          as [Hin|Hnin]; [exact Hin|].
        apply Hn in Hnin. discriminate. }
    rewrite H, entriesFor_nil, not_false_iff_true, existsb_exists.
    split.
    + intros (fe & Hin & Hk). exists fe.
      split; [apply list_elem_of_In; exact Hin|].
      apply bool_decide_eq_true in Hk. exact Hk.
    + intros (fe & Hin & Hk). exists fe.
      split; [apply list_elem_of_In; exact Hin|].
      apply bool_decide_eq_true. exact Hk.
Qed.

(** X16. What a request reads from the index [buildMediaIndex] made:
    for a name that is a key, the first entry of the archive registered
    under it; for another name, the first entry of the first key, in the
    order of registration, that contains what precedes the first dot of
    the name or whose own part before its first dot is contained in the
    name; and nothing ([null]) when there is no such key. The read never
    takes the first element of an empty list. *)
Theorem doLoadMedia_on_index (fileEntries : list (jsstring * ZipObject))
    (s : MediaLoader) (f : jsstring) :
  let s' := buildMediaIndex fileEntries s in
  match entriesFor f fileEntries with
  | e :: _ => doLoadMedia (mediaIndex s') f = Extracting e
  | [] =>
      match List.find (resembles f) (getAvailableMedia s') with
      | Some k =>
          ∃ e l, entriesFor k fileEntries = e :: l
                 ∧ doLoadMedia (mediaIndex s') f = Extracting e
      | None => doLoadMedia (mediaIndex s') f = NotFound
      end
  end.
Proof.
  cbv zeta. unfold getAvailableMedia, buildMediaIndex.
  cbn [mediaIndex set_mediaIndex].
  unfold doLoadMedia. rewrite built_get.
  destruct (entriesFor f fileEntries) as [|e l]; [|reflexivity].
  rewrite find_fst. unfold fuzzyFind.
  change (λ kv : jsstring * list MediaEntry,
            includes kv.1 (Viewer.item (splitOn (chr ".") f) 0)
            || includes f (Viewer.item (splitOn (chr ".") kv.1) 0))
    with (λ kv : jsstring * list MediaEntry, resembles f kv.1).
  destruct (List.find _ _) as [[k v]|] eqn:E; cbn [fmap option_fmap option_map fst snd];
    [|reflexivity].
  apply List.find_some in E as [Hin _]. apply list_elem_of_In in Hin.
  apply mapGet_elem in Hin; [|apply fold_indexEntry_keys; constructor].
  rewrite built_get in Hin.
  destruct (entriesFor k fileEntries) as [|e l]; [discriminate|].
  injection Hin as <-. exists e, l. split; reflexivity.
Qed.

(** X17. No slot stays idle while a task waits: in every state the
    loader reaches, by whatever calls and continuations, either the
    queue is empty or as many tasks are started as the limit allows. *)
Theorem no_idle_slot_while_queued (limit : Z) (tr : list Event) :
  let s := run (newMediaLoader limit) tr in
  taskQueue s = [] ∨ activeTasks s = Z.max 0 limit.
Proof.
  cbv zeta.
  pose proof (run_sound tr _ (sound_new limit)) as [Hb _ _ _ _].
  pose proof (run_consistent limit tr _ (consistent_new limit))
    as [Hl Ha Hbd _ _ _ _].
  destruct Hb as [Hb|Hb]; [left; exact Hb|right]. lia.
Qed.

(** X18. In every state the loader reaches, a resource in the cache
    is filed under the name it was made for and has the kind of that
    name, and so has the value of every fulfilled promise; what
    [loadMedia] returns at once is a resource made for the requested
    name. *)
Theorem media_made_for_its_name (limit : Z) (tr : list Event) :
  let s := run (newMediaLoader limit) tr in
  map_Forall (λ f m, filename m = f ∧ type m = Loader.getMediaType f)
    (loadedBlobs s)
  ∧ Forall (λ ps, match ps with
                  | Fulfilled (Some m) =>
                      type m = Loader.getMediaType (filename m)
                  | _ => True
                  end) (promises s)
  ∧ (∀ f, match (loadMedia f s).1 with
          | Value m => filename m = f ∧ type m = Loader.getMediaType f
          | Promise _ => loadedBlobs s !! f = None
          end).
Proof.
  cbv zeta.
  pose proof (run_sound tr _ (sound_new limit)) as [_ _ Hc _ Hp].
  split; [exact Hc|]. split.
  - eapply Forall_impl; [exact Hp|]. intros [|[m|]|]; try exact (λ _, I).
    intros [_ H]. exact H.
  - intros f. unfold loadMedia.
    destruct (loadedBlobs _ !! f) as [m|] eqn:E; cbn [fst].
    + exact (Hc f m E).
    + destruct (loadingPromises _ !! f); reflexivity.
Qed.

(** X19. In every state the loader reaches, the lookup of a
    request finds an entry to read or finds nothing: it never fails on a
    key without entries, so a task fails only when the read of the
    archive does. *)
Theorem lookup_never_throws (limit : Z) (tr : list Event) (f : jsstring) :
  let s := run (newMediaLoader limit) tr in
  doLoadMedia (mediaIndex s) f = NotFound
  ∨ ∃ e, doLoadMedia (mediaIndex s) f = Extracting e.
Proof.
  cbv zeta.
  pose proof (run_sound tr _ (sound_new limit)) as [_ Hi _ _ _].
  assert (Hi' : Forall (λ kv : jsstring * list MediaEntry,
                          kv.2 ≠ [] ∧ Forall (λ _, True) kv.2)
                  (mediaIndex (run (newMediaLoader limit) tr))).
  { eapply Forall_impl; [exact Hi|]. intros kv Hne.
    split; [exact Hne|]. apply Forall_true. intros; exact I. }
  destruct (doLoadMedia_cases (λ _, True) _ f Hi') as
    [(e & l & _ & _ & H)|[_ [(k & e & l & b & a & _ & _ & _ & _ & H)|[_ H]]]].
  - right. eauto.
  - right. eauto.
  - left. exact H.
Qed.
End Requests.

(** ** The split page *)
Section Page.
Import Spilter SplitZipPage.
Context {host : Host}.

Lemma splitOn_Forall (P : N → Prop) (sep : N) (s : jsstring) :
  Forall P s → Forall (Forall P) (splitOn sep s).
Proof.
  induction 1 as [|c s Hc _ IH]; [repeat constructor|].
  cbn [splitOn]. destruct (c =? sep)%N; [constructor; [constructor|exact IH]|].
  destruct (splitOn sep s) as [|l ls]; [repeat constructor; exact Hc|].
  apply Forall_cons in IH as [Hl Hls]. repeat constructor; assumption.
Qed.

Lemma dropWhile_Forall (P : N → Prop) (p : N → bool) (s : jsstring) :
  Forall P s → Forall P (dropWhile p s).
Proof.
  induction 1 as [|c s Hc Hs IH]; [constructor|].
  cbn [dropWhile]. destruct (p c); [exact IH|constructor; assumption].
Qed.

Lemma trim_Forall (P : N → Prop) (s : jsstring) :
  Forall P s → Forall P (trim s).
Proof.
  intros H. unfold trim.
  apply Forall_reverse, dropWhile_Forall, Forall_reverse, dropWhile_Forall, H.
Qed.

Lemma trim_white (s : jsstring) :
  Forall (λ c, isSpace c = true) s → trim s = [].
Proof. intros H. unfold trim. rewrite (dropWhile_all _ s H). reflexivity. Qed.

Lemma isASCII_Forall (s : jsstring) :
  isASCII s = true ↔ Forall (λ c, (c < 128)%N) s.
Proof.
  unfold isASCII. rewrite forallb_forall, Forall_forall.
  split; intros H c Hc.
  - apply N.ltb_lt, H, list_elem_of_In, Hc.
  - apply N.ltb_lt, H, list_elem_of_In, Hc.
Qed.

Lemma lowerASCII_isASCII (s : jsstring) :
  isASCII s = true → isASCII (lowerASCII s) = true.
Proof.
  induction s as [|c s IH]; [reflexivity|].
  cbn [isASCII lowerASCII map forallb]. intros H.
  apply andb_prop in H as [Hc H]. fold (isASCII s) in H.
  fold (lowerASCII s). fold (isASCII (lowerASCII s)). rewrite (IH H).
  rewrite andb_true_r. apply N.ltb_lt in Hc. apply N.ltb_lt.
  destruct ((65 <=? c) && (c <=? 90))%N eqn:E; [|exact Hc].
  apply andb_prop in E as [_ E]. apply N.leb_le in E. lia.
Qed.

Lemma lowerASCII_idempotent (s : jsstring) :
  lowerASCII (lowerASCII s) = lowerASCII s.
Proof.
  induction s as [|c s IH]; [reflexivity|].
  cbn [lowerASCII map]. fold (lowerASCII s). fold (lowerASCII (lowerASCII s)).
  rewrite IH. f_equal.
  destruct ((65 <=? c) && (c <=? 90))%N eqn:E; [|rewrite E; reflexivity].
  apply andb_prop in E as [E _]. apply N.leb_le in E.
  rewrite (proj2 (N.leb_gt (c + 32) 90)) by lia.
  rewrite andb_false_r. reflexivity.
Qed.

Lemma splitOn_white (sep : N) (s : jsstring) :
  Forall (λ c, isSpace c = true ∨ c = sep) s →
  Forall (Forall (λ c, isSpace c = true)) (splitOn sep s).
Proof.
  induction 1 as [|c s Hc _ IH]; [repeat constructor|].
  cbn [splitOn]. destruct (N.eqb_spec c sep) as [->|Hne].
  - constructor; [constructor|exact IH].
  - destruct Hc as [Hc|Hc]; [|congruence].
    destruct (splitOn sep s) as [|l ls]; [repeat constructor; exact Hc|].
    apply Forall_cons in IH as [Hl Hls]. repeat constructor; assumption.
Qed.

(** A field of commas and white space gives no extension. *)
Lemma customExts_blank (mediaExts : jsstring) :
  Forall (λ c, isSpace c = true ∨ c = chr ",") mediaExts →
  customExts mediaExts = [].
Proof.
  intros H. unfold customExts. apply splitOn_white in H.
  induction H as [|p ps Hp _ IH]; [reflexivity|].
  cbn [map List.filter]. rewrite (trim_white p Hp). exact IH.
Qed.

(** The extensions of a field of ASCII characters: the host plays no
    part, and the splitter finds them in lower case. *)
Lemma customExts_ASCII (mediaExts : jsstring) :
  isASCII mediaExts = true →
  customExts mediaExts
  = List.filter (λ x, match x with [] => false | _ :: _ => true end)
      (map (λ p, lowerASCII (trim p)) (splitOn (chr ",") mediaExts))
  ∧ map toLowerCase (customExts mediaExts) = customExts mediaExts.
Proof.
  intros H. apply isASCII_Forall in H.
  apply (splitOn_Forall _ (chr ",")) in H. unfold customExts.
  induction H as [|p ps Hp _ [IH1 IH2]]; [split; reflexivity|].
  apply trim_Forall, isASCII_Forall in Hp.
  cbn [map List.filter]. rewrite (toLowerCase_ASCII _ Hp), IH1.
  split; [reflexivity|].
  destruct (lowerASCII (trim p)) as [|c x] eqn:E; [rewrite <- IH1; exact IH2|].
  cbn [map]. rewrite <- IH1, IH2. f_equal. rewrite <- E.
  rewrite (toLowerCase_ASCII _ (lowerASCII_isASCII _ Hp)).
  apply lowerASCII_idempotent.
Qed.

(** X20. The split page calls the splitter only with two valid dates
    of which the start is not after the end, so never with a range that
    holds no instant; the options carry the two check boxes, the default
    chat patterns, and either no extension list (the default list is
    used) or a non-empty list of non-empty extensions: the pieces of the
    extensions field between its commas, trimmed and in lower case,
    without the empty ones. A field left empty, or holding only commas
    and white space, gives no list. For a field of ASCII characters the
    host plays no part in the list and the splitter, which lower-cases
    the extensions again, looks for exactly the extensions of the list.
    Without an archive, without one of the dates, with an invalid date
    or with a start after the end, the page shows a message and splits
    nothing. *)
Theorem handleSplit_calls_with_valid_range (zipFile : option (list Entry))
    (start end_ : option Date) (includeChat includeMedia : bool)
    (mediaExts : jsstring) :
  match handleSplit zipFile start end_ includeChat includeMedia mediaExts with
  | Split zip options =>
      zipFile = Some zip
      ∧ (∃ s e, start = Some (DateValue s) ∧ end_ = Some (DateValue e)
                ∧ Spilter.start options = DateValue s
                ∧ Spilter.end_ options = DateValue e ∧ s <= e)
      ∧ Spilter.includeChat options = Some includeChat
      ∧ Spilter.includeMedia options = Some includeMedia
      ∧ chatFilenameCandidates options = None
      ∧ match mediaExtensions options with
        | None => customExts mediaExts = []
        | Some l => l = customExts mediaExts ∧ l ≠ []
                    ∧ Forall (λ x, x ≠ []) l
        end
      ∧ customExts mediaExts
        = List.filter (λ x, match x with [] => false | _ :: _ => true end)
            (map (λ p, toLowerCase (trim p)) (splitOn (chr ",") mediaExts))
      ∧ (Forall (λ c, isSpace c = true ∨ c = chr ",") mediaExts →
         mediaExtensions options = None
         ∧ mediaSetOf options = DEFAULT_MEDIA_EXTS)
      ∧ (isASCII mediaExts = true →
         customExts mediaExts
         = List.filter (λ x, match x with [] => false | _ :: _ => true end)
             (map (λ p, lowerASCII (trim p)) (splitOn (chr ",") mediaExts))
         ∧ mediaSetOf options
           = default DEFAULT_MEDIA_EXTS (mediaExtensions options))
  | Status _ =>
      zipFile = None ∨ start = None ∨ end_ = None
      ∨ start = Some InvalidDate ∨ end_ = Some InvalidDate
      ∨ ∃ s e, start = Some (DateValue s) ∧ end_ = Some (DateValue e) ∧ e < s
  end.
Proof.
  unfold handleSplit.
  destruct zipFile as [zip|]; [|auto].
  destruct start as [[s|]|]; [| |auto]; destruct end_ as [[e|]|];
    cbn [isValidDate negb orb gtDate]; auto 10.
  destruct (Z.ltb_spec e s) as [Hlt|Hle].
  - do 5 right. eauto.
  - cbv zeta. cbn [Spilter.start Spilter.end_ Spilter.includeChat
                   Spilter.includeMedia chatFilenameCandidates mediaExtensions].
    split; [reflexivity|]. split; [eauto 10|]. do 3 (split; [reflexivity|]).
    assert (Hdef : map toLowerCase DEFAULT_MEDIA_EXTS = DEFAULT_MEDIA_EXTS)
      by (vm_compute; reflexivity).
    split; [|split; [reflexivity|split]].
    + destruct (customExts mediaExts) as [|x l] eqn:E; [reflexivity|].
      split; [reflexivity|]. split; [discriminate|].
      rewrite <- E. unfold customExts. apply Forall_forall. intros y Hy.
      apply list_elem_of_In, filter_In in Hy as [_ Hy].
      destruct y; [discriminate|discriminate].
    + intros Hblank. rewrite (customExts_blank mediaExts Hblank).
      split; [reflexivity|exact Hdef].
    + intros Hascii. destruct (customExts_ASCII mediaExts Hascii) as [H1 H2].
      split; [exact H1|]. unfold mediaSetOf. cbn [mediaExtensions].
      destruct (customExts mediaExts) as [|x l]; [exact Hdef|exact H2].
Qed.
Lemma isMediaName_listed (exts : list jsstring) (n : jsstring) :
  isMediaName (map toLowerCase exts) n = true →
  ∃ x, x ∈ exts ∧ toLowerCase x ≠ []
       ∧ forallb isAlnum (toLowerCase x) = true.
Proof.
  intros H. apply isMediaName_spec in H
    as (pre & ext & _ & Hne & Hal & Hin).
  apply list_elem_of_In, in_map_iff in Hin as (x & Hx & Hin).
  exists x. split; [apply list_elem_of_In; exact Hin|].
  rewrite Hx, (toLowerCase_alnum ext Hal). split.
  - destruct ext; [congruence|discriminate].
  - rewrite isAlnum_lower. exact Hal.
Qed.

(** X21. An extension of the list whose lower-case form, the one the
    splitter looks for, holds a character other than an ASCII letter or
    digit selects nothing: when the extensions field of the split page
    holds only such items, as when the extensions are typed with their
    dot, no entry of any archive is a media file and the output has no
    media. *)
Theorem dotted_extensions_select_nothing (mediaExts : jsstring)
    (zip : list Entry) (start end_ : Date) (includeChat includeMedia : bool) :
  customExts mediaExts ≠ [] →
  Forall (λ x, forallb isAlnum (toLowerCase x) = false)
    (customExts mediaExts) →
  ∃ options,
    handleSplit (Some zip) (Some start) (Some end_) includeChat includeMedia
      mediaExts
    = (if negb (isValidDate start) || negb (isValidDate end_)
       then Status (str "Invalid date/time format")
       else if gtDate start end_
       then Status (str "Start time cannot be later than end time")
       else Split zip options)
    ∧ mediaExtensions options = Some (customExts mediaExts)
    ∧ ∀ n, isMediaName (mediaSetOf options) n = false.
Proof.
  intros Hne Hall.
  exists {| Spilter.start := start; Spilter.end_ := end_;
            Spilter.includeChat := Some includeChat;
            Spilter.includeMedia := Some includeMedia;
            mediaExtensions := Some (customExts mediaExts);
            chatFilenameCandidates := None |}.
  split; [|split; [reflexivity|]].
  - unfold handleSplit. cbv zeta.
    destruct (customExts mediaExts); [congruence|reflexivity].
  - intros n. apply not_true_is_false. intros H.
    unfold mediaSetOf in H. cbn [mediaExtensions default] in H.
    apply isMediaName_listed in H as (x & Hx & _ & Hal).
    rewrite (proj1 (Forall_forall _ _) Hall x Hx) in Hal. discriminate.
Qed.
End Page.

Section PageSamples.
Import Spilter SplitZipPage.
#[local] Existing Instance sampleHost.

Lemma dotted_extensions_select_nothing_witness :
  ∃ options,
    handleSplit (Some sampleZip) (Some (DateValue 1704240000000))
      (Some (DateValue 1704672000000)) true true (str ".jpg, .png")
    = (if negb (isValidDate (DateValue 1704240000000))
          || negb (isValidDate (DateValue 1704672000000))
       then Status (str "Invalid date/time format")
       else if gtDate (DateValue 1704240000000) (DateValue 1704672000000)
       then Status (str "Start time cannot be later than end time")
       else Split sampleZip options)
    ∧ mediaExtensions options = Some (customExts (str ".jpg, .png"))
    ∧ ∀ n, isMediaName (mediaSetOf options) n = false.
Proof.
  apply (dotted_extensions_select_nothing (str ".jpg, .png") sampleZip
           (DateValue 1704240000000) (DateValue 1704672000000) true true).
  - vm_compute. discriminate.
  - by_compute.
Defined.
End PageSamples.

(** ** The list of the viewer *)
Section View.
Import Viewer.
Context {host : Host}.

Lemma filter_sublist {A} (f : A → bool) (l : list A) :
  List.filter f l `sublist_of` l.
Proof.
  induction l as [|x l IH]; cbn [List.filter]; [constructor|].
  destruct (f x); [apply sublist_skip|apply sublist_cons]; exact IH.
Qed.

(** X22. What the list of the viewer shows after a search or a
    choice of dates: a sublist of the messages, in their order; without
    search text and with both dates, exactly the messages whose date
    lies between the two, bounds included (the test of the splitter);
    with a date that is invalid, nothing; and a message whose own date
    is invalid passes no date filter. Without search text and without
    dates the list is the list of all messages. *)
Theorem filterMessages_by_dates :
  (∀ search startDate endDate messages,
     filterMessages search startDate endDate messages `sublist_of` messages)
  ∧ (∀ s e messages,
       filterMessages [] (Some s) (Some e) messages
       = List.filter (λ m, Spilter.inRange (datetime m) s e) messages)
  ∧ (∀ messages, filterMessages [] None None messages = messages)
  ∧ (∀ search endDate messages,
       filterMessages search (Some InvalidDate) endDate messages = [])
  ∧ (∀ search startDate messages,
       filterMessages search startDate (Some InvalidDate) messages = [])
  ∧ (∀ search startDate endDate messages,
       is_Some startDate ∨ is_Some endDate →
       Forall (λ m, datetime m ≠ InvalidDate)
         (filterMessages search startDate endDate messages)).
Proof.
  assert (Hnone : ∀ (l : list WhatsAppMessage) f,
            (∀ m, f m = false) → List.filter f l = []).
  { intros l f Hf. induction l as [|x l IH]; [reflexivity|].
    cbn [List.filter]. rewrite Hf. exact IH. }
  assert (Hff : ∀ (l : list WhatsAppMessage) f g,
            List.filter g (List.filter f l)
            = List.filter (λ m, f m && g m) l).
  { intros l f g. induction l as [|x l IH]; [reflexivity|].
    cbn [List.filter]. destruct (f x); cbn [List.filter andb]; rewrite IH;
      reflexivity. }
  split; [|split; [|split; [|split; [|split]]]].
  - intros search startDate endDate messages. unfold filterMessages.
    cbv zeta.
    destruct search, startDate, endDate;
      repeat (etrans; [apply filter_sublist|]); reflexivity.
  - intros s e messages. unfold filterMessages. cbv zeta. rewrite Hff.
    apply List.filter_ext. intros m. unfold geDate, leDate, Spilter.inRange.
    destruct (datetime m), s, e; rewrite ?andb_false_r; reflexivity.
  - reflexivity.
  - intros search endDate messages. unfold filterMessages. cbv zeta.
    rewrite (Hnone _ (λ m, geDate (datetime m) InvalidDate)).
    + destruct endDate; reflexivity.
    + intros m. unfold geDate. destruct (datetime m); reflexivity.
  - intros search startDate messages. unfold filterMessages. cbv zeta.
    apply Hnone. intros m. unfold leDate. destruct (datetime m); reflexivity.
  - intros search startDate endDate messages Hd. unfold filterMessages.
    cbv zeta.
    assert (Hge : ∀ sd l, Forall (λ m : WhatsAppMessage, datetime m ≠ InvalidDate)
                    (List.filter (λ m, geDate (datetime m) sd) l)).
    { intros sd l. apply Forall_forall. intros m Hm.
      apply list_elem_of_In, filter_In in Hm as [_ Hm].
      unfold geDate in Hm. destruct (datetime m); [discriminate|discriminate]. }
    assert (Hle : ∀ ed l, Forall (λ m : WhatsAppMessage, datetime m ≠ InvalidDate)
                    (List.filter (λ m, leDate (datetime m) ed) l)).
    { intros ed l. apply Forall_forall. intros m Hm.
      apply list_elem_of_In, filter_In in Hm as [_ Hm].
      unfold leDate in Hm. destruct (datetime m); [discriminate|discriminate]. }
    destruct endDate as [ed|]; [apply Hle|].
    destruct startDate as [sd|]; [apply Hge|].
    destruct Hd as [[? [=]]|[? [=]]].
Qed.

(** X23. Of a list of more than a thousand messages the viewer
    renders at most the first five hundred, however large the count of
    visible messages has grown: the messages after the five hundredth
    are never rendered. A list of at most a thousand messages is
    rendered up to the count. *)
Theorem displayMessages_caps_long_lists {A} (filtered : list A)
    (visibleCount : nat) :
  displayMessages filtered visibleCount `prefix_of` filtered
  ∧ (if (1000 <? length filtered)%nat
     then (length (displayMessages filtered visibleCount) ≤ 500)%nat
          ∧ ∀ i, (500 ≤ i)%nat → displayMessages filtered visibleCount !! i = None
     else displayMessages filtered visibleCount = take visibleCount filtered).
Proof.
  unfold displayMessages. split.
  - destruct (1000 <? length filtered)%nat; apply prefix_take.
  - destruct (1000 <? length filtered)%nat; [|reflexivity].
    assert (H : (length (take (visibleCount `min` 500) filtered) ≤ 500)%nat).
    { rewrite length_take. lia. }
    split; [exact H|]. intros i Hi. apply lookup_ge_None. lia.
Qed.
End View.

Section ViewSamples.
Import Viewer.
#[local] Existing Instance sampleHost.

Lemma filterMessages_by_dates_witness :
  Forall (λ m, datetime m ≠ InvalidDate)
    (filterMessages [] (Some (DateValue 0)) None
       [ {| datetime := InvalidDate; sender := str "A"; message := str "x" |};
         {| datetime := DateValue 5; sender := str "B"; message := str "y" |} ]).
Proof.
  apply (proj2 (proj2 (proj2 (proj2 (proj2 filterMessages_by_dates))))).
  left. eexists. reflexivity.
Defined.

End ViewSamples.

(** ** From the splitter to the viewer *)
Section SplitThenView.
Import Spilter.
Context {host : Host}.

Lemma pop_splitOn_suffix (sep : N) (n : jsstring) :
  ∃ q, n = q ++ pop (splitOn sep n).
Proof.
  destruct (last_separator sep n) as [Hn|(d & b & -> & Hb)].
  - exists []. rewrite (splitOn_absent sep n Hn). reflexivity.
  - exists (d ++ [sep]). rewrite (pop_splitOn_path sep d b Hb).
    rewrite <- app_assoc. reflexivity.
Qed.

Lemma after_last_separator (x : N) (A E B F : jsstring) :
  x ∉ E → x ∉ F → A ++ x :: E = B ++ x :: F → E = F.
Proof.
  intros HE HF. revert B. induction A as [|a A IH]; intros B H.
  - destruct B as [|b B]; cbn [app] in H.
    + congruence.
    + injection H as <- ->. exfalso. apply HE.
      apply elem_of_app. right. apply list_elem_of_here.
  - destruct B as [|b B]; cbn [app] in H.
    + injection H as -> <-. exfalso. apply HF.
      apply elem_of_app. right. apply list_elem_of_here.
    + injection H as _ H. exact (IH B H).
Qed.

Lemma alnum_no_dot (s : jsstring) :
  forallb isAlnum s = true → chr "." ∉ s.
Proof.
  intros H Hin. apply list_elem_of_In in Hin.
  apply (proj1 (forallb_forall _ _) H) in Hin. discriminate.
Qed.

Lemma txt_extension (n pre ext : jsstring) :
  n = pre ++ chr "." :: ext → forallb isAlnum ext = true →
  endsWith (lowerASCII n) (str ".txt") = true →
  lowerASCII ext = str "txt".
Proof.
  intros -> Hal H. apply endsWith_spec in H as [p H].
  rewrite lowerASCII_app in H.
  change (lowerASCII (chr "." :: ext)) with (chr "." :: lowerASCII ext) in H.
  change (str ".txt") with (chr "." :: str "txt") in H.
  apply after_last_separator in H; [exact H| |by_compute].
  apply alnum_no_dot. rewrite isAlnum_lower. exact Hal.
Qed.

Lemma default_chat_is_text (zip : list Entry) (c : Entry) :
  findChatFile zip DEFAULT_CHAT_CANDIDATES = Some c →
  endsWith (lowerASCII (name c)) (str ".txt") = true.
Proof.
  intros H. apply findChatFile_name in H as [H|H].
  - apply default_candidate_names in H as [H|(pre & mid & suf & -> & _ & _ & Hs)].
    + apply endsWith_spec in H as [p H]. apply endsWith_spec.
      exists (p ++ str "_chat"). rewrite H, <- app_assoc. reflexivity.
    + apply endsWith_spec. exists (lowerASCII pre ++ lowerASCII mid).
      rewrite !lowerASCII_app, Hs, <- app_assoc. reflexivity.
  - apply text_names. exact H.
Qed.

Lemma find_only {A} (P : A → bool) (l : list A) (a : A) :
  (∀ x, x ∈ l → P x = true → x = a) → a ∈ l → P a = true →
  List.find P l = Some a.
Proof.
  intros Hall Hin Ha. destruct (List.find P l) as [x|] eqn:E.
  - apply List.find_some in E as [Hx HP]. f_equal.
    apply Hall; [apply list_elem_of_In; exact Hx|exact HP].
  - apply list_elem_of_In in Hin.
    rewrite (List.find_none _ _ E a Hin) in Ha. discriminate.
Qed.

Lemma viewer_text_names (n : jsstring) :
  test Viewer.txtRe n = true ↔ endsWith (lowerASCII n) (str ".txt") = true.
Proof. apply (test_suffix_literal 0 (str ".txt")). by_compute. Qed.

Lemma folder_is_not_text (n : jsstring) :
  endsWith n (str "/") = true →
  endsWith (lowerASCII n) (str ".txt") = false.
Proof.
  intros H. apply endsWith_spec in H as [q ->].
  apply not_true_is_false. intros H. apply endsWith_spec in H as [p H].
  rewrite lowerASCII_app in H. apply (f_equal last) in H.
  change (lowerASCII (str "/")) with [chr "/"] in H.
  change (str ".txt") with (str ".tx" ++ [chr "t"]) in H.
  rewrite app_assoc, !last_snoc in H. discriminate.
Qed.

(** X24. The viewer finds the transcript in what the splitter wrote.
    When the chat is included, the chat file was found by the default
    patterns and [txt] is not among the media extensions, the name the
    viewer takes as the chat file among the names of the output archive
    (the files of the output, in any order, and the folder entries the
    archive library adds) is the name of the transcript: the first pass
    of the viewer, for a last path segment [_chat.txt], and its second,
    for a name that ends with [.txt], can stop at no media file. *)
Theorem viewer_finds_split_transcript (UTC : Z → Z) (zip : list Entry)
    (options : SplitOptions) (c : Entry) (names : list jsstring) :
  includeChat options ≠ Some false →
  chatFilenameCandidates options = None →
  str "txt" ∉ map toLowerCase
                (default DEFAULT_MEDIA_EXTS (mediaExtensions options)) →
  findChatFile zip DEFAULT_CHAT_CANDIDATES = Some c →
  name c ∈ names →
  (∀ n, n ∈ names →
        is_Some (splitZipByTimeRangeAndMedia UTC zip options !! n)
        ∨ endsWith n (str "/") = true) →
  Viewer.chatCandidate names = Some (name c).
Proof.
  intros Hic Hcands Htxt Hc Hin Hnames.
  assert (Hce : chatEntryOf zip options = Some c).
  { unfold chatEntryOf. rewrite Hcands. cbn [default].
    destruct (includeChat options) as [[]|]; cbn [default];
      [exact Hc|congruence|exact Hc]. }
  assert (Hctxt := default_chat_is_text zip c Hc).
  assert (Hother : ∀ n, n ∈ names →
            endsWith (lowerASCII n) (str ".txt") = true → n = name c).
  { intros n Hn Hend. destruct (Hnames n Hn) as [[content Hout]|Hfolder].
    - apply split_lookup_Some in Hout as [(e & He & <- & _)|[_ Hcp]].
      + congruence.
      + destruct Hcp as (e & _ & <- & _ & _ & Hsel & _).
        unfold selected in Hsel. apply andb_prop in Hsel as [Hm _].
        apply isMediaName_spec in Hm as (pre & ext & Hn' & _ & Hal & Hext).
        rewrite (toLowerCase_alnum ext Hal),
          (txt_extension _ pre ext Hn' Hal Hend) in Hext.
        contradiction.
    - rewrite (folder_is_not_text n Hfolder) in Hend. discriminate. }
  assert (Hsecond : List.find (λ n, test Viewer.txtRe n) names
                    = Some (name c)).
  { apply find_only; [|exact Hin|apply viewer_text_names; exact Hctxt].
    intros n Hn Ht. apply Hother; [exact Hn|].
    apply viewer_text_names. exact Ht. }
  unfold Viewer.chatCandidate. rewrite Hsecond.
  destruct (List.find (λ n, bool_decide (pop (splitOn (Viewer.chr "/") n)
                                         = str "_chat.txt")) names)
    as [n|] eqn:E; [|reflexivity].
  destruct n as [|ch n]; [reflexivity|].
  apply List.find_some in E as [Hn HP]. f_equal. apply Hother.
  - apply list_elem_of_In. exact Hn.
  - apply bool_decide_eq_true in HP.
    destruct (pop_splitOn_suffix (Viewer.chr "/") (ch :: n)) as [q Hq].
    rewrite HP in Hq. rewrite Hq. apply endsWith_spec.
    exists (lowerASCII q ++ str "_chat").
    rewrite lowerASCII_app, <- app_assoc. reflexivity.
Qed.

Lemma extensionOf_after_last_dot (pre ext : jsstring) :
  forallb isAlnum ext = true →
  Viewer.extensionOf (pre ++ chr "." :: ext) = toLowerCase ext.
Proof.
  intros Hal. unfold Viewer.extensionOf.
  change (Viewer.chr ".") with (chr ".").
  rewrite pop_splitOn_path by (apply alnum_no_dot; exact Hal). reflexivity.
Qed.

Lemma not_suffix_of_other_extension (pre ext suf : jsstring) :
  forallb isAlnum ext = true → chr "." ∉ suf → ext ≠ suf →
  endsWith (pre ++ chr "." :: ext) (chr "." :: suf) = false.
Proof.
  intros Hal Hsuf Hne. apply not_true_is_false. intros H.
  apply endsWith_spec in H as [p H].
  apply after_last_separator in H; [congruence| |exact Hsuf].
  apply alnum_no_dot. exact Hal.
Qed.

(** X25. What the splitter copies with its default extensions, the
    loader of the viewer indexes, with one exception: an entry whose
    name is a media name for the default list of the splitter is
    registered by [buildMediaIndex] (when it is not a directory) unless
    its extension is [mkv], which the splitter lists and the loader does
    not. *)
Theorem split_media_are_indexed_but_mkv (n : jsstring) (z : Loader.ZipObject) :
  isMediaName (map toLowerCase DEFAULT_MEDIA_EXTS) n = true →
  Loader.zipDir z = false →
  Loader.indexable (n, z)
  = negb (bool_decide (Viewer.extensionOf n = str "mkv")).
Proof.
  intros Hm Hdir.
  apply isMediaName_spec in Hm as (pre & ext & -> & Hne & Hal & Hin).
  unfold Loader.indexable. cbn [fst snd]. rewrite Hdir.
  rewrite (extensionOf_after_last_dot pre ext Hal).
  assert (Hlow : ∀ suf, toLowerCase ext ≠ suf → toLowerCase suf = suf →
                        ext ≠ suf).
  { intros suf H1 H2 ->. congruence. }
  change (str ".txt") with (chr "." :: str "txt").
  change (str ".py") with (chr "." :: str "py").
  rewrite !not_suffix_of_other_extension; try assumption; try by_compute.
  - cbn [negb andb].
    assert (Hall : Forall (λ x, arrayIncludes Loader.INDEXED_EXTS x
                                = negb (bool_decide (x = str "mkv")))
                     (map toLowerCase DEFAULT_MEDIA_EXTS)) by by_compute.
    exact (proj1 (Forall_forall _ _) Hall _ Hin).
  - apply Hlow; [|reflexivity]. intros E. rewrite E in Hin.
    revert Hin. by_compute.
  - apply Hlow; [|reflexivity]. intros E. rewrite E in Hin.
    revert Hin. by_compute.
Qed.

End SplitThenView.

Section SplitThenViewSamples.
Import Spilter.
#[local] Existing Instance sampleHost.

Lemma viewer_finds_split_transcript_witness :
  Viewer.chatCandidate [name sampleImageIn; name sampleChat]
  = Some (name sampleChat).
Proof.
  apply (viewer_finds_split_transcript (λ t, t) sampleZip
           (defaultOptions (DateValue 1704240000000) (DateValue 1704672000000))
           sampleChat).
  - discriminate.
  - reflexivity.
  - by_compute.
  - vm_compute. reflexivity.
  - apply list_elem_of_further, list_elem_of_here.
  - intros n Hn. left.
    apply elem_of_cons in Hn as [->|Hn];
      [|apply list_elem_of_singleton in Hn as ->];
      vm_compute; eexists; reflexivity.
Defined.

Lemma split_media_are_indexed_but_mkv_witness :
  Loader.indexable (str "clip 2024-01-05.MKV",
                    {| Loader.zipName := str "clip 2024-01-05.MKV";
                       Loader.zipDir := false |})
  = negb (bool_decide (Viewer.extensionOf (str "clip 2024-01-05.MKV")
                       = str "mkv")).
Proof.
  apply split_media_are_indexed_but_mkv; vm_compute; reflexivity.
Defined.

End SplitThenViewSamples.
